(** * SHFS administration tool (shfs_admin.c): model and properties

    A shallow embedding of the object actions of [shfs-tools/shfs_admin.c]
    (add, remove, export, set/clear default), of the mount and unmount
    sequences and of the token driver in [main], together with the
    properties of the volume they maintain or fail to maintain; with them
    the argument parser, the member mapping of [load_vol_cconf] and the
    doubly linked list of [dlist.h].

    Conventions.
    - C integers ([chk_t], [size_t], [uint64_t]) are [Z]; arithmetic done in
      64 bits is reduced with [u64].
    - Buffers and file contents are [list byte]; digests are [list byte] of
      length [hlen].
    - The global [shfs_vol] is an explicit [vol_info] value threaded through
      every action; everything outside the process (files, clock, signal
      arrival, failing library calls, standard output) is a [world].
    - The elements of a [dlist] live in a memory of link fields, a
      [gmap nat dlist_el] from the address of an element; a macro of
      dlist.h is a function on this memory and the list head.
    - The diagnostic level [verbosity] has its initial value 0 (no [-v] on
      the command line), so [dprintf] and the prints guarded by
      [verbosity >= D_L0] produce nothing. *)

From Stdlib Require Import ZArith List Bool Lia String Ascii.
From Stdlib Require Import Strings.Byte.
From stdpp Require Import base option list gmap strings.
Import ListNotations.
Local Open Scope Z_scope.

(** ** Bytes and digests *)

#[global] Instance byte_eq_decision : EqDecision byte := Byte.byte_eq_dec.

(** Modelled from the spec: the digest type [hash512_t] and its helpers
    [hash_is_zero], [hash_clear] and [hash_compare], whose header is not
    part of these sources.  Of the 64 bytes the first [hlen] are in use and
    only those are kept; the all-zero digest marks an empty slot. *)
Definition hash512_t := list byte.

(** [hash_is_zero(h, hlen)]. *)
Definition hash_is_zero (h : hash512_t) : bool :=
  forallb (fun b => Byte.eqb b x00) h.

(** [hash_clear(h, hlen)]. *)
Definition hash_clear (hlen : nat) : hash512_t := replicate hlen x00.

(** [hash_compare(a, b, hlen) == 0]. *)
Definition hash_equal (a b : hash512_t) : bool := bool_decide (a = b).

(** ** 64-bit arithmetic and the chunk macros *)

Definition u64 (z : Z) : Z := z mod 2 ^ 64.

(** A value stored in an [int]. *)
Definition int32 (z : Z) : Z := (z + 2 ^ 31) mod 2 ^ 32 - 2 ^ 31.

(** Modelled from the spec: the macro DIV_ROUND_UP of shfs_defs.h, which
    is not part of these sources; the spec writes it as the ceiling of
    the quotient.  The sum is taken in 64 bits as the callers do. *)
Definition DIV_ROUND_UP (n d : Z) : Z := u64 (n + d - 1) / d.

(** ** Free-space allocator *)

Inductive alloc_policy := ALLOC_FIRST | ALLOC_BEST.

(** Modelled from the spec: the allocator of shfs_alloc.h (struct
    shfs_alist with shfs_alloc_alist, shfs_alist_register,
    shfs_alist_unregister and shfs_alist_find_free), which is not part of
    these sources.  The state is the ordered list of occupied ranges
    [(start, length)]. *)
Record shfs_alist := {
  al_volsize : Z;
  al_policy : alloc_policy;
  al_ranges : list (Z * Z)
}.

Definition shfs_alloc_alist (volsize : Z) (policy : alloc_policy) : shfs_alist :=
  {| al_volsize := volsize; al_policy := policy; al_ranges := [] |}.

(** Modelled from the spec: register inserts [start, start+length) keeping
    the list sorted, merges with a range that touches it on either side and
    fails when it overlaps an occupied range. *)
Fixpoint range_insert (rs : list (Z * Z)) (s l : Z) : option (list (Z * Z)) :=
  match rs with
  | [] => Some [(s, l)]
  | (s0, l0) :: rest =>
      if s + l <? s0 then Some ((s, l) :: rs)
      else if s + l =? s0 then Some ((s, l + l0) :: rest)
      else if s0 + l0 <? s then cons (s0, l0) <$> range_insert rest s l
      else if s0 + l0 =? s then
        match rest with
        | [] => Some [(s0, l0 + l)]
        | (s1, l1) :: rest' =>
            if s + l <? s1 then Some ((s0, l0 + l) :: rest)
            else if s + l =? s1 then Some ((s0, l0 + l + l1) :: rest')
            else None
        end
      else None
  end.

(** Modelled from the spec: unregister removes exactly that range or the
    matching sub-range of an occupied range, splitting it if necessary,
    and fails when the range is not fully occupied. *)
Fixpoint range_remove (rs : list (Z * Z)) (s l : Z) : option (list (Z * Z)) :=
  match rs with
  | [] => None
  | (s0, l0) :: rest =>
      if s0 + l0 <=? s then cons (s0, l0) <$> range_remove rest s l
      else if (s0 <=? s) && (s + l <=? s0 + l0) then
        Some ((if s0 <? s then [(s0, s - s0)] else [])
              ++ (if s + l <? s0 + l0 then [(s + l, s0 + l0 - (s + l))] else [])
              ++ rest)
      else None
  end.

Definition set_ranges (al : shfs_alist) (rs : list (Z * Z)) : shfs_alist :=
  {| al_volsize := al_volsize al; al_policy := al_policy al; al_ranges := rs |}.

(** [shfs_alist_register(al, start, length)]: the status (0 or negative)
    and the allocator afterwards; an empty range registers nothing. *)
Definition shfs_alist_register (al : shfs_alist) (s l : Z) : Z * shfs_alist :=
  if l =? 0 then (0, al)
  else match range_insert (al_ranges al) s l with
       | Some rs => (0, set_ranges al rs)
       | None => (-1, al)
       end.

(** [shfs_alist_unregister(al, start, length)]. *)
Definition shfs_alist_unregister (al : shfs_alist) (s l : Z) : Z * shfs_alist :=
  if l =? 0 then (0, al)
  else match range_remove (al_ranges al) s l with
       | Some rs => (0, set_ranges al rs)
       | None => (-1, al)
       end.

(** The maximal free runs inside [lo, hi), lowest first. *)
Fixpoint free_gaps (lo hi : Z) (rs : list (Z * Z)) : list (Z * Z) :=
  match rs with
  | [] => if lo <? hi then [(lo, hi - lo)] else []
  | (s, l) :: rest =>
      (if lo <? Z.min s hi then [(lo, Z.min s hi - lo)] else [])
      ++ free_gaps (Z.max lo (s + l)) hi rest
  end.

Definition first_fit (len : Z) (gaps : list (Z * Z)) : Z :=
  match filter (fun g => len <= g.2) gaps with
  | g :: _ => g.1
  | [] => 0
  end.

(** The smallest fitting gap; the lowest one among equals. *)
Fixpoint best_fit_from (len : Z) (best : option (Z * Z)) (gaps : list (Z * Z))
  : option (Z * Z) :=
  match gaps with
  | [] => best
  | g :: rest =>
      if len <=? g.2 then
        match best with
        | Some b => if g.2 <? b.2 then best_fit_from len (Some g) rest
                    else best_fit_from len best rest
        | None => best_fit_from len (Some g) rest
        end
      else best_fit_from len best rest
  end.

Definition best_fit (len : Z) (gaps : list (Z * Z)) : Z :=
  match best_fit_from len None gaps with
  | Some g => g.1
  | None => 0
  end.

(** Modelled from the spec: find_free returns the start of the lowest
    (FIRST) or smallest (BEST) free gap of at least [length] chunks lying in
    [2, volsize+1); 0 for [length == 0] and when there is no such gap. *)
Definition shfs_alist_find_free (al : shfs_alist) (len : Z) : Z :=
  if len =? 0 then 0
  else
    let gaps := free_gaps 2 (al_volsize al + 1) (al_ranges al) in
    match al_policy al with
    | ALLOC_FIRST => first_fit len gaps
    | ALLOC_BEST => best_fit len gaps
    end.

(** The range [s, s+l) is registered: it lies inside an occupied range. *)
Definition range_registered (rs : list (Z * Z)) (s l : Z) : bool :=
  (l =? 0) || existsb (fun r => (r.1 <=? s) && (s + l <=? r.1 + r.2)) rs.

(** No chunk of [s, s+l) is occupied. *)
Definition range_free (rs : list (Z * Z)) (s l : Z) : Prop :=
  Forall (fun r => s + l <= r.1 \/ r.1 + r.2 <= s) rs.

(** Well-formed range list: sorted from [lo] on, non-empty ranges, no
    overlap. *)
Fixpoint ranges_wf (lo : Z) (rs : list (Z * Z)) : bool :=
  match rs with
  | [] => true
  | (s, l) :: rest => (lo <=? s) && (0 <? l) && ranges_wf (s + l) rest
  end.

Definition alist_wf (al : shfs_alist) : bool := ranges_wf 0 (al_ranges al).

(** ** Hash-table entries, bucket table *)

(** Modelled from the spec: the flag bits of shfs_defs.h and the cache
    state bit of shfs_admin.h, whose values are not part of these sources;
    each is one bit of its byte. *)
Definition SHFS_EFLAG_HIDDEN : Z := 0x01.
Definition SHFS_EFLAG_DEFAULT : Z := 0x80.
Definition CCS_MODIFIED : Z := 0x02.

(** Modelled from the spec: [struct shfs_hentry] of shfs_defs.h, which is
    not part of these sources, with the fields the spec lists; it is held
    decoded. *)
Record shfs_hentry := {
  he_hash : hash512_t;
  he_chunk : Z;
  he_offset : Z;
  he_len : Z;
  he_ts_creation : Z;
  he_flags : Z;
  he_mime : string;
  he_name : string;
  he_encoding : string
}.

Definition zero_hentry : shfs_hentry :=
  {| he_hash := []; he_chunk := 0; he_offset := 0; he_len := 0;
     he_ts_creation := 0; he_flags := 0;
     he_mime := EmptyString; he_name := EmptyString; he_encoding := EmptyString |}.

Definition SHFS_HENTRY_ISDEFAULT (e : shfs_hentry) : bool :=
  negb (Z.land (he_flags e) SHFS_EFLAG_DEFAULT =? 0).

(** Modelled from the spec: [struct shfs_bentry] of shfs_btable.h, which
    is not part of these sources: the digest and the place of the on-disk
    entry in the chunk cache (chunk of the table, entry within that
    chunk). *)
Record shfs_bentry := {
  be_hash : hash512_t;
  hentry_htchunk : nat;
  hentry_htoffset : nat
}.

(** Modelled from the spec: the bucket table of shfs_btable.h, which is not
    part of these sources: [nb_buckets * entries_per_bucket] bentries, slot
    [i] in bucket [i / entries_per_bucket]. *)
Record shfs_btable := {
  bt_nb_buckets : nat;
  bt_entries_per_bucket : nat;
  bt_hlen : nat;
  bt_slots : list shfs_bentry
}.

Definition set_slots (t : shfs_btable) (sl : list shfs_bentry) : shfs_btable :=
  {| bt_nb_buckets := bt_nb_buckets t;
     bt_entries_per_bucket := bt_entries_per_bucket t;
     bt_hlen := bt_hlen t; bt_slots := sl |}.

Definition set_be_hash (h : hash512_t) (be : shfs_bentry) : shfs_bentry :=
  {| be_hash := h; hentry_htchunk := hentry_htchunk be;
     hentry_htoffset := hentry_htoffset be |}.

Definition shfs_alloc_btable (nb epb hl : nat) : shfs_btable :=
  {| bt_nb_buckets := nb; bt_entries_per_bucket := epb; bt_hlen := hl;
     bt_slots := replicate (nb * epb)
                   {| be_hash := hash_clear hl; hentry_htchunk := 0;
                      hentry_htoffset := 0 |} |}.

(** ** Storage, files and the world outside the process *)

(** A chunk of the volume holds object bytes or, inside the hash-table
    regions, entries; the byte layout of an entry is not modelled. *)
Inductive chunk_data :=
  | ChkBytes (bs : list byte)
  | ChkHtable (es : list shfs_hentry).

(** [struct storage]: the striped members seen as one array of chunks,
    with the journal of the chunk numbers written so far, oldest first. *)
Record storage := {
  s_chunks : gmap Z chunk_data;
  s_written : list Z
}.

Definition chunk_bytes (cs : Z) (d : option chunk_data) : list byte :=
  match d with
  | Some (ChkBytes bs) => resize (Z.to_nat cs) x00 bs
  | _ => replicate (Z.to_nat cs) x00
  end.

Definition chunk_hentries (d : option chunk_data) : list shfs_hentry :=
  match d with
  | Some (ChkHtable es) => es
  | _ => []
  end.

Record file := { f_regular : bool; f_data : list byte }.

(** An open descriptor: the file and the read position. *)
Record fdesc := { fd_file : file; fd_pos : nat }.

(** Everything the process does not control.
    - [w_faults]: outcome of the coming fallible library calls, in call
      order ([true]: the call fails); calls past the end succeed.
    - [w_cancel_in]: how many more reads of the flag [cancel] still see 0
      before a signal has set it; [None] when no signal arrives. *)
Record world := {
  w_files : gmap string file;
  w_now : Z;
  w_faults : list bool;
  w_cancel_in : option nat;
  w_junk : byte;
  w_stdout : list byte;
  w_stderr : list string
}.

Definition set_faults (w : world) (fs : list bool) : world :=
  {| w_files := w_files w; w_now := w_now w; w_faults := fs;
     w_cancel_in := w_cancel_in w; w_junk := w_junk w;
     w_stdout := w_stdout w; w_stderr := w_stderr w |}.

Definition set_cancel_in (w : world) (c : option nat) : world :=
  {| w_files := w_files w; w_now := w_now w; w_faults := w_faults w;
     w_cancel_in := c; w_junk := w_junk w;
     w_stdout := w_stdout w; w_stderr := w_stderr w |}.

Definition put_stdout (bs : list byte) (w : world) : world :=
  {| w_files := w_files w; w_now := w_now w; w_faults := w_faults w;
     w_cancel_in := w_cancel_in w; w_junk := w_junk w;
     w_stdout := w_stdout w ++ bs; w_stderr := w_stderr w |}.

(** [eprintf]: the format string is kept, its arguments are not. *)
Definition eprintf (msg : string) (w : world) : world :=
  {| w_files := w_files w; w_now := w_now w; w_faults := w_faults w;
     w_cancel_in := w_cancel_in w; w_junk := w_junk w;
     w_stdout := w_stdout w; w_stderr := w_stderr w ++ [msg] |}.

(** A fallible library call: [true] when it succeeds. *)
Definition libcall (w : world) : bool * world :=
  match w_faults w with
  | [] => (true, w)
  | b :: fs => (negb b, set_faults w fs)
  end.

(** One read of the volatile flag [cancel]. *)
Definition read_cancel (w : world) : bool * world :=
  match w_cancel_in w with
  | None => (false, w)
  | Some O => (true, w)
  | Some (S n) => (false, set_cancel_in w (Some n))
  end.

(** [malloc(n)]: a buffer of unspecified content. *)
Definition malloc (w : world) (n : Z) : option (list byte) * world :=
  let '(ok, w) := libcall w in
  (if ok then Some (replicate (Z.to_nat n) (w_junk w)) else None, w).

Definition lseek0 (w : world) (fd : fdesc) : bool * world * fdesc :=
  let '(ok, w) := libcall w in
  (ok, w, if ok then {| fd_file := fd_file fd; fd_pos := 0 |} else fd).

(** [ret = read(fd, buf, n)] with [int ret]: the count read as the [int]
    holds it (-1 on error), the buffer and the descriptor afterwards. *)
Definition read (w : world) (fd : fdesc) (buf : list byte) (n : Z)
  : Z * world * fdesc * list byte :=
  let '(ok, w) := libcall w in
  if ok then
    let got := take (Z.to_nat n) (drop (fd_pos fd) (f_data (fd_file fd))) in
    (int32 (Z.of_nat (length got)), w,
     {| fd_file := fd_file fd; fd_pos := (fd_pos fd + length got)%nat |},
     got ++ drop (length got) buf)
  else (-1, w, fd, buf).

(** ** The mounted volume *)

(** Modelled from the spec: [struct vol_info] of shfs_admin.h (the type
    of the global [shfs_vol]), which is not part of these sources, with the
    fields that shfs_admin.c reads and writes.  A pointer to a bentry
    ([def_bentry]) is the number of its slot in the bucket table. *)
Record vol_info := {
  chunksize : Z;
  volsize : Z;
  hlen : nat;
  htable_ref : Z;
  htable_bak_ref : Z;
  htable_nb_buckets : nat;
  htable_nb_entries_per_bucket : nat;
  htable_nb_entries : nat;
  htable_nb_entries_per_chunk : nat;
  htable_len : nat;
  allocator : alloc_policy;
  vol_s : storage;
  vol_bt : shfs_btable;
  htable_chunk_cache : list (list shfs_hentry);
  htable_chunk_cache_state : list Z;
  def_bentry : option nat;
  vol_al : shfs_alist
}.

Definition set_s (v : vol_info) (x : storage) : vol_info :=
  {| chunksize := chunksize v; volsize := volsize v; hlen := hlen v;
     htable_ref := htable_ref v; htable_bak_ref := htable_bak_ref v;
     htable_nb_buckets := htable_nb_buckets v;
     htable_nb_entries_per_bucket := htable_nb_entries_per_bucket v;
     htable_nb_entries := htable_nb_entries v;
     htable_nb_entries_per_chunk := htable_nb_entries_per_chunk v;
     htable_len := htable_len v; allocator := allocator v;
     vol_s := x; vol_bt := vol_bt v;
     htable_chunk_cache := htable_chunk_cache v;
     htable_chunk_cache_state := htable_chunk_cache_state v;
     def_bentry := def_bentry v; vol_al := vol_al v |}.

Definition set_bt (v : vol_info) (x : shfs_btable) : vol_info :=
  {| chunksize := chunksize v; volsize := volsize v; hlen := hlen v;
     htable_ref := htable_ref v; htable_bak_ref := htable_bak_ref v;
     htable_nb_buckets := htable_nb_buckets v;
     htable_nb_entries_per_bucket := htable_nb_entries_per_bucket v;
     htable_nb_entries := htable_nb_entries v;
     htable_nb_entries_per_chunk := htable_nb_entries_per_chunk v;
     htable_len := htable_len v; allocator := allocator v;
     vol_s := vol_s v; vol_bt := x;
     htable_chunk_cache := htable_chunk_cache v;
     htable_chunk_cache_state := htable_chunk_cache_state v;
     def_bentry := def_bentry v; vol_al := vol_al v |}.

Definition set_cache (v : vol_info) (x : list (list shfs_hentry)) : vol_info :=
  {| chunksize := chunksize v; volsize := volsize v; hlen := hlen v;
     htable_ref := htable_ref v; htable_bak_ref := htable_bak_ref v;
     htable_nb_buckets := htable_nb_buckets v;
     htable_nb_entries_per_bucket := htable_nb_entries_per_bucket v;
     htable_nb_entries := htable_nb_entries v;
     htable_nb_entries_per_chunk := htable_nb_entries_per_chunk v;
     htable_len := htable_len v; allocator := allocator v;
     vol_s := vol_s v; vol_bt := vol_bt v;
     htable_chunk_cache := x;
     htable_chunk_cache_state := htable_chunk_cache_state v;
     def_bentry := def_bentry v; vol_al := vol_al v |}.

Definition set_cache_state (v : vol_info) (x : list Z) : vol_info :=
  {| chunksize := chunksize v; volsize := volsize v; hlen := hlen v;
     htable_ref := htable_ref v; htable_bak_ref := htable_bak_ref v;
     htable_nb_buckets := htable_nb_buckets v;
     htable_nb_entries_per_bucket := htable_nb_entries_per_bucket v;
     htable_nb_entries := htable_nb_entries v;
     htable_nb_entries_per_chunk := htable_nb_entries_per_chunk v;
     htable_len := htable_len v; allocator := allocator v;
     vol_s := vol_s v; vol_bt := vol_bt v;
     htable_chunk_cache := htable_chunk_cache v;
     htable_chunk_cache_state := x;
     def_bentry := def_bentry v; vol_al := vol_al v |}.

Definition set_def_bentry (v : vol_info) (x : option nat) : vol_info :=
  {| chunksize := chunksize v; volsize := volsize v; hlen := hlen v;
     htable_ref := htable_ref v; htable_bak_ref := htable_bak_ref v;
     htable_nb_buckets := htable_nb_buckets v;
     htable_nb_entries_per_bucket := htable_nb_entries_per_bucket v;
     htable_nb_entries := htable_nb_entries v;
     htable_nb_entries_per_chunk := htable_nb_entries_per_chunk v;
     htable_len := htable_len v; allocator := allocator v;
     vol_s := vol_s v; vol_bt := vol_bt v;
     htable_chunk_cache := htable_chunk_cache v;
     htable_chunk_cache_state := htable_chunk_cache_state v;
     def_bentry := x; vol_al := vol_al v |}.

Definition set_al (v : vol_info) (x : shfs_alist) : vol_info :=
  {| chunksize := chunksize v; volsize := volsize v; hlen := hlen v;
     htable_ref := htable_ref v; htable_bak_ref := htable_bak_ref v;
     htable_nb_buckets := htable_nb_buckets v;
     htable_nb_entries_per_bucket := htable_nb_entries_per_bucket v;
     htable_nb_entries := htable_nb_entries v;
     htable_nb_entries_per_chunk := htable_nb_entries_per_chunk v;
     htable_len := htable_len v; allocator := allocator v;
     vol_s := vol_s v; vol_bt := vol_bt v;
     htable_chunk_cache := htable_chunk_cache v;
     htable_chunk_cache_state := htable_chunk_cache_state v;
     def_bentry := def_bentry v; vol_al := x |}.

(** Modelled from the spec: sync_write_chunk of the chunk I/O layer, which
    is not part of these sources, for one chunk: it checks that the chunk
    lies on the volume and returns success or an I/O error. *)
Definition sync_write_chunk (w : world) (v : vol_info) (c : Z) (d : chunk_data)
  : Z * world * vol_info :=
  if volsize v + 1 <? c + 1 then (-1, w, v)
  else
    let '(ok, w) := libcall w in
    if ok then
      (0, w, set_s v {| s_chunks := <[c := d]> (s_chunks (vol_s v));
                        s_written := s_written (vol_s v) ++ [c] |})
    else (-1, w, v).

(** Modelled from the spec: sync_read_chunk, likewise. *)
Definition sync_read_chunk (w : world) (v : vol_info) (c : Z)
  : Z * world * option chunk_data :=
  if volsize v + 1 <? c + 1 then (-1, w, None)
  else
    let '(ok, w) := libcall w in
    if ok then (0, w, s_chunks (vol_s v) !! c) else (-1, w, None).

(** The on-disk entry a bentry refers to:
    [htable_chunk_cache[htchunk] + htoffset]. *)
Definition hentry_of (v : vol_info) (be : shfs_bentry) : shfs_hentry :=
  default zero_hentry
    (htable_chunk_cache v !! hentry_htchunk be ≫= (.!! hentry_htoffset be)).

Definition set_hentry (v : vol_info) (be : shfs_bentry) (e : shfs_hentry)
  : vol_info :=
  set_cache v
    (alter (fun buf => <[hentry_htoffset be := e]> buf) (hentry_htchunk be)
       (htable_chunk_cache v)).

(** [htable_chunk_cache_state[htchunk] |= CCS_MODIFIED]. *)
Definition mark_modified (v : vol_info) (htchunk : nat) : vol_info :=
  set_cache_state v
    (alter (fun st => Z.lor st CCS_MODIFIED) htchunk (htable_chunk_cache_state v)).

Definition bentry_of (v : vol_info) (i : nat) : shfs_bentry :=
  default {| be_hash := []; hentry_htchunk := 0; hentry_htoffset := 0 |}
    (bt_slots (vol_bt v) !! i).

(** ** Digest strings, tokens *)

Definition hex_digit (n : N) : ascii :=
  if (n <? 10)%N then ascii_of_N (48 + n) else ascii_of_N (87 + n).

(** [hash_unparse] (tools_common.h): two lower-case hex digits per byte
    for the first [hlen] bytes. *)
Fixpoint hash_unparse_bytes (h : list byte) : string :=
  match h with
  | [] => EmptyString
  | b :: t =>
      String (hex_digit (Byte.to_N b / 16))
        (String (hex_digit (Byte.to_N b mod 16)) (hash_unparse_bytes t))
  end.

Definition hash_unparse (h : hash512_t) (hl : nat) : string :=
  hash_unparse_bytes (take hl h).

Definition hex_val (c : ascii) : option N :=
  let n := N_of_ascii c in
  if ((48 <=? n) && (n <=? 57))%N then Some (n - 48)%N
  else if ((97 <=? n) && (n <=? 102))%N then Some (n - 87)%N
  else if ((65 <=? n) && (n <=? 70))%N then Some (n - 55)%N
  else None.

Fixpoint hex_bytes (str : string) : option (list byte) :=
  match str with
  | EmptyString => Some []
  | String a (String b rest) =>
      match hex_val a, hex_val b, hex_bytes rest with
      | Some hi, Some lo, Some t =>
          match Byte.of_N (16 * hi + lo) with
          | Some x => Some (x :: t)
          | None => None
          end
      | _, _, _ => None
      end
  | String _ EmptyString => None
  end.

(** Modelled from the spec: hash_parse, which is not part of these
    sources: a digest string is [2 * hlen] hex digits; a wrong length or a
    character that is no hex digit is rejected. *)
Definition hash_parse (str : string) (hl : nat) : option hash512_t :=
  match hex_bytes str with
  | Some bs => if (length bs =? hl)%nat then Some bs else None
  | None => None
  end.

(** Modelled from the spec: [enum action] and [struct token] of
    shfs_admin.h, which is not part of these sources; a token list is a
    [list token]. *)
Inductive action_t :=
  | NONE | ADDOBJ | RMOBJ | CATOBJ | SETDEFOBJ | CLEARDEFOBJ | LSOBJS | SHOWINFO.

Record token := {
  action : action_t;
  path : string;
  optstr0 : option string;
  optstr1 : option string
}.

Fixpoint has_slash (str : string) : bool :=
  match str with
  | EmptyString => false
  | String c rest => if Ascii.eqb c "/" then true else has_slash rest
  end.

(** [basename(path)] for a path that does not end in a slash. *)
Fixpoint basename (str : string) : string :=
  match str with
  | EmptyString => EmptyString
  | String c rest =>
      if has_slash rest then basename rest
      else if Ascii.eqb c "/" then rest else str
  end.

(** [strncpy] into a zeroed field of [n] bytes. *)
Fixpoint strncpy (n : nat) (str : string) : string :=
  match n, str with
  | S n', String c rest => String c (strncpy n' rest)
  | _, _ => EmptyString
  end.

Definition EXIT_SUCCESS : Z := 0.
Definition EXIT_FAILURE : Z := 1.

(** [failed++] on an [unsigned int]. *)
Definition u32 (z : Z) : Z := z mod 2 ^ 32.

(** The parts of the result of an action (status, world, volume), with a
    fallback for a call that gives no result. *)
Definition ret_of (r : option (Z * world * vol_info)) : Z :=
  match r with Some (ret, _, _) => ret | None => 0 end.

Definition world_of (w0 : world) (r : option (Z * world * vol_info)) : world :=
  match r with Some (_, w, _) => w | None => w0 end.

Definition vol_of (v0 : vol_info) (r : option (Z * world * vol_info)) : vol_info :=
  match r with Some (_, _, v) => v | None => v0 end.

(** ** A sample volume *)

(** Stand-ins for the open primitives, used where a statement is run on
    concrete data: the digest is the head of the data padded to 32 bytes,
    the bucket prefix is the first byte of the digest. *)
Definition sample_digest (data : list byte) : hash512_t := resize 32 xff data.

Definition sample_prefix (h : hash512_t) : nat :=
  match h with
  | b :: _ => N.to_nat (Byte.to_N b)
  | [] => 0%nat
  end.

Definition empty_hentry (hl : nat) : shfs_hentry :=
  {| he_hash := hash_clear hl; he_chunk := 0; he_offset := 0; he_len := 0;
     he_ts_creation := 0; he_flags := 0;
     he_mime := EmptyString; he_name := EmptyString; he_encoding := EmptyString |}.

(** A freshly made volume before mounting: chunks of 4096 bytes, 1024
    chunks, digests of 32 bytes, 64 buckets of 4 entries, 16 entries in a
    chunk, the hash table in chunks 2 to 17 and its backup in chunks 18 to
    33, both empty. *)
Definition sample_storage : storage :=
  {| s_chunks :=
       list_to_map
         (map (fun i => (Z.of_nat i, ChkHtable (replicate 16 (empty_hentry 32))))
              (seq 2 32));
     s_written := [] |}.

Definition sample_vol : vol_info :=
  {| chunksize := 4096; volsize := 1023; hlen := 32;
     htable_ref := 2; htable_bak_ref := 18;
     htable_nb_buckets := 64; htable_nb_entries_per_bucket := 4;
     htable_nb_entries := 256; htable_nb_entries_per_chunk := 16;
     htable_len := 16; allocator := ALLOC_FIRST;
     vol_s := sample_storage;
     vol_bt := {| bt_nb_buckets := 0; bt_entries_per_bucket := 0;
                  bt_hlen := 0; bt_slots := [] |};
     htable_chunk_cache := []; htable_chunk_cache_state := [];
     def_bentry := None;
     vol_al := shfs_alloc_alist 0 ALLOC_FIRST |}.

Definition hello_world : list byte :=
  [x68; x65; x6c; x6c; x6f; x20; x77; x6f; x72; x6c; x64].

(** A world with three regular files: hello.txt (11 bytes), block.bin
    (4096 bytes, one full chunk) and empty.bin (no bytes). *)
Definition sample_world : world :=
  {| w_files :=
       {[ "hello.txt"%string := {| f_regular := true; f_data := hello_world |};
          "block.bin"%string := {| f_regular := true; f_data := replicate 4096 x61 |};
          "empty.bin"%string := {| f_regular := true; f_data := [] |} ]};
     w_now := 1400000000; w_faults := []; w_cancel_in := None;
     w_junk := xaa; w_stdout := []; w_stderr := [] |}.

(** The sample world with a signal that arrives after [n] reads of the
    flag, and with the given failing library calls. *)
Definition sample_world_cancel (n : nat) : world :=
  set_cancel_in sample_world (Some n).

Definition sample_world_faults (fs : list bool) : world :=
  set_faults sample_world fs.

(** A world with three files of four bytes, x.txt, a.txt and b.txt, in
    which the eighth fallible library call fails: in an add that comes
    first, the write of the payload chunk. *)
Definition sample_world_stale : world :=
  {| w_files :=
       {[ "x.txt"%string := {| f_regular := true; f_data := [x58; x58; x58; x58] |};
          "a.txt"%string := {| f_regular := true; f_data := [x41; x41; x41; x41] |};
          "b.txt"%string := {| f_regular := true; f_data := [x42; x42; x42; x42] |} ]};
     w_now := 1400000000;
     w_faults := [false; false; false; false; false; false; false; true];
     w_cancel_in := None;
     w_junk := xaa; w_stdout := []; w_stderr := [] |}.

(** The digest strings of x.txt, of a.txt and of block.bin under
    [sample_digest]. *)
Definition x_digest : string :=
  "58585858ffffffffffffffffffffffffffffffffffffffffffffffffffffffff".

Definition a_digest : string :=
  "41414141ffffffffffffffffffffffffffffffffffffffffffffffffffffffff".

Definition block_digest : string :=
  "6161616161616161616161616161616161616161616161616161616161616161".

(** A world with five one- and two-byte files whose digests under
    [sample_digest] differ and fall into the same bucket of the sample
    volume (bucket 1 of 64, which has four entries). *)
Definition sample_world_bucket : world :=
  {| w_files :=
       {[ "b0"%string := {| f_regular := true; f_data := [x01] |};
          "b1"%string := {| f_regular := true; f_data := [x41] |};
          "b2"%string := {| f_regular := true; f_data := [x81] |};
          "b3"%string := {| f_regular := true; f_data := [xc1] |};
          "b4"%string := {| f_regular := true; f_data := [x01; x01] |} ]};
     w_now := 1400000000; w_faults := []; w_cancel_in := None;
     w_junk := xaa; w_stdout := []; w_stderr := [] |}.

Definition tok (a : action_t) (p : string) : token :=
  {| action := a; path := p; optstr0 := None; optstr1 := None |}.

(** The digest string of hello.txt under [sample_digest]. *)
Definition hello_digest : string :=
  "68656c6c6f20776f726c64ffffffffffffffffffffffffffffffffffffffffff".

(** ** The doubly linked list of dlist.h *)

(** A pointer to an element is the address of the element; NULL is
    [None]. *)
Definition dl_ptr := option nat.

(** [struct dlist_el]: the link fields of an element. *)
Record dlist_el := { dl_next : dl_ptr; dl_prev : dl_ptr }.

(** [struct dlist_head]. *)
Record dlist_head := { dl_first : dl_ptr; dl_last : dl_ptr }.

(** The memory holds the link fields [(el)->dlname] of the elements, by
    the address of the element: a [gmap nat dlist_el]. *)

(** How a macro ends: normally, in [BUG_ON] (likely.h, which is not part
    of these sources: the program stops), or in an access through a pointer
    to no element. *)
Inductive dl_res (A : Type) :=
  | DlOk (a : A)
  | DlBug
  | DlFault.
Arguments DlOk {A} a.
Arguments DlBug {A}.
Arguments DlFault {A}.

#[global] Instance dl_res_ret : MRet dl_res := @DlOk.
#[global] Instance dl_res_bind : MBind dl_res := fun A B f x =>
  match x with
  | DlOk a => f a
  | DlBug => DlBug
  | DlFault => DlFault
  end.

Definition dl_load (m : gmap nat dlist_el) (p : nat) : dl_res dlist_el :=
  match m !! p with
  | Some e => DlOk e
  | None => DlFault
  end.

(** [p->dlname.next = x] and [p->dlname.prev = x]. *)
Definition dl_store_next (m : gmap nat dlist_el) (p : nat) (x : dl_ptr) : dl_res (gmap nat dlist_el) :=
  e ← dl_load m p;
  DlOk (<[p := {| dl_next := x; dl_prev := dl_prev e |}]> m).

Definition dl_store_prev (m : gmap nat dlist_el) (p : nat) (x : dl_ptr) : dl_res (gmap nat dlist_el) :=
  e ← dl_load m p;
  DlOk (<[p := {| dl_next := dl_next e; dl_prev := x |}]> m).

Definition dlist_init_head : dlist_head := {| dl_first := None; dl_last := None |}.

Definition dlist_init_el (m : gmap nat dlist_el) (el : nat) : dl_res (gmap nat dlist_el) :=
  m ← dl_store_next m el None;
  dl_store_prev m el None.

Definition dlist_is_empty (h : dlist_head) : bool :=
  bool_decide (dl_first h = None).

Definition dlist_next_el (m : gmap nat dlist_el) (el : nat) : dl_res dl_ptr :=
  e ← dl_load m el; DlOk (dl_next e).

Definition dlist_prev_el (m : gmap nat dlist_el) (el : nat) : dl_res dl_ptr :=
  e ← dl_load m el; DlOk (dl_prev e).

Definition dlist_first_el (h : dlist_head) : dl_ptr := dl_first h.
Definition dlist_last_el (h : dlist_head) : dl_ptr := dl_last h.

Definition dlist_is_linked (m : gmap nat dlist_el) (h : dlist_head) (el : nat) : dl_res bool :=
  e ← dl_load m el;
  DlOk ((negb (bool_decide (dl_prev e = None))
         || negb (bool_decide (dl_next e = None)))
        || (bool_decide (dl_first h = Some el)
            || bool_decide (dl_last h = Some el))).

Definition dlist_unlink (m : gmap nat dlist_el) (h : dlist_head) (el : nat)
  : dl_res (gmap nat dlist_el * dlist_head) :=
  e ← dl_load m el;
  if bool_decide (dl_prev e = None) && negb (bool_decide (dl_first h = Some el))
  then DlBug
  else if bool_decide (dl_next e = None) && negb (bool_decide (dl_last h = Some el))
  then DlBug
  else
    '(m, h) ← match dl_prev e with
              | Some p => m ← dl_store_next m p (dl_next e); DlOk (m, h)
              | None => DlOk (m, {| dl_first := dl_next e; dl_last := dl_last h |})
              end;
    e ← dl_load m el;
    '(m, h) ← match dl_next e with
              | Some n => m ← dl_store_prev m n (dl_prev e); DlOk (m, h)
              | None => DlOk (m, {| dl_first := dl_first h; dl_last := dl_prev e |})
              end;
    m ← dlist_init_el m el;
    DlOk (m, h).

Definition dlist_append (m : gmap nat dlist_el) (h : dlist_head) (el : nat)
  : dl_res (gmap nat dlist_el * dlist_head) :=
  '(m, h) ← (if dlist_is_empty h then
               let h := {| dl_first := Some el; dl_last := dl_last h |} in
               m ← dl_store_prev m el None; DlOk (m, h)
             else
               match dl_last h with
               | Some l =>
                   m ← dl_store_next m l (Some el);
                   m ← dl_store_prev m el (dl_last h);
                   DlOk (m, h)
               | None => DlFault
               end);
  m ← dl_store_next m el None;
  DlOk (m, {| dl_first := dl_first h; dl_last := Some el |}).

Definition dlist_prepend (m : gmap nat dlist_el) (h : dlist_head) (el : nat)
  : dl_res (gmap nat dlist_el * dlist_head) :=
  '(m, h) ← (if dlist_is_empty h then
               let h := {| dl_first := dl_first h; dl_last := Some el |} in
               m ← dl_store_next m el None; DlOk (m, h)
             else
               match dl_first h with
               | Some f =>
                   m ← dl_store_prev m f (Some el);
                   m ← dl_store_next m el (dl_first h);
                   DlOk (m, h)
               | None => DlFault
               end);
  m ← dl_store_prev m el None;
  DlOk (m, {| dl_first := Some el; dl_last := dl_last h |}).

Definition dlist_relink_tail (m : gmap nat dlist_el) (h : dlist_head) (el : nat)
  : dl_res (gmap nat dlist_el * dlist_head) :=
  '(m, h) ← dlist_unlink m h el; dlist_append m h el.

Definition dlist_relink_head (m : gmap nat dlist_el) (h : dlist_head) (el : nat)
  : dl_res (gmap nat dlist_el * dlist_head) :=
  '(m, h) ← dlist_unlink m h el; dlist_prepend m h el.

(** The values that [el] takes in a [for] loop that starts at [p] and
    steps with [step], for a loop body that leaves the list alone; [None]
    when the loop has not come to its end after [fuel] rounds. *)
Fixpoint dl_walk (fuel : nat) (step : dlist_el -> dl_ptr) (m : gmap nat dlist_el) (p : dl_ptr)
  : option (dl_res (list nat)) :=
  match p with
  | None => Some (DlOk [])
  | Some a =>
      match fuel with
      | O => None
      | S fuel' =>
          match m !! a with
          | None => Some DlFault
          | Some e =>
              match dl_walk fuel' step m (step e) with
              | Some (DlOk l) => Some (DlOk (a :: l))
              | r => r
              end
          end
      end
  end.

Definition dlist_foreach (fuel : nat) (m : gmap nat dlist_el) (h : dlist_head)
  : option (dl_res (list nat)) :=
  dl_walk fuel dl_next m (dl_first h).

Definition dlist_foreach_reverse (fuel : nat) (m : gmap nat dlist_el) (h : dlist_head)
  : option (dl_res (list nat)) :=
  dl_walk fuel dl_prev m (dl_last h).

(** The elements [l], linked one to the next in memory, with [p] before
    the first and [q] behind the last. *)
Fixpoint dl_seg (m : gmap nat dlist_el) (p : dl_ptr) (l : list nat) (q : dl_ptr) : Prop :=
  match l with
  | [] => True
  | a :: t =>
      m !! a = Some {| dl_next := match t with [] => q | b :: _ => Some b end;
                       dl_prev := p |}
      /\ dl_seg m (Some a) t q
  end.

(** Head [h] and memory [m] hold the list [l]. *)
Definition dlist_rep (m : gmap nat dlist_el) (h : dlist_head) (l : list nat) : Prop :=
  NoDup l /\ dl_first h = head l /\ dl_last h = last l /\ dl_seg m None l None.

(** Three elements at the addresses 10, 20 and 30, linked in that order,
    and a fourth at address 40 that has been initialised and is in no
    list. *)
Definition sample_dl_mem : gmap nat dlist_el :=
  {[ 10%nat := {| dl_next := Some 20%nat; dl_prev := None |};
     20%nat := {| dl_next := Some 30%nat; dl_prev := Some 10%nat |};
     30%nat := {| dl_next := None; dl_prev := Some 20%nat |};
     40%nat := {| dl_next := None; dl_prev := None |} ]}.

Definition sample_dl_head : dlist_head :=
  {| dl_first := Some 10%nat; dl_last := Some 30%nat |}.

(** ** The member mapping of [load_vol_cconf] *)

(** Modelled from the spec: [uuid_t] with [uuid_compare] and [uuid_copy]
    of libuuid and [struct vol_member] of shfs_defs.h, which are not part of
    these sources: a member is an open disk and the member uuid of its
    label.  A [struct disk *] is the number of the open disk. *)
Definition uuid_t := list byte.

(** [uuid_compare(a, b) == 0]. *)
Definition uuid_equal (a b : uuid_t) : bool := bool_decide (a = b).

Record vol_member := { vm_d : nat; vm_uuid : uuid_t }.

(** The loop over [j]: has a member with this uuid been added? *)
Definition member_added (member : list vol_member) (u : uuid_t) : bool :=
  existsb (fun x => uuid_equal (vm_uuid x) u) member.

(** The loop over [m] for the label entry [u]; its [continue] goes on
    with the next detected device.  [None] is [dief]. *)
Fixpoint load_vol_cconf_scan (u : uuid_t) (detected_member member : list vol_member)
  : option (list vol_member) :=
  match detected_member with
  | [] => Some member
  | dm :: rest =>
      if uuid_equal u (vm_uuid dm) then
        if member_added member u then None
        else load_vol_cconf_scan u rest
               (member ++ [{| vm_d := vm_d dm; vm_uuid := vm_uuid dm |}])
      else load_vol_cconf_scan u rest member
  end.

(** The loop over [i]: [label] holds [hdr_common->member[i].uuid] for
    [i < hdr_common->member_count]. *)
Fixpoint load_vol_cconf_map (label : list uuid_t) (detected_member member : list vol_member)
  : option (list vol_member) :=
  match label with
  | [] => Some member
  | u :: rest =>
      match load_vol_cconf_scan u detected_member member with
      | None => None
      | Some member => load_vol_cconf_map rest detected_member member
      end
  end.

(** The members of the volume that [load_vol_cconf] sets up once the
    label of the first device is read, from the uuids of the label and the
    devices it has detected: the test of [nb_detected_members], the two
    loops and the two tests of [nb_members].  Every device that is passed is
    detected or the program has ended, so [count] is their number. *)
Definition load_vol_cconf_members (label : list uuid_t) (detected_member : list vol_member)
  : option (list vol_member) :=
  if (length detected_member =? 0)%nat then None
  else
    match load_vol_cconf_map label detected_member [] with
    | None => None
    | Some member =>
        if negb (length member =? length detected_member)%nat then None
        else if negb (length member =? length label)%nat then None
        else Some member
    end.

(** Two devices, passed in the other order than the label names them. *)
Definition sample_label : list uuid_t := [[x01; x02]; [x03; x04]].

Definition sample_detected : list vol_member :=
  [ {| vm_d := 0; vm_uuid := [x03; x04] |}; {| vm_d := 1; vm_uuid := [x01; x02] |} ].

Section Admin.

(** The parts of the program that come from outside these sources and
    are left open: the digest that mhash leaves in [fhash] for the bytes
    fed to it, the integer that the bucket table reads off the leading
    bits of a digest, and the widths of the [mime] and [name] fields of an
    entry. *)
Variable mhash_digest : list byte -> hash512_t.
Variable hash_prefix : hash512_t -> nat.
Variables sizeof_mime sizeof_name : nat.

(** ** Bucket table operations *)

(** Modelled from the spec: the bucket of a digest is the integer read off
    its leading bits, reduced modulo the number of buckets. *)
Definition bucket_of (t : shfs_btable) (h : hash512_t) : nat :=
  Nat.modulo (hash_prefix h) (bt_nb_buckets t).

Definition bucket_slots (t : shfs_btable) (h : hash512_t) : list nat :=
  seq (bucket_of t h * bt_entries_per_bucket t) (bt_entries_per_bucket t).

Definition slot_hash (t : shfs_btable) (i : nat) : hash512_t :=
  default [] (be_hash <$> bt_slots t !! i).

(** Modelled from the spec: feed installs the digest of on-disk slot [i];
    an empty digest leaves the slot empty. *)
Definition shfs_btable_feed (t : shfs_btable) (i : nat) (h : hash512_t)
  : shfs_btable * nat :=
  (set_slots t (alter (set_be_hash h) i (bt_slots t)), i).

(** Modelled from the spec: lookup searches the slots of the bucket in
    order for the full digest. *)
Definition shfs_btable_lookup (t : shfs_btable) (h : hash512_t) : option nat :=
  List.find (fun i => hash_equal (slot_hash t i) h) (bucket_slots t h).

(** Modelled from the spec: add_entry takes an empty slot of the bucket
    (the first one) and fails when the bucket is saturated. *)
Definition shfs_btable_addentry (t : shfs_btable) (h : hash512_t)
  : option (shfs_btable * nat) :=
  match List.find (fun i => hash_is_zero (slot_hash t i)) (bucket_slots t h) with
  | Some i => Some (set_slots t (alter (set_be_hash h) i (bt_slots t)), i)
  | None => None
  end.

(** Modelled from the spec: rm_entry clears the slot of the digest. *)
Definition shfs_btable_rmentry (t : shfs_btable) (h : hash512_t) : shfs_btable :=
  match shfs_btable_lookup t h with
  | Some i =>
      set_slots t (alter (set_be_hash (hash_clear (bt_hlen t))) i (bt_slots t))
  | None => t
  end.

(** Modelled from the spec: iteration yields the non-empty bentries,
    bucket by bucket and slot by slot. *)
Definition foreach_htable_el (t : shfs_btable) : list shfs_bentry :=
  List.filter (fun be => negb (hash_is_zero (be_hash be))) (bt_slots t).

Definition set_be_place (c o : nat) (be : shfs_bentry) : shfs_bentry :=
  {| be_hash := be_hash be; hentry_htchunk := c; hentry_htoffset := o |}.

(** ** Mount and unmount *)

(** Modelled from the spec: SHFS_HTABLE_CHUNK_NO and
    SHFS_HTABLE_ENTRY_OFFSET of shfs_defs.h: entry [i] is in chunk
    [i / entries_per_chunk] of the table, at place [i mod entries_per_chunk]
    (counted in entries). *)
Definition SHFS_HTABLE_CHUNK_NO (i epc : nat) : nat := Nat.div i epc.
Definition SHFS_HTABLE_ENTRY_OFFSET (i epc : nat) : nat := Nat.modulo i epc.

(** The loop of [load_vol_htable]; [None] is a fatal exit ([die]). *)
Fixpoint load_vol_htable_loop (idx : list nat) (w : world) (v : vol_info)
    (cur_chk : nat) (chk_buf : option (list shfs_hentry))
  : option (world * vol_info) :=
  match idx with
  | [] => Some (w, v)
  | i :: rest =>
      let cur_htchk := SHFS_HTABLE_CHUNK_NO i (htable_nb_entries_per_chunk v) in
      let loaded :=
        if negb (cur_chk =? cur_htchk)%nat || negb (bool_decide (is_Some chk_buf))
        then
          match malloc w (chunksize v) with
          | (None, _) => None
          | (Some _, w) =>
              let '(ret, w, d) :=
                sync_read_chunk w v (u64 (Z.of_nat cur_htchk + htable_ref v)) in
              if ret <? 0 then None
              else
                let buf := chunk_hentries d in
                Some (w,
                      set_cache_state
                        (set_cache v (<[cur_htchk := buf]> (htable_chunk_cache v)))
                        (<[cur_htchk := 0]> (htable_chunk_cache_state v)),
                      cur_htchk, buf)
          end
        else Some (w, v, cur_chk, default [] chk_buf) in
      match loaded with
      | None => None
      | Some (w, v, cur_chk, buf) =>
          let off := SHFS_HTABLE_ENTRY_OFFSET i (htable_nb_entries_per_chunk v) in
          let hentry := default zero_hentry (buf !! off) in
          let '(t, b) := shfs_btable_feed (vol_bt v) i (he_hash hentry) in
          let t := set_slots t (alter (set_be_place cur_chk off) b (bt_slots t)) in
          let v := set_bt v t in
          let v := if SHFS_HENTRY_ISDEFAULT hentry
                   then set_def_bentry v (Some b) else v in
          load_vol_htable_loop rest w v cur_chk (Some buf)
      end
  end.

Definition load_vol_htable (w : world) (v : vol_info) : option (world * vol_info) :=
  let '(ok, w) := libcall w in
  if negb ok then None
  else
    let v := set_bt v (shfs_alloc_btable (htable_nb_buckets v)
                         (htable_nb_entries_per_bucket v) (hlen v)) in
    let '(ok, w) := libcall w in
    if negb ok then None
    else
      let v := set_cache_state v
                 (replicate (htable_len v) (Z.of_N (Byte.to_N (w_junk w)))) in
      let v := set_cache v (replicate (htable_len v) []) in
      load_vol_htable_loop (seq 0 (htable_nb_entries v)) w v 0%nat None.

Definition container_size (v : vol_info) (e : shfs_hentry) : Z :=
  DIV_ROUND_UP (u64 (he_offset e + he_len e)) (chunksize v).

Definition load_vol_alist (w : world) (v : vol_info) : option (world * vol_info) :=
  let '(ok, w) := libcall w in
  if negb ok then None
  else
    let a := shfs_alloc_alist (volsize v) (allocator v) in
    let '(ret, a) := shfs_alist_register a 0 2 in
    if ret <? 0 then None
    else
      let '(ret, a) := shfs_alist_register a (htable_ref v) (Z.of_nat (htable_len v)) in
      if ret <? 0 then None
      else
        let '(ret, a) :=
          if htable_bak_ref v =? 0 then (0, a)
          else shfs_alist_register a (htable_bak_ref v) (Z.of_nat (htable_len v)) in
        if ret <? 0 then None
        else
          Some (w, set_al v
            (fold_left
               (fun a be =>
                  let e := hentry_of v be in
                  (shfs_alist_register a (he_chunk e) (container_size v e)).2)
               (foreach_htable_el (vol_bt v)) a)).

(** [mount_shfs] once [load_vol_cconf] and [load_vol_hconf] have filled in
    the geometry of the volume (their header layouts are not part of these
    sources); [None] is a fatal exit. *)
Definition mount_shfs (w : world) (v : vol_info) : option (world * vol_info) :=
  match load_vol_htable w v with
  | Some (w, v) => load_vol_alist w v
  | None => None
  end.

(** The loop of [umount_shfs]; [None] is the fatal exit on a failed
    write-back. *)
Fixpoint umount_shfs_loop (idx : list nat) (w : world) (v : vol_info)
  : option (world * vol_info) :=
  match idx with
  | [] => Some (w, v)
  | i :: rest =>
      let buf := ChkHtable (default [] (htable_chunk_cache v !! i)) in
      if negb (Z.land (default 0 (htable_chunk_cache_state v !! i)) CCS_MODIFIED =? 0)
      then
        let '(ret, w, v) :=
          sync_write_chunk w v (u64 (htable_ref v + Z.of_nat i)) buf in
        if ret <? 0 then None
        else if negb (htable_bak_ref v =? 0) then
          let '(ret, w, v) :=
            sync_write_chunk w v (u64 (htable_bak_ref v + Z.of_nat i)) buf in
          if ret <? 0 then None else umount_shfs_loop rest w v
        else umount_shfs_loop rest w v
      else umount_shfs_loop rest w v
  end.

Definition umount_shfs (w : world) (v : vol_info) : option (world * vol_info) :=
  umount_shfs_loop (seq 0 (htable_len v)) w v.

(** ** Object actions *)

Definition msg_open : string := "Could not open %s: %s".
Definition msg_stat : string := "Could not retrieve stats from %s: %s".
Definition msg_notreg : string := "%s is not a regular file".
Definition msg_nospace : string := "Could not find appropriate volume area to store %s".
Definition msg_fatal : string := "%s".
Definition msg_hashinit : string := "Could not initialize hash algorithm".
Definition msg_seek : string := "Could not seek on %s: %s".
Definition msg_read : string := "Could not read from %s: %s".
Definition msg_duplicate : string := "An entry with the same hash already exists".
Definition msg_bucketfull : string := "Target bucket of hash table is full".
Definition msg_volwrite : string := "Could not write to volume '%s': %s".
Definition msg_parse : string := "Could not parse hash value".
Definition msg_noentry : string := "No such entry found".
Definition msg_release : string := "Could not release container".
Definition msg_volread : string := "Could not read from volume '%s': %s".
Definition msg_stdout : string := "Could not write to stdout: %s".
Definition msg_error : string := "Error: %d".

(** The label [err_release_container] of [actn_addfile]. *)
Definition release_container (v : vol_info) (cchk csize : Z) : vol_info :=
  set_al v (shfs_alist_unregister (vol_al v) cchk csize).2.

(** The hashing loop of [actn_addfile], [n] rounds from round [c] on:
    the status of a failed round or the bytes fed to mhash. *)
Fixpoint addfile_hash_loop (n : nat) (c csize fsize : Z) (w : world)
    (v : vol_info) (fd : fdesc) (tmp td : list byte)
  : (Z + list byte) * world * fdesc * list byte :=
  match n with
  | O => (inr td, w, fd, tmp)
  | S n' =>
      let rlen := if c =? u64 (csize - 1) then fsize mod chunksize v
                  else chunksize v in
      let '(ret, w, fd, tmp) := read w fd tmp rlen in
      if ret <? 0 then (inl (-1), eprintf msg_read w, fd, tmp)
      else
        let '(cn, w) := read_cancel w in
        if cn then (inl (-2), w, fd, tmp)
        else addfile_hash_loop n' (c + 1) csize fsize w v fd tmp
               (td ++ take (Z.to_nat rlen) tmp)
  end.

(** The copy loop of [actn_addfile] ([while (left)], with [left_] for the
    variable [left]); [None] when the rounds allowed by [fuel] do not reach
    its end. *)
Fixpoint addfile_copy_loop (fuel : nat) (left_ c cchk : Z) (w : world)
    (v : vol_info) (fd : fdesc) (tmp : list byte)
  : option (Z * world * vol_info) :=
  match fuel with
  | O => None
  | S fuel' =>
      if left_ =? 0 then Some (0, w, v)
      else
        let '(rlen, left_, tmp) :=
          if chunksize v <? left_
          then (chunksize v, left_ - chunksize v, tmp)
          else (left_, 0, replicate (Z.to_nat (chunksize v)) x00) in
        let '(ret, w, fd, tmp) := read w fd tmp rlen in
        if ret <? 0 then Some (-1, eprintf msg_read w, v)
        else
          let '(ret, w, v) := sync_write_chunk w v (u64 (cchk + c)) (ChkBytes tmp) in
          if ret <? 0 then Some (-1, eprintf msg_volwrite w, v)
          else
            let '(cn, w) := read_cancel w in
            if cn then Some (-2, w, v)
            else addfile_copy_loop fuel' left_ (c + 1) cchk w v fd tmp
  end.

(** The entry written by [actn_addfile] for digest [h]. *)
Definition new_hentry (w : world) (j : token) (h : hash512_t) (cchk fsize : Z)
  : shfs_hentry :=
  {| he_hash := h; he_chunk := cchk; he_offset := 0; he_len := fsize;
     he_ts_creation := w_now w; he_flags := 0;
     he_mime := match optstr0 j with
                | Some m => strncpy sizeof_mime m
                | None => EmptyString
                end;
     he_name := match optstr1 j with
                | Some n => strncpy sizeof_name n
                | None => strncpy sizeof_name (basename (path j))
                end;
     he_encoding := EmptyString |}.

(** [actn_addfile]; [None] when the copy loop does not end. *)
Definition actn_addfile (w : world) (v : vol_info) (j : token)
  : option (Z * world * vol_info) :=
  match w_files w !! path j with
  | None => Some (-1, eprintf msg_open w, v)
  | Some f =>
    let fd := {| fd_file := f; fd_pos := 0 |} in
    let '(ok, w) := libcall w in
    if negb ok then Some (-1, eprintf msg_stat w, v)
    else if negb (f_regular f) then Some (-1, eprintf msg_notreg w, v)
    else
      let fsize := Z.of_nat (length (f_data f)) in
      let csize := DIV_ROUND_UP fsize (chunksize v) in
      let cchk := shfs_alist_find_free (vol_al v) csize in
      if (cchk =? 0) || (volsize v <=? cchk)
      then Some (-1, eprintf msg_nospace w, v)
      else
        let v := set_al v (shfs_alist_register (vol_al v) cchk csize).2 in
        match malloc w (chunksize v) with
        | (None, w) =>
            Some (-1, eprintf msg_fatal w, release_container v cchk csize)
        | (Some tmp, w) =>
          let '(ok, w) := libcall w in
          if negb ok
          then Some (-1, eprintf msg_hashinit w, release_container v cchk csize)
          else
            let '(ok, w, fd) := lseek0 w fd in
            if negb ok
            then Some (-1, eprintf msg_seek w, release_container v cchk csize)
            else
              match addfile_hash_loop (Z.to_nat csize) 0 csize fsize w v fd tmp []
              with
              | (inl ret, w, _, _) => Some (ret, w, release_container v cchk csize)
              | (inr td, w, fd, tmp) =>
                let fhash := take (hlen v) (mhash_digest td) in
                match shfs_btable_lookup (vol_bt v) fhash with
                | Some _ =>
                    Some (-1, eprintf msg_duplicate w,
                          release_container v cchk csize)
                | None =>
                  match shfs_btable_addentry (vol_bt v) fhash with
                  | None =>
                      Some (-1, eprintf msg_bucketfull w,
                            release_container v cchk csize)
                  | Some (t, b) =>
                    let v := set_bt v t in
                    let be := bentry_of v b in
                    let v := set_hentry v be (new_hentry w j fhash cchk fsize) in
                    let v := mark_modified v (hentry_htchunk be) in
                    let '(ok, w, fd) := lseek0 w fd in
                    if negb ok
                    then Some (-1, eprintf msg_seek w,
                               release_container v cchk csize)
                    else
                      match addfile_copy_loop (S (Z.to_nat fsize)) fsize 0 cchk
                              w v fd tmp with
                      | None => None
                      | Some (ret, w, v) =>
                          if ret <? 0
                          then Some (ret, w, release_container v cchk csize)
                          else Some (0, w, v)
                      end
                  end
                end
              end
        end
  end.

Definition set_he_hash (h : hash512_t) (e : shfs_hentry) : shfs_hentry :=
  {| he_hash := h; he_chunk := he_chunk e; he_offset := he_offset e;
     he_len := he_len e; he_ts_creation := he_ts_creation e;
     he_flags := he_flags e; he_mime := he_mime e; he_name := he_name e;
     he_encoding := he_encoding e |}.

Definition set_he_flags (f : Z) (e : shfs_hentry) : shfs_hentry :=
  {| he_hash := he_hash e; he_chunk := he_chunk e; he_offset := he_offset e;
     he_len := he_len e; he_ts_creation := he_ts_creation e;
     he_flags := f; he_mime := he_mime e; he_name := he_name e;
     he_encoding := he_encoding e |}.

(** [actn_rmfile]. *)
Definition actn_rmfile (w : world) (v : vol_info) (t : token)
  : Z * world * vol_info :=
  match hash_parse (path t) (hlen v) with
  | None => (-1, eprintf msg_parse w, v)
  | Some h =>
    match shfs_btable_lookup (vol_bt v) h with
    | None => (-1, eprintf msg_noentry w, v)
    | Some b =>
      let be := bentry_of v b in
      let hentry := hentry_of v be in
      let '(ret, a) :=
        shfs_alist_unregister (vol_al v) (he_chunk hentry)
          (DIV_ROUND_UP (u64 (he_len hentry + he_offset hentry)) (chunksize v)) in
      if ret <? 0 then (-1, eprintf msg_release w, v)
      else
        let v := set_al v a in
        let v := set_bt v (shfs_btable_rmentry (vol_bt v) h) in
        let v := set_hentry v be (set_he_hash (hash_clear (hlen v)) hentry) in
        let v := mark_modified v (hentry_htchunk be) in
        (ret, w, v)
    end
  end.

(** The loop of [actn_catfile] ([while (left)]). *)
Fixpoint catfile_loop (fuel : nat) (c off left_ : Z) (w : world) (v : vol_info)
  : option (Z * world) :=
  match fuel with
  | O => None
  | S fuel' =>
      if left_ =? 0 then Some (0, w)
      else
        let '(ret, w, d) := sync_read_chunk w v c in
        if ret <? 0 then Some (-1, eprintf msg_volread w)
        else
          let buf := chunk_bytes (chunksize v) d in
          let rlen := Z.min (u64 (chunksize v - off)) left_ in
          let '(ok, w) := libcall w in
          if negb ok then Some (-1, eprintf msg_stdout w)
          else
            let w := put_stdout (take (Z.to_nat rlen) (drop (Z.to_nat off) buf)) w in
            catfile_loop fuel' (u64 (c + 1)) 0 (left_ - rlen) w v
  end.

(** [actn_catfile]; [None] when the loop does not end. *)
Definition actn_catfile (w : world) (v : vol_info) (t : token)
  : option (Z * world * vol_info) :=
  match malloc w (chunksize v) with
  | (None, w) => Some (-1, eprintf msg_fatal w, v)
  | (Some _, w) =>
    match hash_parse (path t) (hlen v) with
    | None => Some (-1, eprintf msg_parse w, v)
    | Some h =>
      match shfs_btable_lookup (vol_bt v) h with
      | None => Some (-1, eprintf msg_noentry w, v)
      | Some b =>
        let hentry := hentry_of v (bentry_of v b) in
        match catfile_loop (S (S (Z.to_nat (he_len hentry))))
                (he_chunk hentry) (he_offset hentry) (he_len hentry) w v with
        | Some (ret, w) => Some (ret, w, v)
        | None => None
        end
      end
    end
  end.

(** [bentry_setflags]: [hentry->flags |= flags]. *)
Definition bentry_setflags (v : vol_info) (be : shfs_bentry) (fl : Z) : vol_info :=
  let hentry := hentry_of v be in
  mark_modified
    (set_hentry v be (set_he_flags (Z.lor (he_flags hentry) fl) hentry))
    (hentry_htchunk be).

(** [bentry_clearflags]: [hentry->flags &= ~flags]. *)
Definition bentry_clearflags (v : vol_info) (be : shfs_bentry) (fl : Z) : vol_info :=
  let hentry := hentry_of v be in
  mark_modified
    (set_hentry v be
       (set_he_flags (Z.land (he_flags hentry) (Z.lnot fl)) hentry))
    (hentry_htchunk be).

(** [actn_cleardefault]. *)
Definition actn_cleardefault (v : vol_info) : Z * vol_info :=
  match def_bentry v with
  | None => (0, v)
  | Some b =>
      (0, set_def_bentry
            (bentry_clearflags v (bentry_of v b) SHFS_EFLAG_DEFAULT) None)
  end.

(** [actn_setdefault]. *)
Definition actn_setdefault (w : world) (v : vol_info) (t : token)
  : Z * world * vol_info :=
  match hash_parse (path t) (hlen v) with
  | None => (-1, eprintf msg_parse w, v)
  | Some h =>
    match shfs_btable_lookup (vol_bt v) h with
    | None => (-1, eprintf msg_noentry w, v)
    | Some b =>
      let v := (actn_cleardefault v).2 in
      let v := bentry_setflags v (bentry_of v b) SHFS_EFLAG_DEFAULT in
      (0, w, set_def_bentry v (Some b))
    end
  end.

(** [actn_ls]: the table goes to standard output, its text is not
    modelled; the action cannot fail. *)
Definition actn_ls (w : world) (v : vol_info) : Z * world * vol_info := (0, w, v).

(** [actn_info]: the two tests of the unset pointer [hdr_config] read
    whatever it holds and are taken from the world like a failing call; the
    summary printed at the end is not modelled. *)
Definition actn_info (w : world) (v : vol_info) : Z * world * vol_info :=
  let '(_, w) := malloc w 4096 in
  let '(ok, w) := libcall w in
  if negb ok then (-1, eprintf msg_fatal w, v)
  else
    let '(_, w) := malloc w (chunksize v) in
    let '(ok, w) := libcall w in
    if negb ok then (-1, eprintf msg_fatal w, v)
    else
      let '(ok, w) := libcall w in
      if negb ok then (-1, eprintf msg_seek w, v)
      else
        let '(ok, w) := libcall w in
        if negb ok then (-1, eprintf msg_read w, v)
        else
          let '(ret, w, _) := sync_read_chunk w v 1 in
          if ret <? 0 then (-1, eprintf msg_fatal w, v) else (0, w, v).

(** ** The driver *)

(** The [switch] of [main]. *)
Definition run_token (w : world) (v : vol_info) (t : token)
  : option (Z * world * vol_info) :=
  match action t with
  | ADDOBJ => actn_addfile w v t
  | RMOBJ => Some (actn_rmfile w v t)
  | CATOBJ => actn_catfile w v t
  | SETDEFOBJ => Some (actn_setdefault w v t)
  | CLEARDEFOBJ => let '(ret, v) := actn_cleardefault v in Some (ret, w, v)
  | LSOBJS => Some (actn_ls w v)
  | SHOWINFO => Some (actn_info w v)
  | NONE => Some (0, w, v)
  end.

(** The token loop of [main]: the world, the volume and the counter
    [failed] when the loop is left, with the status of every action that
    ran, in order; a negative status is reported on standard error and
    counted; [None] when an action does not return. *)
Fixpoint run_tokens (tokens : list token) (w : world) (v : vol_info)
    (failed : Z) (rets : list Z)
  : option (world * vol_info * Z * list Z) :=
  match tokens with
  | [] => Some (w, v, failed, rets)
  | t :: rest =>
      let '(cn, w) := read_cancel w in
      if cn then Some (w, v, failed, rets)
      else
        match run_token w v t with
        | None => None
        | Some (ret, w, v) =>
            let w := if ret <? 0 then eprintf msg_error w else w in
            let failed := if ret <? 0 then u32 (failed + 1) else failed in
            run_tokens rest w v failed (rets ++ [ret])
        end
  end.

(** What [main] does from the mounted volume on: the exit status and the
    final world, with the statuses of the actions that ran. *)
Definition main_mounted (w : world) (v : vol_info) (tokens : list token)
  : option (Z * world * list Z) :=
  match run_tokens tokens w v 0 [] with
  | None => None
  | Some (w, v, failed, rets) =>
      match umount_shfs w v with
      | None => Some (EXIT_FAILURE, w, rets)
      | Some (w, v) =>
          let '(cn, w) := read_cancel w in
          if cn then Some (-2, w, rets)
          else if negb (failed =? 0)
               then Some (EXIT_FAILURE, eprintf "Some commands failed" w, rets)
               else Some (EXIT_SUCCESS, w, rets)
      end
  end.

(** [main] after argument parsing. *)
Definition main (w : world) (v : vol_info) (tokens : list token)
  : option (Z * world * list Z) :=
  let '(cn, w) := read_cancel w in
  if cn then Some (-2, w, [])
  else
    match mount_shfs w v with
    | None => Some (EXIT_FAILURE, w, [])
    | Some (w, v) => main_mounted w v tokens
    end.

(** What the flag [cancel] holds in world [w]. *)
Definition cancel_raised (w : world) : bool := (read_cancel w).1.


(** Chunk [i] of the hash table has its MODIFIED bit set. *)
Definition chunk_modified (v : vol_info) (i : nat) : bool :=
  negb (Z.land (default 0 (htable_chunk_cache_state v !! i)) CCS_MODIFIED =? 0).

(** The chunk numbers [umount_shfs] writes, in order: for each MODIFIED
    chunk of the table in turn, its place in the primary region and then,
    with a backup region, its place there. *)
Definition flush_chunk (v : vol_info) (i : nat) : list Z :=
  if chunk_modified v i
  then u64 (htable_ref v + Z.of_nat i)
       :: (if htable_bak_ref v =? 0 then []
           else [u64 (htable_bak_ref v + Z.of_nat i)])
  else [].

Definition flush_writes (v : vol_info) : list Z :=
  flat_map (flush_chunk v) (seq 0 (htable_len v)).

(** The order claimed for the write-back: in the journal, the write of any
    MODIFIED chunk [i] to the primary region comes before the write of any
    MODIFIED chunk [j] to the backup region. *)
Definition primary_before_backup (v : vol_info) (journal : list Z) : Prop :=
  forall i j p q : nat,
    chunk_modified v i = true -> chunk_modified v j = true ->
    journal !! p = Some (htable_ref v + Z.of_nat i) ->
    journal !! q = Some (htable_bak_ref v + Z.of_nat j) ->
    (p < q)%nat.

(** The payload range of entry [e] is registered in the allocator. *)
Definition entry_registered (v : vol_info) (e : shfs_hentry) : bool :=
  range_registered (al_ranges (vol_al v)) (he_chunk e) (container_size v e).

(** The invariant between hash table and allocator: every non-empty entry
    of the (cached) hash table has its payload range registered. *)
Definition containers_registered (v : vol_info) : bool :=
  forallb (fun e => hash_is_zero (he_hash e) || entry_registered v e)
    (concat (htable_chunk_cache v)).

(** The slots of the bucket table whose on-disk entry has the DEFAULT
    flag. *)
Definition default_slots (v : vol_info) : list nat :=
  List.filter (fun b => SHFS_HENTRY_ISDEFAULT (hentry_of v (bentry_of v b)))
    (seq 0 (length (bt_slots (vol_bt v)))).

(** The invariant of the default object: at most one entry has the flag,
    and [def_bentry] is that entry, or absent when there is none. *)
Definition default_consistent (v : vol_info) : bool :=
  match default_slots v with
  | [] => bool_decide (def_bentry v = None)
  | [b] => bool_decide (def_bentry v = Some b)
  | _ => false
  end.

(** The chunks from [addr] on hold [data], cut into chunks and the last
    one padded with zero bytes, all of them on the volume. *)
Definition holds_file (v : vol_info) (m : gmap Z chunk_data) (addr : Z)
    (data : list byte) : Prop :=
  forall k : nat,
    (k * Z.to_nat (chunksize v) < length data)%nat ->
    addr + Z.of_nat k <= volsize v /\
    m !! (addr + Z.of_nat k)
    = Some (ChkBytes (resize (Z.to_nat (chunksize v)) x00
                        (drop (k * Z.to_nat (chunksize v)) data))).

(** The place of a bentry lies in the chunk cache. *)
Definition place_valid (v : vol_info) (be : shfs_bentry) : bool :=
  match htable_chunk_cache v !! hentry_htchunk be with
  | Some buf => (hentry_htoffset be <? length buf)%nat
  | None => false
  end.

(** What mounting establishes and the actions rely on: the geometry is in
    range (a chunk can be read in one [read], whose count is an [int], and
    chunk numbers stay below 2^63), the range list of the allocator is well formed, the bucket
    table has all its slots, and every bentry refers to an entry of the
    chunk cache. *)
Definition vol_wf (v : vol_info) : bool :=
  (0 <? chunksize v) && (chunksize v <? 2 ^ 31)
  && (0 <=? volsize v) && (volsize v <? 2 ^ 63)
  && alist_wf (vol_al v)
  && (0 <? bt_nb_buckets (vol_bt v))%nat
  && (length (bt_slots (vol_bt v))
      =? bt_nb_buckets (vol_bt v) * bt_entries_per_bucket (vol_bt v))%nat
  && forallb (place_valid v) (bt_slots (vol_bt v)).

(** The object with digest [h] is intact on volume [v] and holds [data]:
    the digest is found, its entry starts at offset 0 with the length of
    [data], and the chunks of its container hold [data]. *)
Definition object_intact (v : vol_info) (h : hash512_t) (data : list byte) : Prop :=
  exists b,
    shfs_btable_lookup (vol_bt v) h = Some b /\
    he_offset (hentry_of v (bentry_of v b)) = 0 /\
    he_len (hentry_of v (bentry_of v b)) = Z.of_nat (length data) /\
    0 <= he_chunk (hentry_of v (bentry_of v b)) /\
    holds_file v (s_chunks (vol_s v)) (he_chunk (hentry_of v (bentry_of v b))) data.

(** ** Argument parsing *)

Definition D_L0 : Z := 1.
Definition D_L1 : Z := 2.
Definition D_MAX : Z := D_L1.

(** The errno value behind [-EINVAL], as on Linux. *)
Definition EINVAL : Z := 22.
Definition ENOMEM : Z := 12.

(** Modelled from the spec: [struct args] of shfs_admin.h, which is not
    part of these sources, with the three fields that [parse_args] fills:
    the device paths ([&argv[optind]], the arguments from index [optind]
    on), their number and the token list. *)
Record args := {
  devpath : list string;
  nb_devs : Z;
  tokens : list token
}.

(** What [parse_args] works on: the world, the globals [verbosity] and
    [force] and the token list built so far.  The local [ctoken] points to
    the last token of the list and is NULL while the list is empty. *)
Record parse_state := {
  ps_w : world;
  ps_verbosity : Z;
  ps_force : Z;
  ps_tokens : list token
}.

Definition set_ps_w (st : parse_state) (w : world) : parse_state :=
  {| ps_w := w; ps_verbosity := ps_verbosity st; ps_force := ps_force st;
     ps_tokens := ps_tokens st |}.

Definition set_ps_tokens (st : parse_state) (tl : list token) : parse_state :=
  {| ps_w := ps_w st; ps_verbosity := ps_verbosity st; ps_force := ps_force st;
     ps_tokens := tl |}.

(** How [parse_args] ends: the process exits inside it, or it returns. *)
Inductive parse_result :=
  | ParseExit (status : Z) (w : world)
  | ParseReturn (ret : Z) (w : world) (verbosity force : Z) (a : args).

(** A token as [calloc] leaves it. *)
Definition zero_token : token :=
  {| action := NONE; path := EmptyString; optstr0 := None; optstr1 := None |}.

Definition set_action (a : action_t) (t : token) : token :=
  {| action := a; path := path t; optstr0 := optstr0 t; optstr1 := optstr1 t |}.

Definition set_path (p : string) (t : token) : token :=
  {| action := action t; path := p; optstr0 := optstr0 t; optstr1 := optstr1 t |}.

Definition set_optstr0 (s : option string) (t : token) : token :=
  {| action := action t; path := path t; optstr0 := s; optstr1 := optstr1 t |}.

Definition set_optstr1 (s : option string) (t : token) : token :=
  {| action := action t; path := path t; optstr0 := optstr0 t; optstr1 := s |}.

(** An assignment through [ctoken]. *)
Definition on_ctoken (f : token -> token) (st : parse_state) : parse_state :=
  set_ps_tokens st (alter f (pred (length (ps_tokens st))) (ps_tokens st)).

(** [die()]: the message of [fatal()] and [exit(EXIT_FAILURE)]. *)
Definition parse_die (st : parse_state) : parse_result :=
  ParseExit EXIT_FAILURE (eprintf msg_fatal (ps_w st)).

(** A [return] before the devices have been looked at: [*args] was
    passed in cleared, only the token list has been filled. *)
Definition parse_return (st : parse_state) (ret : Z) : parse_result :=
  ParseReturn ret (ps_w st) (ps_verbosity st) (ps_force st)
    {| devpath := []; nb_devs := 0; tokens := ps_tokens st |}.

(** [args_add_token]: a cleared token appended to the list. *)
Definition args_add_token (st : parse_state) : parse_result + parse_state :=
  let '(ok, w) := libcall (ps_w st) in
  if ok then inr (set_ps_tokens (set_ps_w st w) (ps_tokens st ++ [zero_token]))
  else inl (parse_die (set_ps_w st w)).

(** [parse_args_setval_str] (tools_common.h): the status and the copy of
    [buf] that [*out] holds afterwards. *)
Definition parse_args_setval_str (w : world) (buf : string)
  : Z * world * option string :=
  let '(ok, w) := libcall w in
  if ok then (0, w, Some buf) else (- ENOMEM, w, None).

(** The cases of [parse_args] that add a token, with and without an
    argument. *)
Definition add_token_arg (a : action_t) (optarg : string) (st : parse_state)
  : parse_result + parse_state :=
  match args_add_token st with
  | inl r => inl r
  | inr st =>
      let st := on_ctoken (set_action a) st in
      let '(ret, w, s) := parse_args_setval_str (ps_w st) optarg in
      let st := on_ctoken (set_path (default EmptyString s)) (set_ps_w st w) in
      if ret <? 0 then inl (parse_die st) else inr st
  end.

Definition add_token_noarg (a : action_t) (st : parse_state)
  : parse_result + parse_state :=
  match args_add_token st with
  | inl r => inl r
  | inr st => inr (on_ctoken (set_action a) st)
  end.

Definition is_addobj (a : action_t) : bool :=
  match a with ADDOBJ => true | _ => false end.

(** [!ctoken || ctoken->action != ADDOBJ]. *)
Definition ctoken_not_addobj (st : parse_state) : bool :=
  match last (ps_tokens st) with
  | Some t => negb (is_addobj (action t))
  | None => true
  end.

Definition msg_mime_place : string := "Please set mime after an add-obj token".
Definition msg_name_place : string := "Please set name after an add-obj token".
Definition msg_nodev : string := "Path to volume member device(s) not specified".

(** The cases -m and -n. *)
Definition set_token_opt (msg : string)
    (setter : option string -> token -> token) (optarg : string)
    (st : parse_state) : parse_result + parse_state :=
  if ctoken_not_addobj st
  then inl (parse_return (set_ps_w st (eprintf msg (ps_w st))) (- EINVAL))
  else
    let '(ret, w, s) := parse_args_setval_str (ps_w st) optarg in
    let st := on_ctoken (setter s) (set_ps_w st w) in
    if ret <? 0 then inl (parse_die st) else inr st.

(** The [switch] of [parse_args] on what [getopt_long] returned; the text
    of the usage and of the version goes to standard output and is not
    modelled. *)
Definition parse_opt (opt : ascii) (optarg : string) (st : parse_state)
  : parse_result + parse_state :=
  match opt with
  | "h"%char | "?"%char => inl (ParseExit EXIT_SUCCESS (ps_w st))
  | "V"%char => inl (ParseExit EXIT_SUCCESS (ps_w st))
  | "v"%char =>
      inr (if ps_verbosity st <? D_MAX
           then {| ps_w := ps_w st; ps_verbosity := u32 (ps_verbosity st + 1);
                   ps_force := ps_force st; ps_tokens := ps_tokens st |}
           else st)
  | "f"%char =>
      inr {| ps_w := ps_w st; ps_verbosity := ps_verbosity st;
             ps_force := 1; ps_tokens := ps_tokens st |}
  | "a"%char => add_token_arg ADDOBJ optarg st
  | "m"%char => set_token_opt msg_mime_place set_optstr0 optarg st
  | "n"%char => set_token_opt msg_name_place set_optstr1 optarg st
  | "r"%char => add_token_arg RMOBJ optarg st
  | "c"%char => add_token_arg CATOBJ optarg st
  | "d"%char => add_token_arg SETDEFOBJ optarg st
  | "C"%char => add_token_noarg CLEARDEFOBJ st
  | "l"%char => add_token_noarg LSOBJS st
  | "i"%char => add_token_noarg SHOWINFO st
  | _ => inl (parse_return st (- EINVAL))
  end.

(** The [while (1)] loop of [parse_args]: [opts] lists what the successive
    calls of [getopt_long] return (the option character and [optarg]) until
    it returns -1. *)
Fixpoint parse_opts (opts : list (ascii * string)) (st : parse_state)
  : parse_result + parse_state :=
  match opts with
  | [] => inr st
  | (opt, optarg) :: rest =>
      match parse_opt opt optarg st with
      | inl r => inl r
      | inr st => parse_opts rest st
      end
  end.

(** [parse_args], with [optind] the index that [getopt_long] leaves when
    it has returned -1. *)
Definition parse_args (argc : Z) (argv : list string)
    (opts : list (ascii * string)) (optind : Z)
    (w : world) (verbosity force : Z) : parse_result :=
  let st := {| ps_w := w; ps_verbosity := verbosity; ps_force := force;
               ps_tokens := [] |} in
  match parse_opts opts st with
  | inl r => r
  | inr st =>
      if argc <=? optind
      then parse_return (set_ps_w st (eprintf msg_nodev (ps_w st))) (- EINVAL)
      else ParseReturn 0 (ps_w st) (ps_verbosity st) (ps_force st)
             {| devpath := drop (Z.to_nat optind) argv;
                nb_devs := argc - optind;
                tokens := ps_tokens st |}
  end.

(** [release_args]: the token list is freed and [*args] cleared. *)
Definition release_args (a : args) : args :=
  {| devpath := []; nb_devs := 0; tokens := [] |}.

(** The token that an option of the command line stands for: its action
    and, for the options that take one, its argument. *)
Definition opt_token (o : ascii * string) : option (action_t * string) :=
  match o.1 with
  | "a"%char => Some (ADDOBJ, o.2)
  | "r"%char => Some (RMOBJ, o.2)
  | "c"%char => Some (CATOBJ, o.2)
  | "d"%char => Some (SETDEFOBJ, o.2)
  | "C"%char => Some (CLEARDEFOBJ, EmptyString)
  | "l"%char => Some (LSOBJS, EmptyString)
  | "i"%char => Some (SHOWINFO, EmptyString)
  | _ => None
  end.

(** The number of -v among the options. *)
Definition count_v (opts : list (ascii * string)) : Z :=
  Z.of_nat (length (List.filter (fun o => Ascii.eqb o.1 "v"%char) opts)).

(** The argument of the last option [c] among the options. *)
Definition last_optarg (c : ascii) (opts : list (ascii * string)) : option string :=
  last (omap (fun o => if Ascii.eqb o.1 c then Some o.2 else None) opts).

(** The state of the loop after the options [pre]: the tokens are those
    the options stand for, -m and -n have only been met behind an add-obj
    token, only add-obj tokens carry a MIME type or a name, and the
    verbosity has been counted up to [D_MAX]. *)
Definition parse_inv (vb0 : Z) (pre : list (ascii * string)) (st : parse_state)
  : Prop :=
  map (fun t => (action t, path t)) (ps_tokens st) = omap opt_token pre /\
  (forall p c x q, pre = p ++ (c, x) :: q -> c = "m"%char \/ c = "n"%char ->
     fst <$> last (omap opt_token p) = Some ADDOBJ) /\
  Forall (fun t => action t <> ADDOBJ -> optstr0 t = None /\ optstr1 t = None)
    (ps_tokens st) /\
  ps_verbosity st = Z.min D_MAX (vb0 + count_v pre).


(** The example of the usage text, [--add-obj song.mp3 -m audio/mpeg3
    /dev/ram15]: what [getopt_long] returns for it, and the result. *)
Definition sample_argv : list string :=
  ["shfs_admin"; "--add-obj"; "song.mp3"; "-m"; "audio/mpeg3"; "/dev/ram15"]%string.

(** The same with three -v in front. *)
Definition sample_argv_v : list string :=
  ["shfs_admin"; "-v"; "-v"; "-v"; "--add-obj"; "song.mp3"; "-m"; "audio/mpeg3";
   "/dev/ram15"]%string.

Definition sample_opts : list (ascii * string) :=
  [("a"%char, "song.mp3"%string); ("m"%char, "audio/mpeg3"%string)].

Definition sample_args : args :=
  {| devpath := ["/dev/ram15"%string]; nb_devs := 1;
     tokens := [{| action := ADDOBJ; path := "song.mp3";
                   optstr0 := Some "audio/mpeg3"%string; optstr1 := None |}] |}.


(** No two slots of the bucket table refer to the same place of the
    chunk cache. *)
Definition places_distinct (v : vol_info) : bool :=
  bool_decide (NoDup (map (fun be => (hentry_htchunk be, hentry_htoffset be))
                        (bt_slots (vol_bt v)))).

(** A token whose action only reads the volume. *)
Definition read_only (t : token) : bool :=
  match action t with
  | CATOBJ | LSOBJS | SHOWINFO | NONE => true
  | _ => false
  end.

(** The table update of [actn_addfile] on volume [v]: entry [e] written at
    the place of slot [b] of the new bucket table [t], its chunk marked
    MODIFIED. *)
Definition commit_entry (v : vol_info) (t : shfs_btable) (b : nat)
    (e : shfs_hentry) : vol_info :=
  let v := set_bt v t in
  let be := bentry_of v b in
  mark_modified (set_hentry v be e) (hentry_htchunk be).

(** The sample volume once mounted. *)
Definition mounted_vol : vol_info :=
  match mount_shfs sample_world sample_vol with
  | Some (_, v) => v
  | None => sample_vol
  end.

(* ------------------------------------------------------------------ *)
(** * Properties *)

(** ** The allocator *)

Ltac zbool :=
  repeat match goal with
  | H : (_ && _) = true |- _ => apply andb_true_iff in H as [? ?]
  | H : (_ <=? _) = true |- _ => apply Z.leb_le in H
  | H : (_ <? _) = true |- _ => apply Z.ltb_lt in H
  | H : (_ =? _) = true |- _ => apply Z.eqb_eq in H
  | H : (_ <=? _) = false |- _ => apply Z.leb_gt in H
  | H : (_ <? _) = false |- _ => apply Z.ltb_ge in H
  | H : (_ =? _) = false |- _ => apply Z.eqb_neq in H
  end.

Ltac zcase :=
  match goal with
  | |- context [?a <? ?b] => destruct (Z.ltb_spec a b)
  | |- context [?a <=? ?b] => destruct (Z.leb_spec a b)
  | |- context [?a =? ?b] => destruct (Z.eqb_spec a b)
  end.

Lemma ranges_wf_cons lo s l rest :
  ranges_wf lo ((s, l) :: rest) = true ->
  lo <= s /\ 0 < l /\ ranges_wf (s + l) rest = true.
Proof. simpl. intros H. zbool. auto. Qed.

Lemma ranges_wf_lower lo rs :
  ranges_wf lo rs = true -> Forall (fun r => lo <= r.1 /\ 0 < r.2) rs.
Proof.
  revert lo. induction rs as [|[s l] rest IH]; intros lo H; [constructor|].
  apply ranges_wf_cons in H as (H1 & H2 & H3).
  constructor; [simpl; lia|].
  apply IH in H3. eapply Forall_impl; [exact H3|].
  intros [a b]; simpl. lia.
Qed.

(** Registering a free range succeeds, and unregistering it again gives
    back the very same range list. *)
Lemma range_insert_remove rs : forall lo s l,
  ranges_wf lo rs = true -> 0 < l -> range_free rs s l ->
  exists rs', range_insert rs s l = Some rs' /\ range_remove rs' s l = Some rs.
Proof.
  induction rs as [|[s0 l0] rest IH]; intros lo s l Hwf Hl Hfree.
  - exists [(s, l)]. split; [done|]. simpl.
    repeat (zcase; simpl; try lia). done.
  - apply ranges_wf_cons in Hwf as (Hlo & Hl0 & Hrest).
    inversion Hfree as [|r rr Hhd Htl]; subst. simpl in Hhd.
    cbn [range_insert].
    destruct (Z.ltb_spec (s + l) s0) as [Hlt|Hge].
    { eexists; split; [done|]. cbn [range_remove].
      repeat (zcase; simpl; try lia). done. }
    destruct (Z.eqb_spec (s + l) s0) as [Heq|Hne].
    { eexists; split; [done|]. cbn [range_remove].
      repeat (zcase; simpl; try lia).
      do 3 f_equal; lia. }
    destruct (Z.ltb_spec (s0 + l0) s) as [Hlt2|Hge2].
    { destruct (IH (s0 + l0) s l Hrest Hl Htl) as (rs' & Hi & Hr).
      rewrite Hi. eexists; split; [done|]. cbn [range_remove fmap option_fmap option_map].
      destruct (Z.leb_spec (s0 + l0) s); [|lia]. by rewrite Hr. }
    destruct (Z.eqb_spec (s0 + l0) s) as [Heq2|Hne2]; [|lia].
    destruct rest as [|[s1 l1] rest'].
    { eexists; split; [done|]. cbn [range_remove].
      repeat (zcase; simpl; try lia). do 3 f_equal; lia. }
    apply ranges_wf_cons in Hrest as (Hs1 & Hl1 & Hrest').
    inversion Htl as [|r rr Hhd1 Htl1]; subst. simpl in Hhd1.
    destruct (Z.ltb_spec (s0 + l0 + l) s1) as [Hlt3|Hge3].
    { eexists; split; [done|]. cbn [range_remove].
      repeat (zcase; simpl; try lia). do 3 f_equal; lia. }
    destruct (Z.eqb_spec (s0 + l0 + l) s1) as [Heq3|Hne3]; [|lia].
    eexists; split; [done|]. cbn [range_remove].
    repeat (zcase; simpl; try lia). do 2 f_equal; [f_equal; lia|].
    do 2 f_equal; lia.
Qed.

(** Every free run listed by [free_gaps] lies in the window, is not empty
    and meets none of the ranges. *)
Lemma free_gaps_free rs : forall lo lo0 hi g,
  ranges_wf lo0 rs = true -> In g (free_gaps lo hi rs) ->
  lo <= g.1 /\ g.1 + g.2 <= hi /\ 0 < g.2 /\
  Forall (fun r => g.1 + g.2 <= r.1 \/ r.1 + r.2 <= g.1) rs.
Proof.
  induction rs as [|[s l] rest IH]; intros lo lo0 hi g Hwf Hin.
  - simpl in Hin. destruct (Z.ltb_spec lo hi); [|done].
    destruct Hin as [<-|[]]. simpl. repeat split; try lia. constructor.
  - apply ranges_wf_cons in Hwf as (Hlo & Hl & Hrest).
    simpl in Hin. apply in_app_or in Hin as [Hin|Hin].
    + destruct (Z.ltb_spec lo (Z.min s hi)); [|done].
      destruct Hin as [<-|[]]. simpl. repeat split; try lia.
      constructor; [simpl; lia|].
      apply ranges_wf_lower in Hrest.
      eapply Forall_impl; [exact Hrest|]. intros [a b]; simpl. lia.
    + destruct (IH _ _ _ _ Hrest Hin) as (H1 & H2 & H3 & H4).
      repeat split; try lia. constructor; [simpl; lia|done].
Qed.

Lemma first_fit_in len gaps c :
  first_fit len gaps = c -> c <> 0 ->
  exists g, In g gaps /\ g.1 = c /\ len <= g.2.
Proof.
  unfold first_fit. intros H Hc.
  destruct (filter (fun g => len <= g.2) gaps) as [|g t] eqn:E; [lia|].
  assert (Hg : g ∈ filter (fun g => len <= g.2) gaps) by (rewrite E; left).
  apply list_elem_of_filter in Hg as [Hfit Hg].
  exists g. split; [by apply list_elem_of_In|]. done.
Qed.

Lemma best_fit_from_in len gaps : forall best g,
  best_fit_from len best gaps = Some g ->
  best = Some g \/ (In g gaps /\ len <= g.2).
Proof.
  induction gaps as [|a rest IH]; intros best g H; simpl in H; [by left|].
  destruct (Z.leb_spec len a.2) as [Hfit|Hno].
  - destruct best as [b|].
    + destruct (Z.ltb_spec a.2 b.2).
      * apply IH in H as [H|[H1 H2]].
        -- inversion H; subst. right. split; [by left|done].
        -- right. split; [by right|done].
      * apply IH in H as [H|[H1 H2]]; [by left|].
        right. split; [by right|done].
    + apply IH in H as [H|[H1 H2]].
      * inversion H; subst. right. split; [by left|done].
      * right. split; [by right|done].
  - apply IH in H as [H|[H1 H2]]; [by left|].
    right. split; [by right|done].
Qed.

Lemma best_fit_in len gaps c :
  best_fit len gaps = c -> c <> 0 ->
  exists g, In g gaps /\ g.1 = c /\ len <= g.2.
Proof.
  unfold best_fit. intros H Hc.
  destruct (best_fit_from len None gaps) as [g|] eqn:E; [|lia].
  apply best_fit_from_in in E as [E|[E1 E2]]; [done|].
  exists g. done.
Qed.

(** What [shfs_alist_find_free] returns, when not 0, is the start of a
    free range of the asked length inside [2, volsize+1). *)
Lemma find_free_free al len c :
  alist_wf al = true -> 0 < len ->
  shfs_alist_find_free al len = c -> c <> 0 ->
  2 <= c /\ c + len <= al_volsize al + 1 /\ range_free (al_ranges al) c len.
Proof.
  intros Hwf Hlen H Hc. unfold shfs_alist_find_free in H.
  destruct (Z.eqb_spec len 0); [lia|].
  assert (exists g, In g (free_gaps 2 (al_volsize al + 1) (al_ranges al))
                    /\ g.1 = c /\ len <= g.2) as (g & Hin & Hg & Hfit).
  { destruct (al_policy al); [by apply first_fit_in|by apply best_fit_in]. }
  destruct (free_gaps_free _ _ _ _ _ Hwf Hin) as (H1 & H2 & H3 & H4).
  repeat split; try lia.
  eapply Forall_impl; [exact H4|]. intros [a b]; simpl. lia.
Qed.

Lemma set_ranges_back al rs :
  set_ranges (set_ranges al rs) (al_ranges al) = al.
Proof. by destruct al. Qed.

(** Reserving the range found by [shfs_alist_find_free] and releasing it
    again leaves the allocator as it was. *)
Lemma reserve_release al len :
  alist_wf al = true -> 0 <= len ->
  let c := shfs_alist_find_free al len in
  c <> 0 ->
  (shfs_alist_unregister (shfs_alist_register al c len).2 c len).2 = al.
Proof.
  intros Hwf Hlen c Hc.
  assert (Hpos : 0 < len).
  { destruct (Z.eq_dec len 0) as [->|]; [|lia]. by unfold c in Hc. }
  destruct (find_free_free al len c Hwf Hpos eq_refl Hc) as (_ & _ & Hfree).
  destruct (range_insert_remove _ _ _ _ Hwf Hpos Hfree) as (rs' & Hi & Hr).
  unfold shfs_alist_register, shfs_alist_unregister.
  destruct (Z.eqb_spec len 0); [lia|].
  rewrite Hi. simpl. rewrite Hr. simpl. apply set_ranges_back.
Qed.

(** ** Bookkeeping lemmas on the world and the volume *)

Lemma libcall_stderr w ok w' : libcall w = (ok, w') -> w_stderr w' = w_stderr w.
Proof.
  unfold libcall. destruct (w_faults w); intros H; by inversion H.
Qed.

Lemma read_cancel_stderr w cn w' :
  read_cancel w = (cn, w') -> w_stderr w' = w_stderr w.
Proof.
  unfold read_cancel. destruct (w_cancel_in w) as [[|n]|]; intros H; by inversion H.
Qed.

Lemma malloc_stderr w n r w' : malloc w n = (r, w') -> w_stderr w' = w_stderr w.
Proof.
  unfold malloc. destruct (libcall w) as [ok w1] eqn:E. intros H. inversion H; subst.
  eapply libcall_stderr; eauto.
Qed.

Lemma lseek0_stderr w fd ok w' fd' :
  lseek0 w fd = (ok, w', fd') -> w_stderr w' = w_stderr w.
Proof.
  unfold lseek0. destruct (libcall w) as [ok1 w1] eqn:E. intros H. inversion H; subst.
  eapply libcall_stderr; eauto.
Qed.

Lemma read_stderr w fd buf n r w' fd' buf' :
  read w fd buf n = (r, w', fd', buf') -> w_stderr w' = w_stderr w.
Proof.
  unfold read. destruct (libcall w) as [ok1 w1] eqn:E.
  destruct ok1; intros H; inversion H; subst; eapply libcall_stderr; eauto.
Qed.

Lemma set_s_id v : set_s v (vol_s v) = v.
Proof. by destruct v. Qed.

Lemma sync_write_chunk_vol w v c d r w' v' :
  sync_write_chunk w v c d = (r, w', v') ->
  w_stderr w' = w_stderr w /\ exists st, v' = set_s v st.
Proof.
  unfold sync_write_chunk. destruct (volsize v + 1 <? c + 1).
  - intros H; inversion H; subst. split; [done|]. eexists. symmetry. apply set_s_id.
  - destruct (libcall w) as [ok w1] eqn:E. apply libcall_stderr in E.
    destruct ok; intros H; inversion H; subst; (split; [done|]).
    + by eexists.
    + eexists. symmetry. apply set_s_id.
Qed.

Lemma sync_read_chunk_stderr w v c r w' d :
  sync_read_chunk w v c = (r, w', d) -> w_stderr w' = w_stderr w.
Proof.
  unfold sync_read_chunk. destruct (volsize v + 1 <? c + 1).
  - intros H; by inversion H.
  - destruct (libcall w) as [ok w1] eqn:E. apply libcall_stderr in E.
    destruct ok; intros H; by inversion H; subst.
Qed.

(** The hashing loop writes at most the read diagnostic, and only when it
    fails with status -1. *)
Lemma addfile_hash_loop_stderr n : forall c csize fsize w v fd tmp td r w' fd' tmp',
  addfile_hash_loop n c csize fsize w v fd tmp td = (r, w', fd', tmp') ->
  match r with
  | inl ret => (ret = -1 /\ w_stderr w' = w_stderr w ++ [msg_read])
               \/ (ret = -2 /\ w_stderr w' = w_stderr w)
  | inr _ => w_stderr w' = w_stderr w
  end.
Proof.
  induction n as [|n IH]; intros c csize fsize w v fd tmp td r w' fd' tmp' H.
  - simpl in H. by inversion H; subst.
  - cbn [addfile_hash_loop] in H.
    destruct (read w fd tmp _) as [[[ret w1] fd1] tmp1] eqn:Er.
    apply read_stderr in Er.
    destruct (ret <? 0).
    { inversion H; subst. left. simpl. by rewrite Er. }
    destruct (read_cancel w1) as [cn w2] eqn:Ec. apply read_cancel_stderr in Ec.
    destruct cn.
    { inversion H; subst. right. split; [done|congruence]. }
    apply IH in H. destruct r as [ret'|td']; [|congruence].
    destruct H as [[? ?]|[? ?]]; [left|right]; split; congruence.
Qed.

(** The copy loop touches the storage only, and writes at most one
    diagnostic, never the ones of the table update. *)
Lemma addfile_copy_loop_vol fuel : forall left_ c cchk w v fd tmp r w' v',
  addfile_copy_loop fuel left_ c cchk w v fd tmp = Some (r, w', v') ->
  (exists st, v' = set_s v st) /\
  (r = 0 \/ r = -1 \/ r = -2) /\
  (w_stderr w' = w_stderr w \/ w_stderr w' = w_stderr w ++ [msg_read]
   \/ w_stderr w' = w_stderr w ++ [msg_volwrite]).
Proof.
  induction fuel as [|fuel IH]; intros left_ c cchk w v fd tmp r w' v' H; [done|].
  cbn [addfile_copy_loop] in H.
  destruct (left_ =? 0).
  { inversion H; subst. split; [eexists; symmetry; apply set_s_id|]. auto. }
  destruct (if chunksize v <? left_ then _ else _) as [[rlen left1] tmp0].
  destruct (read w fd tmp0 rlen) as [[[ret w1] fd1] tmp1] eqn:Er.
  apply read_stderr in Er.
  destruct (ret <? 0).
  { inversion H; subst. split; [eexists; symmetry; apply set_s_id|].
    split; [auto|]. right; left. simpl. by rewrite Er. }
  destruct (sync_write_chunk w1 v _ _) as [[ret2 w2] v2] eqn:Ew.
  apply sync_write_chunk_vol in Ew as [Ew [st ->]].
  destruct (ret2 <? 0).
  { inversion H; subst. split; [by eexists|].
    split; [auto|]. right; right. simpl. congruence. }
  destruct (read_cancel w2) as [cn w3] eqn:Ec. apply read_cancel_stderr in Ec.
  destruct cn.
  { inversion H; subst. split; [by eexists|]. split; [auto|]. left. congruence. }
  apply IH in H as ([st' ->] & Hr & Hs).
  split; [by eexists|]. split; [done|].
  destruct Hs as [Hs|[Hs|Hs]]; [left|right;left|right;right]; congruence.
Qed.

Lemma set_al_back v a : set_al (set_al v a) (vol_al v) = v.
Proof. by destruct v. Qed.

(** Releasing the container reserved by [actn_addfile] undoes the
    reservation. *)
Lemma release_reserved v len :
  alist_wf (vol_al v) = true -> 0 <= len ->
  let c := shfs_alist_find_free (vol_al v) len in
  c <> 0 ->
  release_container (set_al v (shfs_alist_register (vol_al v) c len).2) c len = v.
Proof.
  intros Hwf Hlen c Hc. unfold release_container. cbn [vol_al set_al].
  unfold c. rewrite reserve_release by done. apply set_al_back.
Qed.

Lemma DIV_ROUND_UP_nonneg n d : 0 < d -> 0 <= DIV_ROUND_UP n d.
Proof.
  intros Hd. unfold DIV_ROUND_UP, u64. apply Z.div_pos; [|done].
  apply Z.mod_pos_bound. lia.
Qed.

Ltac stderr_facts :=
  repeat match goal with
  | H : libcall _ = _ |- _ => apply libcall_stderr in H
  | H : malloc _ _ = _ |- _ => apply malloc_stderr in H
  | H : lseek0 _ _ = _ |- _ => apply lseek0_stderr in H
  | H : read_cancel _ = _ |- _ => apply read_cancel_stderr in H
  | H : addfile_hash_loop _ _ _ _ _ _ _ _ _ = _ |- _ =>
      apply addfile_hash_loop_stderr in H
  end.

Lemma app_one_inv {A} (l : list A) (x y : A) : l ++ [x] = l ++ [y] -> x = y.
Proof. intros H. apply app_inv_head in H. by inversion H. Qed.

Lemma app_one_neq {A} (l : list A) (x : A) : l <> l ++ [x].
Proof.
  intros H. apply (f_equal length) in H. rewrite length_app in H. simpl in H. lia.
Qed.

(** When [actn_addfile] fails, the allocator is what it was before the
    call: on every error path taken after the container was reserved the
    reservation is released again.  In particular, when it fails because an
    entry with the same digest exists or because the bucket of the digest is
    full, it returns -1 and the whole volume state, allocator included, is
    the one before the call. *)
Lemma addfile_failure_allocator w v j ret w' v' :
  alist_wf (vol_al v) = true -> 0 < chunksize v ->
  actn_addfile w v j = Some (ret, w', v') -> ret < 0 ->
  vol_al v' = vol_al v /\
  (w_stderr w' = w_stderr w ++ [msg_duplicate]
   \/ w_stderr w' = w_stderr w ++ [msg_bucketfull] ->
   ret = -1 /\ v' = v).
Proof.
  intros Hwf Hcs H Hret. unfold actn_addfile in H.
  destruct (w_files w !! path j) as [f|] eqn:Ef.
  2:{ inversion H; subst. split; [done|]. intros [E|E]; apply app_one_inv in E; discriminate. }
  remember (DIV_ROUND_UP (Z.of_nat (length (f_data f))) (chunksize v)) as csize eqn:Ecs.
  remember (shfs_alist_find_free (vol_al v) csize) as cchk eqn:Ecchk.
  assert (Hcsize : 0 <= csize) by (subst csize; by apply DIV_ROUND_UP_nonneg).
  destruct (libcall w) as [ok w1] eqn:E1.
  destruct ok; cbn [negb] in H.
  2:{ stderr_facts. inversion H; subst. split; [done|]. simpl.
      rewrite E1. intros [E|E]; apply app_one_inv in E; discriminate. }
  destruct (f_regular f); cbn [negb] in H.
  2:{ stderr_facts. inversion H; subst. split; [done|]. simpl.
      rewrite E1. intros [E|E]; apply app_one_inv in E; discriminate. }
  destruct ((cchk =? 0) || (volsize v <=? cchk)) eqn:Eno.
  { stderr_facts. inversion H; subst. split; [done|]. simpl.
      rewrite E1. intros [E|E]; apply app_one_inv in E; discriminate. }
  apply orb_false_iff in Eno as [Hc0 _]. apply Z.eqb_neq in Hc0.
  assert (Hrel : release_container
            (set_al v (shfs_alist_register (vol_al v) cchk csize).2) cchk csize = v).
  { subst cchk. by apply release_reserved. }
  set (vr := set_al v (shfs_alist_register (vol_al v) cchk csize).2) in *.
  assert (Hal : forall X, vol_al X = vol_al vr ->
            vol_al (release_container X cchk csize) = vol_al v).
  { intros X HX.
    transitivity (vol_al (release_container vr cchk csize)); [|by rewrite Hrel].
    unfold release_container. cbn [vol_al set_al]. by rewrite HX. }
  destruct (malloc w1 (chunksize vr)) as [[tmp|] w2] eqn:E2.
  2:{ stderr_facts. inversion H; subst. rewrite Hrel. split; [done|]. simpl.
      rewrite E2, E1. intros [E|E]; apply app_one_inv in E; discriminate. }
  destruct (libcall w2) as [ok3 w3] eqn:E3.
  destruct ok3; cbn [negb] in H.
  2:{ stderr_facts. inversion H; subst. rewrite Hrel. split; [done|]. simpl.
      rewrite E3, E2, E1. intros [E|E]; apply app_one_inv in E; discriminate. }
  destruct (lseek0 w3 _) as [[ok4 w4] fd4] eqn:E4.
  destruct ok4; cbn [negb] in H.
  2:{ stderr_facts. inversion H; subst. rewrite Hrel. split; [done|]. simpl.
      rewrite E4, E3, E2, E1. intros [E|E]; apply app_one_inv in E; discriminate. }
  destruct (addfile_hash_loop _ _ _ _ _ _ _ _ _) as [[[r5 w5] fd5] tmp5] eqn:E5.
  destruct r5 as [ret5|td].
  { stderr_facts. inversion H; subst. rewrite Hrel. split; [done|].
    rewrite E4, E3, E2, E1 in E5.
    destruct E5 as [[? E5]|[? E5]]; rewrite E5; intros [E|E].
    - apply app_one_inv in E; discriminate.
    - apply app_one_inv in E; discriminate.
    - by apply app_one_neq in E.
    - by apply app_one_neq in E. }
  destruct (shfs_btable_lookup _ _) as [b0|] eqn:El.
  { inversion H; subst. by rewrite Hrel. }
  destruct (shfs_btable_addentry _ _) as [[t b]|] eqn:Ea.
  2:{ inversion H; subst. by rewrite Hrel. }
  destruct (lseek0 w5 fd5) as [[ok6 w6] fd6] eqn:E6.
  destruct ok6; cbn [negb] in H.
  2:{ stderr_facts. inversion H; subst. split; [by apply Hal|]. simpl.
      rewrite E6, E5, E4, E3, E2, E1.
      intros [E|E]; apply app_one_inv in E; discriminate. }
  destruct (addfile_copy_loop _ _ _ _ _ _ _ _) as [[[r7 w7] v7]|] eqn:E7; [|done].
  apply addfile_copy_loop_vol in E7 as ([st ->] & Hr7 & Hs7).
  destruct (Z.ltb_spec r7 0).
  2:{ inversion H; subst. lia. }
  stderr_facts. inversion H; subst. split; [by apply Hal|].
  rewrite E6, E5, E4, E3, E2, E1 in Hs7.
  destruct Hs7 as [Hs|[Hs|Hs]]; rewrite Hs; intros [E|E];
    try (by apply app_one_neq in E); apply app_one_inv in E; discriminate.
Qed.


(** ** Remove *)

(** C10. [actn_rmfile] is atomic on failure.  A digest string that does
    not parse, a digest with no entry and a payload range that cannot be
    unregistered each make it return -1; whenever it returns an error the
    bucket table, the cached hash-table entries and the MODIFIED bits (and
    the allocator) are what they were; and when it succeeds the range of
    the entry was unregistered first, and only then the entry is cleared in
    the bucket table and in the cache and its chunk marked MODIFIED. *)
Theorem rmfile_atomic_on_failure w v t ret w' v' :
  actn_rmfile w v t = (ret, w', v') ->
  let range_of b :=
    let e := hentry_of v (bentry_of v b) in
    (he_chunk e, DIV_ROUND_UP (u64 (he_len e + he_offset e)) (chunksize v)) in
  (hash_parse (path t) (hlen v) = None -> ret = -1) /\
  (forall h, hash_parse (path t) (hlen v) = Some h ->
             shfs_btable_lookup (vol_bt v) h = None -> ret = -1) /\
  (forall h b, hash_parse (path t) (hlen v) = Some h ->
               shfs_btable_lookup (vol_bt v) h = Some b ->
               (shfs_alist_unregister (vol_al v) (range_of b).1 (range_of b).2).1 < 0 ->
               ret = -1) /\
  (ret < 0 ->
     vol_bt v' = vol_bt v /\
     htable_chunk_cache v' = htable_chunk_cache v /\
     htable_chunk_cache_state v' = htable_chunk_cache_state v /\
     vol_al v' = vol_al v) /\
  (0 <= ret ->
     exists h b a,
       hash_parse (path t) (hlen v) = Some h /\
       shfs_btable_lookup (vol_bt v) h = Some b /\
       shfs_alist_unregister (vol_al v) (range_of b).1 (range_of b).2 = (ret, a) /\
       v' = mark_modified
              (set_hentry (set_bt (set_al v a) (shfs_btable_rmentry (vol_bt v) h))
                 (bentry_of v b)
                 (set_he_hash (hash_clear (hlen v)) (hentry_of v (bentry_of v b))))
              (hentry_htchunk (bentry_of v b))).
Proof.
  intros H range_of. unfold actn_rmfile in H.
  destruct (hash_parse (path t) (hlen v)) as [h|] eqn:Ep.
  2:{ inversion H; subst. repeat split; try done; try lia. }
  destruct (shfs_btable_lookup (vol_bt v) h) as [b|] eqn:El.
  2:{ inversion H; subst. repeat split; try done; try lia. }
  destruct (shfs_alist_unregister _ _ _) as [r a] eqn:Eu.
  destruct (Z.ltb_spec r 0) as [Hneg|Hpos].
  - inversion H; subst. repeat split; try done; try lia.
  - inversion H; subst. clear H.
    split; [done|]. split; [intros h0 Hh0 Hn; inversion Hh0; subst; congruence|].
    split.
    { intros h0 b0 Hh0 Hb0. inversion Hh0; subst. rewrite El in Hb0.
      inversion Hb0; subst. unfold range_of. cbn [fst snd]. rewrite Eu. simpl. lia. }
    split; [lia|]. intros _. exists h, b, a. by rewrite <- Eu.
Qed.

(** ** The driver *)









(** [main] before the token loop: with the flag raised it leaves at once
    with the cancel code, a failed mount ends the process, and otherwise
    the driver runs on the mounted volume. *)
(** When the write-back ends the process, the exit status is failure
    whatever the actions returned. *)
Lemma main_umount_dies w v tokens w1 v1 failed rets :
  run_tokens tokens w v 0 [] = Some (w1, v1, failed, rets) ->
  umount_shfs w1 v1 = None ->
  main_mounted w v tokens = Some (EXIT_FAILURE, w1, rets).
Proof. intros Hr Hu. unfold main_mounted. by rewrite Hr, Hu. Qed.

Lemma main_unfold w v tokens :
  main w v tokens
  = if cancel_raised w then Some (-2, (read_cancel w).2, [])
    else match mount_shfs (read_cancel w).2 v with
         | None => Some (EXIT_FAILURE, (read_cancel w).2, [])
         | Some (w1, v1) => main_mounted w1 v1 tokens
         end.
Proof.
  unfold main, cancel_raised. destruct (read_cancel w) as [cn w0]. by destruct cn.
Qed.




(** ** Unmount *)

Lemma sync_write_chunk_ok w v c d r w' v' :
  sync_write_chunk w v c d = (r, w', v') -> (r <? 0) = false ->
  v' = set_s v {| s_chunks := <[c := d]> (s_chunks (vol_s v));
                  s_written := s_written (vol_s v) ++ [c] |}.
Proof.
  unfold sync_write_chunk. destruct (volsize v + 1 <? c + 1).
  - intros H; inversion H; subst. done.
  - destruct (libcall w) as [ok w1]. destruct ok; intros H; inversion H; subst; done.
Qed.

Lemma umount_shfs_loop_journal idx : forall w v w' v',
  umount_shfs_loop idx w v = Some (w', v') ->
  s_written (vol_s v') = s_written (vol_s v) ++ flat_map (flush_chunk v) idx.
Proof.
  induction idx as [|i rest IH]; intros w v w' v' H; cbn [umount_shfs_loop] in H.
  - inversion H; subst. simpl. by rewrite app_nil_r.
  - cbn [flat_map]. unfold flush_chunk at 1, chunk_modified at 1.
    destruct (negb _).
    + destruct (sync_write_chunk w v _ _) as [[r1 w1] v1] eqn:E1.
      destruct (r1 <? 0) eqn:Er1; [done|].
      apply sync_write_chunk_ok in E1; [|done]. subst v1.
      cbn [htable_bak_ref set_s] in H.
      destruct (htable_bak_ref v =? 0) eqn:Eb; cbn [negb] in H.
      * apply IH in H. rewrite H. cbn [vol_s set_s s_written].
        rewrite <- app_assoc. done.
      * match type of H with
        | context [sync_write_chunk ?a ?b ?c ?d] =>
            destruct (sync_write_chunk a b c d) as [[r2 w2] v2] eqn:E2
        end.
        destruct (r2 <? 0) eqn:Er2; [done|].
        apply sync_write_chunk_ok in E2; [|done]. subst v2.
        apply IH in H. rewrite H. cbn [vol_s set_s s_written].
        rewrite <- !app_assoc. done.
    + apply IH in H. by rewrite H.
Qed.

(** C7, as the code has it.  When [umount_shfs] completes, the chunks it
    has written are exactly those of [flush_writes]: the table chunks are
    visited in ascending order, a MODIFIED chunk is written to the primary
    region and then at once to the backup region (when there is one) before
    the next chunk is looked at, and a chunk whose MODIFIED bit is clear is
    not written. *)
Theorem umount_flush_order w v w' v' :
  umount_shfs w v = Some (w', v') ->
  s_written (vol_s v') = s_written (vol_s v) ++ flush_writes v /\
  (forall c, In c (flush_writes v) ->
     exists i, (i < htable_len v)%nat /\ chunk_modified v i = true /\
       (c = u64 (htable_ref v + Z.of_nat i)
        \/ (htable_bak_ref v <> 0 /\ c = u64 (htable_bak_ref v + Z.of_nat i)))).
Proof.
  intros H. split; [by apply umount_shfs_loop_journal in H|].
  intros c Hc. unfold flush_writes in Hc. apply in_flat_map in Hc as (i & Hi & Hc).
  apply in_seq in Hi. exists i. split; [lia|]. unfold flush_chunk in Hc.
  destruct (chunk_modified v i); [|done]. split; [done|].
  destruct Hc as [<-|Hc]; [by left|].
  destruct (Z.eqb_spec (htable_bak_ref v) 0); [done|].
  destruct Hc as [<-|[]]. by right.
Qed.

(** ** Adding an empty file *)

Lemma find_free_zero a : shfs_alist_find_free a 0 = 0.
Proof. reflexivity. Qed.

Lemma DIV_ROUND_UP_zero d : 0 < d <= 2 ^ 64 -> DIV_ROUND_UP 0 d = 0.
Proof.
  intros Hd. unfold DIV_ROUND_UP, u64. rewrite Z.mod_small by lia.
  apply Z.div_small. lia.
Qed.

(** C4, as the code has it.  For a file of no bytes [csize] is 0,
    [shfs_alist_find_free] returns 0 for it, and [actn_addfile] takes the 0
    for a volume without room: it returns -1 and the volume is unchanged, so
    no entry of length 0 is made.  For a regular file and no failing call
    the diagnostic is the one of a full volume. *)
Theorem addfile_empty_file_rejected w v j f :
  0 < chunksize v <= 2 ^ 64 ->
  w_files w !! path j = Some f -> f_data f = [] ->
  (exists w', actn_addfile w v j = Some (-1, w', v)) /\
  (f_regular f = true -> w_faults w = [] ->
   actn_addfile w v j = Some (-1, eprintf msg_nospace w, v)).
Proof.
  intros Hcs Hf Hdata. unfold actn_addfile. rewrite Hf, Hdata.
  cbn [length Z.of_nat]. rewrite DIV_ROUND_UP_zero by done.
  rewrite find_free_zero. cbn [Z.eqb orb].
  split.
  - destruct (libcall w) as [ok w1]. destruct ok; cbn [negb].
    + destruct (f_regular f); cbn [negb]; by eexists.
    + by eexists.
  - intros Hreg Hnf. unfold libcall. rewrite Hnf, Hreg. done.
Qed.

(** ** Export reads back what add wrote *)

Lemma int32_small z : 0 <= z < 2 ^ 31 -> int32 z = z.
Proof. intros H. unfold int32. rewrite Z.mod_small; lia. Qed.

Lemma libcall_nofault w : w_faults w = [] -> libcall w = (true, w).
Proof. unfold libcall. by intros ->. Qed.

Lemma holds_file_next v m addr data :
  0 < chunksize v ->
  holds_file v m addr data ->
  holds_file v m (addr + 1) (drop (Z.to_nat (chunksize v)) data).
Proof.
  intros Hcs H k Hk. rewrite length_drop in Hk.
  destruct (H (S k)) as [H1 H2]; [simpl; lia|].
  replace (addr + 1 + Z.of_nat k) with (addr + Z.of_nat (S k)) by lia.
  split; [done|]. rewrite H2, drop_drop.
  replace (Z.to_nat (chunksize v) + k * Z.to_nat (chunksize v))%nat
    with (S k * Z.to_nat (chunksize v))%nat by (simpl; lia).
  done.
Qed.

(** The loop of [actn_catfile] over chunks that hold [data]: it ends
    within the rounds [actn_catfile] allows, a successful run writes exactly
    [data] to standard output, and without a failing call it succeeds. *)
Lemma catfile_loop_reads fuel : forall data addr w v,
  (length data < fuel)%nat ->
  0 < chunksize v < 2 ^ 32 -> 0 <= addr -> volsize v < 2 ^ 63 ->
  holds_file v (s_chunks (vol_s v)) addr data ->
  exists ret w',
    catfile_loop fuel addr 0 (Z.of_nat (length data)) w v = Some (ret, w') /\
    (ret = 0 -> w_stdout w' = w_stdout w ++ data) /\
    (w_faults w = [] -> ret = 0).
Proof.
  induction fuel as [|fuel IH]; intros data addr w v Hfuel Hcs Haddr Hvs Hhold; [lia|].
  cbn [catfile_loop].
  destruct (Z.eqb_spec (Z.of_nat (length data)) 0) as [H0|H0].
  { destruct data; [|simpl in H0; lia]. exists 0, w. rewrite app_nil_r. done. }
  assert (Hlen : (0 < length data)%nat) by lia.
  destruct (Hhold 0%nat) as [Hin Hchunk]; [simpl; lia|].
  rewrite Z.add_0_r in Hin, Hchunk. cbn [Nat.mul] in Hchunk. rewrite drop_0 in Hchunk.
  unfold sync_read_chunk.
  destruct (Z.ltb_spec (volsize v + 1) (addr + 1)); [lia|].
  destruct (libcall w) as [ok1 w1] eqn:E1. destruct ok1.
  2:{ cbn [Z.ltb Z.compare]. do 2 eexists. split; [done|]. split; [done|].
      intros Hnf. rewrite (libcall_nofault _ Hnf) in E1. done. }
  cbn [Z.ltb Z.compare]. rewrite Hchunk. cbn [chunk_bytes].
  assert (Hcs64 : u64 (chunksize v - 0) = chunksize v).
  { rewrite Z.sub_0_r. unfold u64. apply Z.mod_small. lia. }
  assert (Hnext : u64 (addr + 1) = addr + 1) by (unfold u64; apply Z.mod_small; lia).
  rewrite Hcs64, Hnext.
  destruct (libcall w1) as [ok2 w2] eqn:E2. destruct ok2; cbn [negb].
  2:{ do 2 eexists. split; [done|]. split; [done|].
      intros Hnf. rewrite (libcall_nofault _ Hnf) in E1. inversion E1; subst.
      rewrite (libcall_nofault _ Hnf) in E2. done. }
  set (n := Z.to_nat (chunksize v)) in *.
  assert (Hn : (0 < n)%nat) by (unfold n; lia).
  set (rlen := Z.min (chunksize v) (Z.of_nat (length data))).
  assert (Hr : Z.to_nat rlen = Nat.min n (length data)) by (unfold rlen, n; lia).
  assert (Hout : take (Z.to_nat rlen) (drop (Z.to_nat 0) (resize n x00 (resize n x00 data)))
                 = take (Nat.min n (length data)) data).
  { change (Z.to_nat 0) with 0%nat. rewrite drop_0, resize_idemp, Hr.
    destruct (Nat.le_gt_cases (length data) n) as [Hle|Hgt].
    - rewrite resize_ge by done. rewrite take_app_le by lia. done.
    - rewrite resize_le by lia. rewrite take_take. f_equal. lia. }
  rewrite Hout.
  assert (Hleft : Z.of_nat (length data) - rlen
                  = Z.of_nat (length (drop (Nat.min n (length data)) data))).
  { rewrite length_drop. unfold rlen, n. lia. }
  rewrite Hleft.
  assert (Hhold' : holds_file v (s_chunks (vol_s v)) (addr + 1)
                     (drop (Nat.min n (length data)) data)).
  { destruct (Nat.le_gt_cases (length data) n) as [Hle|Hgt].
    - rewrite Nat.min_r by done. rewrite drop_all. intros k Hk. simpl in Hk. lia.
    - rewrite Nat.min_l by lia. apply holds_file_next; [lia|done]. }
  destruct (IH (drop (Nat.min n (length data)) data) (addr + 1)
              (put_stdout (take (Nat.min n (length data)) data) w2) v)
    as (ret & w' & Hrun & Hok & Hnf); try done; try lia;
    try (rewrite length_drop; lia).
  exists ret, w'. split; [exact Hrun|]. split.
  - intros Hret. rewrite (Hok Hret). cbn [put_stdout w_stdout].
    assert (Hs : w_stdout w2 = w_stdout w).
    { unfold libcall in E1, E2.
      destruct (w_faults w); inversion E1; subst;
        destruct (w_faults _); inversion E2; subst; done. }
    rewrite Hs, <- app_assoc, take_drop. done.
  - intros Hf. apply Hnf. cbn [put_stdout w_faults].
    rewrite (libcall_nofault _ Hf) in E1. inversion E1; subst.
    rewrite (libcall_nofault _ Hf) in E2. inversion E2; subst. done.
Qed.

(** The copy loop of [actn_addfile], when it succeeds, has written the
    rest of the file from chunk [cchk + c] on and has touched no chunk
    below. *)
Lemma addfile_copy_loop_holds cchk fuel : forall data c w v fd tmp w' v',
  0 < chunksize v < 2 ^ 31 ->
  drop (fd_pos fd) (f_data (fd_file fd)) = data ->
  length tmp = Z.to_nat (chunksize v) ->
  0 <= cchk -> 0 <= c -> cchk + c + Z.of_nat (length data) < 2 ^ 64 ->
  addfile_copy_loop fuel (Z.of_nat (length data)) c cchk w v fd tmp
  = Some (0, w', v') ->
  holds_file v (s_chunks (vol_s v')) (cchk + c) data /\
  (forall a, a < cchk + c -> s_chunks (vol_s v') !! a = s_chunks (vol_s v) !! a).
Proof.
  induction fuel as [|fuel IH];
    intros data c w v fd tmp w' v' Hcs Hfd Htmp Hcchk Hc Hbound H; [done|].
  cbn [addfile_copy_loop] in H.
  destruct (Z.eqb_spec (Z.of_nat (length data)) 0) as [H0|H0].
  { split; [|by inversion H].
    intros k Hk. assert (length data = 0%nat) by lia. lia. }
  set (n := Z.to_nat (chunksize v)) in *.
  assert (Hn : (0 < n)%nat) by (unfold n; lia).
  set (rlen := if chunksize v <? Z.of_nat (length data)
               then chunksize v else Z.of_nat (length data)).
  set (tmp0 := if chunksize v <? Z.of_nat (length data)
               then tmp else replicate n x00).
  set (left1 := if chunksize v <? Z.of_nat (length data)
                then Z.of_nat (length data) - chunksize v else 0).
  assert (Hsplit : (if chunksize v <? Z.of_nat (length data)
                    then (chunksize v, Z.of_nat (length data) - chunksize v, tmp)
                    else (Z.of_nat (length data), 0, replicate n x00))
                   = (rlen, left1, tmp0)).
  { unfold rlen, left1, tmp0. by destruct (chunksize v <? Z.of_nat (length data)). }
  rewrite Hsplit in H. clear Hsplit.
  assert (Hrl : Z.to_nat rlen = Nat.min n (length data)).
  { unfold rlen, n. destruct (Z.ltb_spec (chunksize v) (Z.of_nat (length data))); lia. }
  assert (Hl1 : left1 = Z.of_nat (length (drop (Nat.min n (length data)) data))).
  { rewrite length_drop. unfold left1, n.
    destruct (Z.ltb_spec (chunksize v) (Z.of_nat (length data))); lia. }
  assert (Htmp0 : length tmp0 = n).
  { unfold tmp0. destruct (chunksize v <? _); [done|apply length_replicate]. }
  unfold read in H. rewrite Hfd, Hrl in H.
  destruct (libcall w) as [ok1 w1] eqn:E1. destruct ok1; [|done].
  set (got := take (Nat.min n (length data)) data) in *.
  assert (Hgot : length got = Nat.min n (length data)).
  { unfold got. rewrite length_take. lia. }
  rewrite int32_small in H by lia.
  destruct (Z.ltb_spec (Z.of_nat (length got)) 0); [lia|].
  assert (Hbuf : got ++ drop (length got) tmp0 = resize n x00 data).
  { rewrite Hgot. unfold got, tmp0.
    destruct (Z.ltb_spec (chunksize v) (Z.of_nat (length data))) as [Hlt|Hge].
    - rewrite Nat.min_l by lia. rewrite drop_ge by lia.
      rewrite app_nil_r, resize_le by lia. done.
    - rewrite Nat.min_r by lia. rewrite take_ge by lia.
      rewrite drop_replicate, resize_ge by lia. done. }
  rewrite Hbuf in H.
  assert (Hu : u64 (cchk + c) = cchk + c) by (unfold u64; apply Z.mod_small; lia).
  rewrite Hu in H. unfold sync_write_chunk in H.
  destruct (Z.ltb_spec (volsize v + 1) (cchk + c + 1)) as [Hout|Hin]; [done|].
  destruct (libcall w1) as [ok2 w2] eqn:E2. destruct ok2; [|done].
  cbn [Z.ltb Z.compare] in H.
  destruct (read_cancel w2) as [cn w3] eqn:E3. destruct cn; [done|].
  rewrite Hl1 in H.
  apply IH in H as [Hhold Hkeep]; cbn [chunksize set_s fd_pos fd_file]; try done; try lia.
  2:{ rewrite Hgot, <- Hfd, drop_drop. done. }
  2:{ apply length_resize. }
  2:{ rewrite length_drop. lia. }
  cbn [vol_s set_s s_chunks] in Hkeep.
  split.
  - intros k Hk. destruct k as [|k].
    + rewrite Z.add_0_r. split; [lia|].
      rewrite Hkeep by lia. rewrite lookup_insert_eq. cbn [Nat.mul].
      by rewrite drop_0.
    + assert (Hlt : (n < length data)%nat) by (simpl in Hk; lia).
      rewrite Nat.min_l in Hhold by lia.
      destruct (Hhold k) as [Hv Hm].
      { cbn [chunksize set_s]. fold n. rewrite length_drop. simpl in Hk. lia. }
      cbn [chunksize volsize set_s] in Hv, Hm. fold n in Hm.
      replace (cchk + c + Z.of_nat (S k)) with (cchk + (c + 1) + Z.of_nat k) by lia.
      split; [done|]. rewrite Hm, drop_drop.
      replace (n + k * n)%nat with (S k * n)%nat by (simpl; lia). done.
  - intros a Ha. rewrite Hkeep by lia. by rewrite lookup_insert_ne by lia.
Qed.

(** The copy loop ends within the rounds [actn_addfile] allows. *)
Lemma addfile_copy_loop_returns cchk fuel : forall left_ c w v fd tmp,
  0 < chunksize v -> 0 <= left_ < Z.of_nat fuel ->
  exists r, addfile_copy_loop fuel left_ c cchk w v fd tmp = Some r.
Proof.
  induction fuel as [|fuel IH]; intros left_ c w v fd tmp Hcs Hl; [lia|].
  cbn [addfile_copy_loop].
  destruct (Z.eqb_spec left_ 0); [by eexists|].
  destruct (Z.ltb_spec (chunksize v) left_).
  - destruct (read w fd tmp (chunksize v)) as [[[ret w1] fd1] tmp1].
    destruct (ret <? 0); [by eexists|].
    destruct (sync_write_chunk w1 v _ _) as [[ret2 w2] v2] eqn:Ew.
    apply sync_write_chunk_vol in Ew as [_ [st ->]].
    destruct (ret2 <? 0); [by eexists|].
    destruct (read_cancel w2) as [cn w3]. destruct cn; [by eexists|].
    apply IH; cbn [chunksize set_s]; lia.
  - destruct (read w fd _ left_) as [[[ret w1] fd1] tmp1].
    destruct (ret <? 0); [by eexists|].
    destruct (sync_write_chunk w1 v _ _) as [[ret2 w2] v2] eqn:Ew.
    apply sync_write_chunk_vol in Ew as [_ [st ->]].
    destruct (ret2 <? 0); [by eexists|].
    destruct (read_cancel w2) as [cn w3]. destruct cn; [by eexists|].
    apply IH; cbn [chunksize set_s]; lia.
Qed.

Lemma find_unique (P : nat -> bool) (l : list nat) (b : nat) :
  In b l -> P b = true -> (forall i, In i l -> i <> b -> P i = false) ->
  List.find P l = Some b.
Proof.
  induction l as [|a l IH]; intros Hin Hb Hothers; [done|].
  simpl. destruct (P a) eqn:Ea.
  - f_equal. destruct (decide (a = b)) as [|Hne]; [done|].
    rewrite Hothers in Ea; [done|by left|done].
  - destruct Hin as [->|Hin]; [congruence|].
    apply IH; [done|done|]. intros i Hi. apply Hothers. by right.
Qed.

(** After [shfs_btable_addentry] the digest is found, in the slot that
    was taken. *)
Lemma lookup_after_addentry t h t' b :
  (0 < bt_nb_buckets t)%nat ->
  length (bt_slots t) = (bt_nb_buckets t * bt_entries_per_bucket t)%nat ->
  shfs_btable_lookup t h = None ->
  shfs_btable_addentry t h = Some (t', b) ->
  shfs_btable_lookup t' h = Some b /\ (b < length (bt_slots t))%nat /\
  t' = set_slots t (alter (set_be_hash h) b (bt_slots t)).
Proof.
  intros Hnb Hlen Hlook Hadd. unfold shfs_btable_addentry in Hadd.
  destruct (List.find _ _) as [i|] eqn:Ef; [|done].
  inversion Hadd; subst; clear Hadd.
  apply find_some in Ef as [Hin Hzero].
  assert (Hb : (b < length (bt_slots t))%nat).
  { unfold bucket_slots, bucket_of in Hin. apply in_seq in Hin.
    pose proof (Nat.mod_upper_bound (hash_prefix h) (bt_nb_buckets t)).
    rewrite Hlen. nia. }
  split; [|done].
  unfold shfs_btable_lookup in *.
  change (bucket_slots (set_slots t _) h) with (bucket_slots t h).
  apply find_unique; [done| |].
  - unfold slot_hash. cbn [bt_slots set_slots].
    rewrite list_lookup_alter_eq.
    destruct (lookup_lt_is_Some_2 (bt_slots t) b Hb) as [be ->]. simpl.
    unfold hash_equal. by apply bool_decide_eq_true.
  - intros i Hi Hne. unfold slot_hash. cbn [bt_slots set_slots].
    rewrite list_lookup_alter_ne by done.
    eapply find_none in Hlook; [|exact Hi]. exact Hlook.
Qed.

(** A digest that is found after [shfs_btable_addentry] and was not
    found before is the one that was added. *)
Lemma lookup_new_only t h t' b h' :
  (0 < bt_nb_buckets t)%nat ->
  length (bt_slots t) = (bt_nb_buckets t * bt_entries_per_bucket t)%nat ->
  shfs_btable_lookup t h = None ->
  shfs_btable_addentry t h = Some (t', b) ->
  shfs_btable_lookup t h' = None ->
  is_Some (shfs_btable_lookup t' h') -> h' = h.
Proof.
  intros Hnb Hlen Hlook Hadd Hold [b' Hnew].
  destruct (lookup_after_addentry _ _ _ _ Hnb Hlen Hlook Hadd) as (_ & Hb & ->).
  unfold shfs_btable_lookup in Hnew, Hold.
  change (bucket_slots (set_slots t _) h') with (bucket_slots t h') in Hnew.
  apply find_some in Hnew as [Hin Heq].
  unfold hash_equal in Heq. apply bool_decide_eq_true in Heq.
  unfold slot_hash in Heq. cbn [bt_slots set_slots] in Heq.
  destruct (decide (b' = b)) as [->|Hne].
  - rewrite list_lookup_alter_eq in Heq.
    destruct (lookup_lt_is_Some_2 (bt_slots t) b Hb) as [be Hbe].
    rewrite Hbe in Heq. simpl in Heq. done.
  - rewrite list_lookup_alter_ne in Heq by done.
    eapply find_none in Hold; [|exact Hin].
    unfold hash_equal, slot_hash in Hold.
    apply bool_decide_eq_false in Hold. done.
Qed.

Lemma hentry_of_set_hentry v be e :
  place_valid v be = true -> hentry_of (set_hentry v be e) be = e.
Proof.
  unfold place_valid, hentry_of, set_hentry. cbn [htable_chunk_cache set_cache].
  destruct (htable_chunk_cache v !! hentry_htchunk be) as [buf|] eqn:Eb; [|done].
  intros Hoff. apply Nat.ltb_lt in Hoff.
  rewrite list_lookup_alter_eq, Eb. simpl.
  by rewrite list_lookup_insert_eq.
Qed.

(** The hashing loop leaves the I/O buffer as long as it was. *)
Lemma addfile_hash_loop_tmp n : forall c csize fsize w v fd tmp td r w' fd' tmp',
  0 < chunksize v -> length tmp = Z.to_nat (chunksize v) ->
  addfile_hash_loop n c csize fsize w v fd tmp td = (r, w', fd', tmp') ->
  length tmp' = Z.to_nat (chunksize v).
Proof.
  induction n as [|n IH]; intros c csize fsize w v fd tmp td r w' fd' tmp' Hcs Htmp H.
  - simpl in H. by inversion H; subst.
  - cbn [addfile_hash_loop] in H.
    set (rlen := if c =? u64 (csize - 1) then fsize mod chunksize v
                 else chunksize v) in *.
    assert (Hrl : rlen <= chunksize v).
    { unfold rlen. destruct (c =? _); [|lia].
      pose proof (Z.mod_pos_bound fsize (chunksize v)). lia. }
    assert (Hread : forall ret w1 fd1 tmp1,
              read w fd tmp rlen = (ret, w1, fd1, tmp1) ->
              length tmp1 = Z.to_nat (chunksize v)).
    { intros ret w1 fd1 tmp1. unfold read.
      destruct (libcall w) as [ok w0]. destruct ok; intros E; inversion E; subst; [|done].
      rewrite length_app, length_drop, length_take. lia. }
    destruct (read w fd tmp rlen) as [[[ret w1] fd1] tmp1] eqn:Er.
    specialize (Hread _ _ _ _ eq_refl).
    destruct (ret <? 0); [by inversion H; subst|].
    destruct (read_cancel w1) as [cn w2]. destruct cn; [by inversion H; subst|].
    eapply IH; [done| |exact H]. done.
Qed.

Lemma addfile_hash_loop_fd n : forall c cs fs w v fd tmp td r w' fd' tmp',
  addfile_hash_loop n c cs fs w v fd tmp td = (r, w', fd', tmp') ->
  fd_file fd' = fd_file fd.
Proof.
  induction n as [|n IH]; intros c cs fs w v fd tmp td r w' fd' tmp' H.
  - simpl in H. by inversion H.
  - cbn [addfile_hash_loop] in H.
    destruct (read w fd tmp _) as [[[ret w1] fd1] tmp1] eqn:Er.
    assert (fd_file fd1 = fd_file fd).
    { unfold read in Er. destruct (libcall w) as [ok w0].
      destruct ok; by inversion Er. }
    destruct (ret <? 0); [inversion H; subst; done|].
    destruct (read_cancel w1) as [cn wc].
    destruct cn; [inversion H; subst; done|].
    apply IH in H. congruence.
Qed.

Lemma vol_wf_facts v :
  vol_wf v = true ->
  0 < chunksize v < 2 ^ 31 /\ 0 <= volsize v < 2 ^ 63 /\
  alist_wf (vol_al v) = true /\
  (0 < bt_nb_buckets (vol_bt v))%nat /\
  length (bt_slots (vol_bt v))
  = (bt_nb_buckets (vol_bt v) * bt_entries_per_bucket (vol_bt v))%nat /\
  forallb (place_valid v) (bt_slots (vol_bt v)) = true.
Proof.
  unfold vol_wf. intros H.
  repeat (apply andb_true_iff in H as [H ?]).
  zbool.
  repeat match goal with
  | H : (_ <? _)%nat = true |- _ => apply Nat.ltb_lt in H
  | H : (_ =? _)%nat = true |- _ => apply Nat.eqb_eq in H
  end.
  repeat split; try done; lia.
Qed.

Lemma libcall_stdout w ok w' : libcall w = (ok, w') -> w_stdout w' = w_stdout w.
Proof.
  unfold libcall. destruct (w_faults w); intros H; by inversion H.
Qed.

(** Exporting an intact object: [actn_catfile] returns; when it returns 0
    it has written to standard output exactly the bytes of the object, and
    without a failing call it does return 0. *)
Lemma export_intact_object w v t h data :
  0 < chunksize v < 2 ^ 32 -> volsize v < 2 ^ 63 ->
  object_intact v h data ->
  hash_parse (path t) (hlen v) = Some h ->
  exists ret w',
    actn_catfile w v t = Some (ret, w', v) /\
    (ret = 0 -> w_stdout w' = w_stdout w ++ data) /\
    (w_faults w = [] -> ret = 0).
Proof.
  intros Hcs Hvs (b & Hlook & Hoff & Hlen & Hchk & Hhold) Hparse.
  unfold actn_catfile.
  destruct (malloc w (chunksize v)) as [[buf|] wm] eqn:Em.
  2:{ exists (-1), (eprintf msg_fatal wm). split; [done|]. split; [done|].
      intros Hnf. unfold malloc in Em. rewrite (libcall_nofault _ Hnf) in Em. done. }
  rewrite Hparse, Hlook, Hoff, Hlen.
  assert (Hwm : w_stdout wm = w_stdout w /\ (w_faults w = [] -> w_faults wm = [])).
  { unfold malloc in Em. destruct (libcall w) as [ok wl] eqn:El'.
    destruct ok; inversion Em; subst. split; [eapply libcall_stdout; eauto|].
    intros Hnf. rewrite (libcall_nofault _ Hnf) in El'. by inversion El'; subst. }
  destruct Hwm as [Hout Hnf].
  destruct (catfile_loop_reads (S (S (Z.to_nat (Z.of_nat (length data)))))
              data (he_chunk (hentry_of v (bentry_of v b))) wm v)
    as (ret & wx & Hrun & Hok & Hnofault); try done; try lia.
  rewrite Hrun. exists ret, wx. split; [done|]. split.
  - intros Hret. rewrite (Hok Hret). by rewrite Hout.
  - intros Hf0. apply Hnofault. by apply Hnf.
Qed.

(** Add and export, as long as the object stays intact.  After
    [actn_addfile] has succeeded on a regular file, the digest it stored is
    the one digest that is found in the bucket table and was
    not found before, and the object is intact: its entry has the length of
    the file and its chunks hold the bytes of the file, the last chunk
    padded with zeros.  On every volume state on which the object is
    intact (the one the add left, to begin with) [actn_catfile] on that
    digest returns; when it returns 0 it has written to standard output
    exactly the bytes of the file, no padding, and without a failing call it
    does return 0. *)
Lemma add_then_export w v j f w1 v1 :
  vol_wf v = true ->
  w_files w !! path j = Some f ->
  Z.of_nat (length (f_data f)) < 2 ^ 63 ->
  actn_addfile w v j = Some (0, w1, v1) ->
  exists h,
    shfs_btable_lookup (vol_bt v) h = None /\
    (forall h', shfs_btable_lookup (vol_bt v) h' = None ->
                is_Some (shfs_btable_lookup (vol_bt v1) h') -> h' = h) /\
    object_intact v1 h (f_data f) /\
    forall v2 w' t,
      0 < chunksize v2 < 2 ^ 32 -> volsize v2 < 2 ^ 63 ->
      object_intact v2 h (f_data f) ->
      hash_parse (path t) (hlen v2) = Some h ->
      exists ret w2,
        actn_catfile w' v2 t = Some (ret, w2, v2) /\
        (ret = 0 -> w_stdout w2 = w_stdout w' ++ f_data f) /\
        (w_faults w' = [] -> ret = 0).
Proof.
  intros Hwf Hf Hsize H.
  destruct (vol_wf_facts v Hwf) as (Hcs & Hvs & Hal & Hnb & Hslots & Hplaces).
  unfold actn_addfile in H. rewrite Hf in H.
  remember (DIV_ROUND_UP (Z.of_nat (length (f_data f))) (chunksize v)) as csize eqn:Ecs.
  remember (shfs_alist_find_free (vol_al v) csize) as cchk eqn:Ecchk.
  assert (Hcsize : 0 <= csize) by (subst csize; apply DIV_ROUND_UP_nonneg; lia).
  destruct (libcall w) as [ok w0] eqn:E0. destruct ok; cbn [negb] in H; [|done].
  destruct (f_regular f); cbn [negb] in H; [|done].
  destruct ((cchk =? 0) || (volsize v <=? cchk)) eqn:Eno; [done|].
  apply orb_false_iff in Eno as [Hc0 Hcv]. zbool.
  assert (Hcpos : 2 <= cchk).
  { assert (0 < csize).
    { destruct (Z.eq_dec csize 0) as [Hz|]; [|lia].
      rewrite Hz in Ecchk. by rewrite find_free_zero in Ecchk. }
    by destruct (find_free_free (vol_al v) csize cchk Hal) as (? & _). }
  set (vr := set_al v (shfs_alist_register (vol_al v) cchk csize).2) in *.
  destruct (malloc w0 (chunksize vr)) as [[tmp|] w2] eqn:E2; [|done].
  assert (Htmp : length tmp = Z.to_nat (chunksize v)).
  { unfold malloc in E2. destruct (libcall w0) as [ok wm]. destruct ok; inversion E2; subst.
    apply length_replicate. }
  destruct (libcall w2) as [ok3 w3] eqn:E3. destruct ok3; cbn [negb] in H; [|done].
  destruct (lseek0 w3 _) as [[ok4 w4] fd4] eqn:E4. destruct ok4; cbn [negb] in H; [|done].
  destruct (addfile_hash_loop _ _ _ _ _ _ _ _ _) as [[[r5 w5] fd5] tmp5] eqn:E5.
  destruct r5 as [ret5|td]; [inversion H; subst; clear H|].
  { apply addfile_hash_loop_stderr in E5. destruct E5 as [[? _]|[? _]]; lia. }
  pose proof (addfile_hash_loop_fd _ _ _ _ _ _ _ _ _ _ _ _ _ E5) as Hfd5.
  apply addfile_hash_loop_tmp in E5; [|cbn [chunksize vr set_al]; lia|done].
  cbn [chunksize vr set_al] in E5.
  set (h := take (hlen vr) (mhash_digest td)) in *.
  destruct (shfs_btable_lookup (vol_bt vr) h) as [b0|] eqn:El; [done|].
  destruct (shfs_btable_addentry (vol_bt vr) h) as [[t b]|] eqn:Ea; [|done].
  destruct (lookup_after_addentry _ _ _ _ Hnb Hslots El Ea) as (Hlook & Hb & Ht).
  destruct (lseek0 w5 fd5) as [[ok6 w6] fd6] eqn:E6. destruct ok6; cbn [negb] in H; [|done].
  assert (Hfd6 : fd_pos fd6 = 0%nat /\ fd_file fd6 = f).
  { unfold lseek0 in E6, E4.
    destruct (libcall w5) as [ok wl]. destruct ok; inversion E6; subst.
    destruct (libcall w3) as [ok wl3]. destruct ok; inversion E4; subst.
    cbn [fd_pos fd_file] in *. done. }
  destruct Hfd6 as [Hpos6 Hfile6].
  match type of H with
  | context [addfile_copy_loop ?a1 ?a2 ?a3 ?a4 ?a5 ?a6 ?a7 ?a8] =>
      destruct (addfile_copy_loop a1 a2 a3 a4 a5 a6 a7 a8)
        as [[[r7 w7] v7]|] eqn:E7; [|done]
  end.
  destruct (Z.ltb_spec r7 0); [inversion H; subst; lia|].
  inversion H; subst w7 v7; clear H.
  assert (Hr7 : r7 = 0).
  { apply addfile_copy_loop_vol in E7 as (_ & Hr & _). lia. }
  subst r7.
  pose proof (addfile_copy_loop_vol _ _ _ _ _ _ _ _ _ _ _ E7) as ([st Hv1] & _ & _).
  apply addfile_copy_loop_holds in E7 as [Hhold _];
    cbn [chunksize set_s set_cache set_cache_state mark_modified set_hentry set_bt vr set_al];
    try done; try lia.
  2:{ by rewrite Hpos6, Hfile6, drop_0. }
  rewrite Z.add_0_r in Hhold.
  set (be := bentry_of (set_bt vr t) b) in *.
  set (e := new_hentry w5 j h cchk (Z.of_nat (length (f_data f)))) in *.
  assert (Hbt1 : vol_bt v1 = t) by (by rewrite Hv1).
  assert (Hbe1 : bentry_of v1 b = be) by (by rewrite Hv1).
  assert (Hpv : place_valid (set_bt vr t) be = true).
  { unfold be, bentry_of. cbn [vol_bt set_bt]. rewrite Ht. cbn [bt_slots set_slots].
    rewrite list_lookup_alter_eq.
    destruct (lookup_lt_is_Some_2 (bt_slots (vol_bt vr)) b Hb) as [be0 Hbe0].
    cbn [vol_bt vr set_al] in Hbe0.
    rewrite Hbe0. simpl.
    rewrite forallb_forall in Hplaces.
    assert (Hin : In be0 (bt_slots (vol_bt v))).
    { apply list_elem_of_In. eapply list_elem_of_lookup_2. exact Hbe0. }
    apply Hplaces in Hin. unfold place_valid in *.
    cbn [htable_chunk_cache set_bt vr set_al hentry_htchunk hentry_htoffset set_be_hash].
    exact Hin. }
  assert (He1 : hentry_of v1 be = e).
  { rewrite Hv1. unfold hentry_of.
    cbn [htable_chunk_cache set_s mark_modified set_cache_state].
    apply (hentry_of_set_hentry (set_bt vr t) be e Hpv). }
  assert (Hc1 : chunksize v1 = chunksize v) by (by rewrite Hv1).
  assert (Hvol1 : volsize v1 = volsize v) by (by rewrite Hv1).
  assert (Hint : object_intact v1 h (f_data f)).
  { exists b. rewrite Hbt1, Hbe1, He1. cbn [he_offset he_len he_chunk e new_hentry].
    split; [exact Hlook|]. split; [done|]. split; [done|]. split; [lia|].
    intros k Hk. rewrite Hc1 in *. rewrite Hvol1.
    pose proof (Hhold k) as Hk'.
    cbn [chunksize volsize mark_modified set_cache_state set_hentry set_cache
           set_bt vr set_al] in Hk'.
    apply Hk'. exact Hk. }
  exists h. split; [exact El|].
  split; [intros h'; rewrite Hbt1; by apply (lookup_new_only _ _ _ _ _ Hnb Hslots El Ea)|].
  split; [exact Hint|].
  intros v2 w' t0 Hcs2 Hvs2 Hint2 Hparse.
  by apply (export_intact_object w' v2 t0 h (f_data f)).
Qed.

(** [actn_addfile] returns on every volume with a positive chunk size:
    the rounds allowed to the copy loop suffice. *)
Lemma actn_addfile_returns w v j :
  0 < chunksize v -> exists r, actn_addfile w v j = Some r.
Proof.
  intros Hcs. unfold actn_addfile.
  destruct (w_files w !! path j) as [f|]; [|by eexists].
  destruct (libcall w) as [ok w0]. destruct ok; cbn [negb]; [|by eexists].
  destruct (f_regular f); cbn [negb]; [|by eexists].
  destruct (_ || _); [by eexists|].
  destruct (malloc w0 _) as [[tmp|] w2]; [|by eexists].
  destruct (libcall w2) as [ok3 w3]. destruct ok3; cbn [negb]; [|by eexists].
  destruct (lseek0 w3 _) as [[ok4 w4] fd4]. destruct ok4; cbn [negb]; [|by eexists].
  destruct (addfile_hash_loop _ _ _ _ _ _ _ _ _) as [[[r5 w5] fd5] tmp5].
  destruct r5 as [ret5|td]; [by eexists|].
  destruct (shfs_btable_lookup _ _); [by eexists|].
  destruct (shfs_btable_addentry _ _) as [[t b]|]; [|by eexists].
  destruct (lseek0 w5 fd5) as [[ok6 w6] fd6]. destruct ok6; cbn [negb]; [|by eexists].
  match goal with
  | |- context [addfile_copy_loop ?a1 ?a2 ?a3 ?a4 ?a5 ?a6 ?a7 ?a8] =>
      destruct (addfile_copy_loop_returns a4 a1 a2 a3 a5 a6 a7 a8) as [[[r7 w7] v7] ->]
  end.
  - done.
  - lia.
  - destruct (r7 <? 0); by eexists.
Qed.

(** Digest strings: parsing what [hash_unparse] prints gives the digest
    back. *)
Lemma hex_byte_roundtrip b :
  hex_val (hex_digit (Byte.to_N b / 16)) = Some (Byte.to_N b / 16)%N /\
  hex_val (hex_digit (Byte.to_N b mod 16)) = Some (Byte.to_N b mod 16)%N /\
  Byte.of_N (16 * (Byte.to_N b / 16) + Byte.to_N b mod 16) = Some b.
Proof. destruct b; vm_compute; repeat split; reflexivity. Qed.

Lemma hex_bytes_unparse h : hex_bytes (hash_unparse_bytes h) = Some h.
Proof.
  induction h as [|b h IH]; [done|].
  cbn [hash_unparse_bytes hex_bytes].
  destruct (hex_byte_roundtrip b) as (-> & -> & ->). by rewrite IH.
Qed.

Lemma hash_parse_unparse h : hash_parse (hash_unparse h (length h)) (length h) = Some h.
Proof.
  unfold hash_parse, hash_unparse. rewrite firstn_all, hex_bytes_unparse.
  by rewrite Nat.eqb_refl.
Qed.

(** ** The bytes that are hashed *)

Lemma DIV_ROUND_UP_bounds n d :
  0 < d -> 0 <= n -> n + d - 1 < 2 ^ 64 ->
  (DIV_ROUND_UP n d - 1) * d < n + (if n =? 0 then 1 else 0) /\
  n <= DIV_ROUND_UP n d * d.
Proof.
  intros Hd Hn Hb. unfold DIV_ROUND_UP, u64. rewrite Z.mod_small by lia.
  pose proof (Z.div_mod (n + d - 1) d ltac:(lia)) as Hdm.
  pose proof (Z.mod_pos_bound (n + d - 1) d Hd) as Hm.
  destruct (Z.eqb_spec n 0); nia.
Qed.

(** What the hashing loop feeds to mhash when it runs to its end: from
    round [c] on, [n - 1] full chunks and then [fsize % chunksize] bytes. *)
Lemma addfile_hash_loop_fed n : forall c csize fsize w v fd tmp td td' w' fd' tmp',
  0 < chunksize v < 2 ^ 31 -> length tmp = Z.to_nat (chunksize v) ->
  Z.of_nat n = csize - c -> 0 <= c -> csize < 2 ^ 64 ->
  fsize - c * chunksize v
  <= Z.of_nat (length (drop (fd_pos fd) (f_data (fd_file fd)))) ->
  (csize - 1) * chunksize v < fsize <= csize * chunksize v ->
  addfile_hash_loop n c csize fsize w v fd tmp td = (inr td', w', fd', tmp') ->
  td' = td ++ take (Z.to_nat (if (n =? 0)%nat then 0
                              else (Z.of_nat n - 1) * chunksize v
                                   + fsize mod chunksize v))
                (drop (fd_pos fd) (f_data (fd_file fd))).
Proof.
  induction n as [|n IH];
    intros c csize fsize w v fd tmp td td' w' fd' tmp' Hcs Htmp Hn Hc Hcsz Hrem Hceil H.
  - simpl in H. inversion H; subst. simpl. by rewrite app_nil_r.
  - cbn [addfile_hash_loop] in H.
    set (data := drop (fd_pos fd) (f_data (fd_file fd))) in *.
    assert (Hu : u64 (csize - 1) = csize - 1) by (unfold u64; apply Z.mod_small; lia).
    rewrite Hu in H.
    pose proof (Z.mod_pos_bound fsize (chunksize v) ltac:(lia)) as Hm.
    pose proof (Z.div_mod fsize (chunksize v) ltac:(lia)) as Hdm.
    set (rlen := if c =? csize - 1 then fsize mod chunksize v else chunksize v) in *.
    assert (Hrl : 0 <= rlen <= Z.of_nat (length data) /\ rlen <= chunksize v).
    { unfold rlen. destruct (Z.eqb_spec c (csize - 1)); [|nia].
      subst c. split; [|lia]. split; [lia|].
      assert (fsize / chunksize v = csize - 1 \/ fsize / chunksize v = csize) as [Hq|Hq]
        by nia; nia. }
    unfold read in H. fold data in H.
    destruct (libcall w) as [ok w1]. destruct ok; [|done].
    set (got := take (Z.to_nat rlen) data) in *.
    assert (Hgot : length got = Z.to_nat rlen) by (unfold got; rewrite length_take; lia).
    rewrite Hgot in H. rewrite int32_small in H by lia.
    destruct (Z.ltb_spec (Z.of_nat (Z.to_nat rlen)) 0); [lia|].
    destruct (read_cancel w1) as [cn w2]. destruct cn; [done|].
    assert (Hfeed : take (Z.to_nat rlen) (got ++ drop (Z.to_nat rlen) tmp) = got).
    { by rewrite take_app_length'. }
    rewrite Hfeed in H.
    apply IH in H; cbn [fd_pos fd_file]; try done; try lia.
    3:{ rewrite <- drop_drop. fold data. rewrite length_drop.
        unfold rlen in *. destruct (Z.eqb_spec c (csize - 1)); nia. }
    2:{ rewrite length_app, length_drop, Hgot. lia. }
    rewrite H, <- app_assoc. f_equal. cbn [fd_pos fd_file f_data].
    rewrite <- drop_drop. fold data. unfold got.
    destruct n as [|n].
    + simpl. rewrite app_nil_r. f_equal. unfold rlen.
      destruct (Z.eqb_spec c (csize - 1)); lia.
    + change (S (S n) =? 0)%nat with false. change (S n =? 0)%nat with false.
      cbn match.
      assert (Hrc : rlen = chunksize v).
      { unfold rlen. destruct (Z.eqb_spec c (csize - 1)); lia. }
      rewrite Hrc, take_take_drop. f_equal. lia.
Qed.

(** In full, for a file of [fsize > 0] bytes: the loop feeds the file
    without its last chunk when [fsize] is a multiple of the chunk size,
    and the whole file otherwise. *)
Lemma addfile_hashed_bytes w v f tmp td w' fd' tmp' :
  0 < chunksize v < 2 ^ 31 -> length tmp = Z.to_nat (chunksize v) ->
  0 < Z.of_nat (length (f_data f)) < 2 ^ 63 ->
  let fsize := Z.of_nat (length (f_data f)) in
  let csize := DIV_ROUND_UP fsize (chunksize v) in
  addfile_hash_loop (Z.to_nat csize) 0 csize fsize w v
    {| fd_file := f; fd_pos := 0 |} tmp [] = (inr td, w', fd', tmp') ->
  td = take (Z.to_nat (fsize - (if fsize mod chunksize v =? 0
                                then chunksize v else 0))) (f_data f).
Proof.
  intros Hcs Htmp Hsz fsize csize H.
  destruct (DIV_ROUND_UP_bounds fsize (chunksize v)) as [Hlo Hhi]; try lia.
  fold csize in Hlo, Hhi.
  destruct (Z.eqb_spec fsize 0) as [|_]; [lia|].
  assert (Hcpos : 0 < csize) by nia.
  apply addfile_hash_loop_fed in H; cbn [fd_pos fd_file]; try done; try lia.
  2:{ rewrite drop_0. fold fsize. lia. }
  rewrite drop_0 in H. simpl in H. rewrite H. f_equal.
  destruct (Nat.eqb_spec (Z.to_nat csize) 0); [lia|].
  rewrite Z2Nat.id by lia.
  pose proof (Z.mod_pos_bound fsize (chunksize v) ltac:(lia)) as Hm.
  pose proof (Z.div_mod fsize (chunksize v) ltac:(lia)) as Hdm.
  f_equal.
  destruct (Z.eqb_spec (fsize mod chunksize v) 0) as [H0|H0].
  - rewrite H0 in *.
    assert (fsize / chunksize v = csize) by nia. nia.
  - assert (fsize / chunksize v = csize - 1) by nia. nia.
Qed.

(** ** The default object *)

(** [actn_cleardefault] without a default changes nothing and succeeds. *)
Lemma actn_cleardefault_noop v :
  def_bentry v = None -> actn_cleardefault v = (0, v).
Proof. unfold actn_cleardefault. by intros ->. Qed.

(** [actn_cleardefault] leaves no reference behind. *)
Lemma actn_cleardefault_clears v :
  (actn_cleardefault v).1 = 0 /\ def_bentry (actn_cleardefault v).2 = None.
Proof.
  unfold actn_cleardefault. destruct (def_bentry v) eqn:E; simpl; by split.
Qed.

(** A successful [actn_setdefault] clears the flag of the previous default
    first, then sets the flag of the target and refers to it. *)
Lemma actn_setdefault_sets w v t h b :
  hash_parse (path t) (hlen v) = Some h ->
  shfs_btable_lookup (vol_bt v) h = Some b ->
  let v0 := (actn_cleardefault v).2 in
  actn_setdefault w v t
  = (0, w, set_def_bentry (bentry_setflags v0 (bentry_of v0 b) SHFS_EFLAG_DEFAULT)
             (Some b)).
Proof. intros Hp Hl. unfold actn_setdefault. by rewrite Hp, Hl. Qed.

(** ** The outcomes of add *)

Lemma release_commit v a t b e st c l :
  (shfs_alist_unregister a c l).2 = vol_al v ->
  release_container (set_s (commit_entry (set_al v a) t b e) st) c l
  = set_s (commit_entry v t b e) st.
Proof.
  intros H. unfold release_container, commit_entry. cbn. rewrite H.
  by destruct v.
Qed.

(** The three ways [actn_addfile] can end.  Either it fails with the
    volume unchanged; or it has committed an entry for the digest and copied
    the file, and succeeds; or it has committed the entry, failed afterwards
    and released the container: the entry is then in the bucket table and in
    the chunk cache while the allocator is the one before the call. *)
Lemma addfile_outcomes w v j ret w' v' :
  alist_wf (vol_al v) = true -> 0 < chunksize v ->
  actn_addfile w v j = Some (ret, w', v') ->
  (ret < 0 /\ v' = v) \/
  exists f h t b e st,
    w_files w !! path j = Some f /\
    let csize := DIV_ROUND_UP (Z.of_nat (length (f_data f))) (chunksize v) in
    let cchk := shfs_alist_find_free (vol_al v) csize in
    0 < csize /\ cchk <> 0 /\
    shfs_btable_lookup (vol_bt v) h = None /\
    shfs_btable_addentry (vol_bt v) h = Some (t, b) /\
    he_hash e = h /\ he_chunk e = cchk /\ he_offset e = 0 /\
    he_len e = Z.of_nat (length (f_data f)) /\
    ((ret = 0 /\
      v' = set_s (commit_entry
                    (set_al v (shfs_alist_register (vol_al v) cchk csize).2)
                    t b e) st)
     \/ ((ret = -1 \/ ret = -2) /\ v' = set_s (commit_entry v t b e) st)).
Proof.
  intros Hwf Hcs H. unfold actn_addfile in H.
  destruct (w_files w !! path j) as [f|] eqn:Ef.
  2:{ inversion H; subst. left. split; [lia|done]. }
  remember (DIV_ROUND_UP (Z.of_nat (length (f_data f))) (chunksize v)) as csize eqn:Ecs.
  remember (shfs_alist_find_free (vol_al v) csize) as cchk eqn:Ecchk.
  assert (Hcsize : 0 <= csize) by (subst csize; by apply DIV_ROUND_UP_nonneg).
  destruct (libcall w) as [ok w1] eqn:E1.
  destruct ok; cbn [negb] in H.
  2:{ inversion H; subst. left. split; [lia|done]. }
  destruct (f_regular f); cbn [negb] in H.
  2:{ inversion H; subst. left. split; [lia|done]. }
  destruct ((cchk =? 0) || (volsize v <=? cchk)) eqn:Eno.
  { inversion H; subst. left. split; [lia|done]. }
  apply orb_false_iff in Eno as [Hc0 _]. apply Z.eqb_neq in Hc0.
  assert (Hcpos : 0 < csize).
  { destruct (Z.eq_dec csize 0) as [Hz|]; [|lia].
    rewrite Hz in Ecchk. by rewrite find_free_zero in Ecchk. }
  assert (Hrel : release_container
            (set_al v (shfs_alist_register (vol_al v) cchk csize).2) cchk csize = v).
  { subst cchk. by apply release_reserved. }
  assert (Hunreg : (shfs_alist_unregister
                      (shfs_alist_register (vol_al v) cchk csize).2 cchk csize).2
                   = vol_al v).
  { subst cchk. by apply reserve_release. }
  set (vr := set_al v (shfs_alist_register (vol_al v) cchk csize).2) in *.
  destruct (malloc w1 (chunksize vr)) as [[tmp|] w2] eqn:E2.
  2:{ inversion H; subst. left. rewrite Hrel. split; [lia|done]. }
  destruct (libcall w2) as [ok3 w3] eqn:E3.
  destruct ok3; cbn [negb] in H.
  2:{ inversion H; subst. left. rewrite Hrel. split; [lia|done]. }
  destruct (lseek0 w3 _) as [[ok4 w4] fd4] eqn:E4.
  destruct ok4; cbn [negb] in H.
  2:{ inversion H; subst. left. rewrite Hrel. split; [lia|done]. }
  destruct (addfile_hash_loop _ _ _ _ _ _ _ _ _) as [[[r5 w5] fd5] tmp5] eqn:E5.
  destruct r5 as [ret5|td].
  { apply addfile_hash_loop_stderr in E5.
    inversion H; subst. left. rewrite Hrel. split; [|done].
    destruct E5 as [[? _]|[? _]]; lia. }
  set (h := take (hlen vr) (mhash_digest td)) in *.
  destruct (shfs_btable_lookup (vol_bt vr) h) as [b0|] eqn:El.
  { inversion H; subst. left. rewrite Hrel. split; [lia|done]. }
  destruct (shfs_btable_addentry (vol_bt vr) h) as [[t b]|] eqn:Ea.
  2:{ inversion H; subst. left. rewrite Hrel. split; [lia|done]. }
  right.
  set (e := new_hentry w5 j h cchk (Z.of_nat (length (f_data f)))) in *.
  change (mark_modified
            (set_hentry (set_bt vr t) (bentry_of (set_bt vr t) b) e)
            (hentry_htchunk (bentry_of (set_bt vr t) b)))
    with (commit_entry vr t b e) in H.
  destruct (lseek0 w5 fd5) as [[ok6 w6] fd6] eqn:E6.
  destruct ok6; cbn [negb] in H.
  2:{ inversion H; subst. exists f, h, t, b, e, (vol_s v).
      repeat (split; [done|]). right. split; [by left|].
      rewrite <- (release_commit v _ t b e (vol_s v) _ _ Hunreg).
      subst vr. by destruct v. }
  destruct (addfile_copy_loop _ _ _ _ _ _ _ _) as [[[r7 w7] v7]|] eqn:E7; [|done].
  apply addfile_copy_loop_vol in E7 as ([st ->] & Hr7 & _).
  exists f, h, t, b, e, st. cbv zeta. rewrite <- Ecs, <- Ecchk.
  repeat (split; [done|]).
  destruct (Z.ltb_spec r7 0).
  - inversion H; subst. right. split; [lia|]. subst vr. by apply release_commit.
  - inversion H; subst. left. done.
Qed.

(** After the third way the container of the committed entry is not
    registered: the entry sits in the chunk cache with a range that the
    allocator holds free. *)
Lemma free_range_not_registered rs s l :
  0 < l -> Forall (fun r => 0 < r.2) rs ->
  range_free rs s l -> range_registered rs s l = false.
Proof.
  intros Hl Hpos Hfree. unfold range_registered.
  destruct (Z.eqb_spec l 0); [lia|]. simpl.
  induction rs as [|r rs IH]; [done|].
  inversion Hpos; subst. inversion Hfree; subst. simpl.
  rewrite IH by done. rewrite orb_false_r.
  apply andb_false_iff.
  destruct (Z.leb_spec r.1 s); [|by left]. right.
  apply Z.leb_gt. lia.
Qed.

Lemma addfile_late_failure_unregistered w v j ret w' v' :
  vol_wf v = true ->
  (forall f, w_files w !! path j = Some f ->
             Z.of_nat (length (f_data f)) < 2 ^ 63) ->
  actn_addfile w v j = Some (ret, w', v') -> ret < 0 -> v' <> v ->
  exists h b,
    shfs_btable_lookup (vol_bt v) h = None /\
    shfs_btable_lookup (vol_bt v') h = Some b /\
    he_hash (hentry_of v' (bentry_of v' b)) = h /\
    vol_al v' = vol_al v /\
    entry_registered v' (hentry_of v' (bentry_of v' b)) = false.
Proof.
  intros Hvwf Hsize H Hret Hne.
  destruct (vol_wf_facts v Hvwf) as (Hcs & Hvs & Hal & Hnb & Hslots & Hplaces).
  destruct (addfile_outcomes _ _ _ _ _ _ Hal ltac:(lia) H)
    as [[_ ?]|(f & h & t & b & e & st & Hf & Hcp & Hc0 & Hl & Ha & Hh & Hchk & Hoff
               & Hlen & Hcase)]; [done|].
  destruct Hcase as [[? _]|[_ ->]]; [lia|].
  destruct (lookup_after_addentry _ _ _ _ Hnb Hslots Hl Ha) as (Hlook & Hb & Ht).
  set (be := bentry_of (set_bt v t) b).
  assert (Hpv : place_valid (set_bt v t) be = true).
  { unfold be, bentry_of. cbn [vol_bt set_bt]. rewrite Ht. cbn [bt_slots set_slots].
    rewrite list_lookup_alter_eq.
    destruct (lookup_lt_is_Some_2 (bt_slots (vol_bt v)) b Hb) as [be0 Hbe0].
    rewrite Hbe0. simpl. rewrite forallb_forall in Hplaces.
    assert (Hin : In be0 (bt_slots (vol_bt v))).
    { apply list_elem_of_In. eapply list_elem_of_lookup_2. exact Hbe0. }
    apply Hplaces in Hin. exact Hin. }
  assert (He : hentry_of (set_s (commit_entry v t b e) st)
                 (bentry_of (set_s (commit_entry v t b e) st) b) = e).
  { change (bentry_of (set_s (commit_entry v t b e) st) b) with be.
    apply (hentry_of_set_hentry (set_bt v t) be e Hpv). }
  exists h, b. rewrite He.
  split; [done|]. split; [exact Hlook|]. split; [done|]. split; [done|].
  unfold entry_registered, container_size. cbn [vol_al set_s commit_entry chunksize
    mark_modified set_cache_state set_hentry set_cache set_bt].
  rewrite Hchk, Hoff, Hlen. rewrite Z.add_0_l.
  set (csize := DIV_ROUND_UP (Z.of_nat (length (f_data f))) (chunksize v)) in *.
  assert (Hu : DIV_ROUND_UP (u64 (Z.of_nat (length (f_data f)))) (chunksize v) = csize).
  { unfold csize. f_equal. unfold u64. apply Z.mod_small.
    specialize (Hsize f Hf). lia. }
  rewrite Hu.
  destruct (find_free_free (vol_al v) csize _ Hal Hcp eq_refl Hc0) as (_ & _ & Hfree).
  apply free_range_not_registered; [done| |done].
  apply ranges_wf_lower in Hal. eapply Forall_impl; [exact Hal|].
  intros r. simpl. lia.
Qed.

(* ------------------------------------------------------------------ *)
(** * Further properties of the mounted volume and its actions *)

(** ** The allocator keeps its range list well formed *)

Lemma ranges_wf_weaken lo lo' rs :
  lo' <= lo -> ranges_wf lo rs = true -> ranges_wf lo' rs = true.
Proof.
  destruct rs as [|[s l] rest]; [done|]. simpl. intros Hlo H. zbool.
  repeat (apply andb_true_iff; split); [apply Z.leb_le; lia|by apply Z.ltb_lt|done].
Qed.

Lemma ranges_wf_intro lo s l rest :
  lo <= s -> 0 < l -> ranges_wf (s + l) rest = true ->
  ranges_wf lo ((s, l) :: rest) = true.
Proof.
  intros. simpl. repeat (apply andb_true_iff; split);
    [by apply Z.leb_le|by apply Z.ltb_lt|done].
Qed.

Lemma range_insert_wf rs : forall lo s l rs',
  ranges_wf lo rs = true -> lo <= s -> 0 < l ->
  range_insert rs s l = Some rs' -> ranges_wf lo rs' = true.
Proof.
  induction rs as [|[s0 l0] rest IH]; intros lo s l rs' Hwf Hlo Hl Hi.
  - inversion Hi; subst. by apply ranges_wf_intro.
  - apply ranges_wf_cons in Hwf as (Hlo0 & Hl0 & Hrest).
    cbn [range_insert] in Hi.
    destruct (Z.ltb_spec (s + l) s0).
    { inversion Hi; subst. apply ranges_wf_intro; [done|done|].
      apply ranges_wf_intro; [lia|done|done]. }
    destruct (Z.eqb_spec (s + l) s0).
    { inversion Hi; subst. apply ranges_wf_intro; [done|lia|].
      by replace (s + (l + l0)) with (s + l + l0) by lia. }
    destruct (Z.ltb_spec (s0 + l0) s).
    { destruct (range_insert rest s l) as [rs1|] eqn:E1; [|done].
      inversion Hi; subst. apply ranges_wf_intro; [done|done|].
      apply (IH (s0 + l0) s l rs1 Hrest); [lia|done|done]. }
    destruct (Z.eqb_spec (s0 + l0) s); [|done].
    destruct rest as [|[s1 l1] rest'].
    { inversion Hi; subst. apply ranges_wf_intro; [done|lia|done]. }
    apply ranges_wf_cons in Hrest as (Hs1 & Hl1 & Hrest').
    destruct (Z.ltb_spec (s + l) s1).
    { inversion Hi; subst. apply ranges_wf_intro; [done|lia|].
      apply ranges_wf_intro; [lia|done|done]. }
    destruct (Z.eqb_spec (s + l) s1); [|done].
    inversion Hi; subst. apply ranges_wf_intro; [done|lia|].
    by replace (s0 + (l0 + l + l1)) with (s0 + l0 + l + l1) by lia.
Qed.

Lemma range_remove_wf rs : forall lo s l rs',
  ranges_wf lo rs = true -> 0 < l ->
  range_remove rs s l = Some rs' -> ranges_wf lo rs' = true.
Proof.
  induction rs as [|[s0 l0] rest IH]; intros lo s l rs' Hwf Hl Hr; [done|].
  apply ranges_wf_cons in Hwf as (Hlo0 & Hl0 & Hrest).
  cbn [range_remove] in Hr.
  destruct (Z.leb_spec (s0 + l0) s).
  { destruct (range_remove rest s l) as [rs1|] eqn:E1; [|done].
    inversion Hr; subst. apply ranges_wf_intro; [done|done|].
    by eapply IH. }
  destruct ((s0 <=? s) && (s + l <=? s0 + l0)) eqn:Ein; [|done].
  zbool. inversion Hr; subst; clear Hr.
  destruct (Z.ltb_spec s0 s); destruct (Z.ltb_spec (s + l) (s0 + l0)); cbn [app].
  - apply ranges_wf_intro; [done|lia|].
    apply ranges_wf_intro; [lia|lia|].
    by replace (s + l + (s0 + l0 - (s + l))) with (s0 + l0) by lia.
  - apply ranges_wf_intro; [done|lia|].
    eapply ranges_wf_weaken; [|exact Hrest]. lia.
  - apply ranges_wf_intro; [lia|lia|].
    by replace (s + l + (s0 + l0 - (s + l))) with (s0 + l0) by lia.
  - eapply ranges_wf_weaken; [|exact Hrest]. lia.
Qed.

Lemma register_wf al s l :
  alist_wf al = true -> 0 <= s -> 0 <= l ->
  alist_wf (shfs_alist_register al s l).2 = true.
Proof.
  intros Hwf Hs Hl. unfold shfs_alist_register.
  destruct (Z.eqb_spec l 0); [done|].
  destruct (range_insert (al_ranges al) s l) as [rs|] eqn:Ei; [|done].
  simpl. unfold alist_wf. cbn [al_ranges set_ranges].
  apply (range_insert_wf _ 0 s l rs Hwf); [lia|lia|exact Ei].
Qed.

Lemma unregister_wf al s l :
  alist_wf al = true -> 0 <= l ->
  alist_wf (shfs_alist_unregister al s l).2 = true.
Proof.
  intros Hwf Hl. unfold shfs_alist_unregister.
  destruct (Z.eqb_spec l 0); [done|].
  destruct (range_remove (al_ranges al) s l) as [rs|] eqn:Er; [|done].
  simpl. unfold alist_wf. cbn [al_ranges set_ranges].
  apply (range_remove_wf _ 0 s l rs Hwf); [lia|exact Er].
Qed.

(** ** The actions keep the volume well formed *)

Lemma vol_wf_intro v :
  0 < chunksize v < 2 ^ 31 -> 0 <= volsize v < 2 ^ 63 ->
  alist_wf (vol_al v) = true ->
  (0 < bt_nb_buckets (vol_bt v))%nat ->
  length (bt_slots (vol_bt v))
  = (bt_nb_buckets (vol_bt v) * bt_entries_per_bucket (vol_bt v))%nat ->
  forallb (place_valid v) (bt_slots (vol_bt v)) = true ->
  vol_wf v = true.
Proof.
  intros [? ?] [? ?] Hal Hnb Hlen Hpl. unfold vol_wf.
  repeat (apply andb_true_iff; split); try done;
    try (apply Z.ltb_lt; lia); try (apply Z.leb_le; lia).
  - by apply Nat.ltb_lt.
  - by apply Nat.eqb_eq.
Qed.

Lemma place_valid_set_hentry v be e be' :
  place_valid (set_hentry v be e) be' = place_valid v be'.
Proof.
  unfold place_valid, set_hentry. cbn [htable_chunk_cache set_cache].
  destruct (decide (hentry_htchunk be' = hentry_htchunk be)) as [->|Hne].
  - rewrite list_lookup_alter_eq.
    destruct (htable_chunk_cache v !! hentry_htchunk be) as [buf|]; [|done].
    simpl. by rewrite length_insert.
  - by rewrite list_lookup_alter_ne.
Qed.

(** Well-formedness only looks at the geometry, the allocator, the bucket
    table and the lengths of the cached chunks. *)
Lemma vol_wf_update v v' :
  vol_wf v = true ->
  chunksize v' = chunksize v -> volsize v' = volsize v ->
  alist_wf (vol_al v') = true ->
  bt_nb_buckets (vol_bt v') = bt_nb_buckets (vol_bt v) ->
  bt_entries_per_bucket (vol_bt v') = bt_entries_per_bucket (vol_bt v) ->
  map (fun be => (hentry_htchunk be, hentry_htoffset be)) (bt_slots (vol_bt v'))
  = map (fun be => (hentry_htchunk be, hentry_htoffset be)) (bt_slots (vol_bt v)) ->
  (forall be, place_valid v' be = place_valid v be) ->
  vol_wf v' = true.
Proof.
  intros Hwf Hcs Hvs Hal Hnb Hepb Hpl Hpv.
  destruct (vol_wf_facts v Hwf) as (Hc & Hv & _ & Hn & Hlen & Hplaces).
  apply vol_wf_intro; try congruence; try lia.
  - rewrite Hnb, Hepb, <- Hlen.
    rewrite <- (length_map (fun be => (hentry_htchunk be, hentry_htoffset be))), Hpl.
    by rewrite length_map.
  - apply forallb_forall. intros be Hin.
    assert (Hin' : In (hentry_htchunk be, hentry_htoffset be)
                     (map (fun be => (hentry_htchunk be, hentry_htoffset be))
                        (bt_slots (vol_bt v)))).
    { rewrite <- Hpl. by apply (in_map (fun be => (hentry_htchunk be, hentry_htoffset be))). }
    apply in_map_iff in Hin' as (be0 & Heq & Hin0).
    rewrite forallb_forall in Hplaces. specialize (Hplaces be0 Hin0).
    assert (Hc0 : hentry_htchunk be0 = hentry_htchunk be) by (by inversion Heq).
    assert (Ho0 : hentry_htoffset be0 = hentry_htoffset be) by (by inversion Heq).
    rewrite Hpv. unfold place_valid in *. by rewrite <- Hc0, <- Ho0.
Qed.

Lemma places_alter_hash h b sl :
  map (fun be => (hentry_htchunk be, hentry_htoffset be)) (alter (set_be_hash h) b sl)
  = map (fun be => (hentry_htchunk be, hentry_htoffset be)) sl.
Proof.
  revert b. induction sl as [|be sl IH]; intros [|b]; simpl; try done.
  f_equal. apply IH.
Qed.

(** The run of a successful [actn_addfile], step by step: the container
    found and reserved, the bytes hashed, the slot taken, the entry
    written, the copy. *)
Lemma addfile_success_trace w v j w' v' :
  alist_wf (vol_al v) = true -> 0 < chunksize v ->
  actn_addfile w v j = Some (0, w', v') ->
  exists f tmp w4 td w5 fd5 tmp5 t b w6 fd6,
    w_files w !! path j = Some f /\ f_regular f = true /\
    let fsize := Z.of_nat (length (f_data f)) in
    let csize := DIV_ROUND_UP fsize (chunksize v) in
    let cchk := shfs_alist_find_free (vol_al v) csize in
    let vr := set_al v (shfs_alist_register (vol_al v) cchk csize).2 in
    let h := take (hlen v) (mhash_digest td) in
    let vc := commit_entry vr t b (new_hentry w5 j h cchk fsize) in
    0 < csize /\ cchk <> 0 /\ cchk < volsize v /\
    length tmp = Z.to_nat (chunksize v) /\
    addfile_hash_loop (Z.to_nat csize) 0 csize fsize w4 vr
      {| fd_file := f; fd_pos := 0 |} tmp [] = (inr td, w5, fd5, tmp5) /\
    shfs_btable_lookup (vol_bt v) h = None /\
    shfs_btable_addentry (vol_bt v) h = Some (t, b) /\
    fd_file fd6 = f /\ fd_pos fd6 = 0%nat /\
    addfile_copy_loop (S (Z.to_nat fsize)) fsize 0 cchk w6 vc fd6 tmp5
    = Some (0, w', v').
Proof.
  intros Hwf Hcs H. unfold actn_addfile in H.
  destruct (w_files w !! path j) as [f|] eqn:Ef; [|done].
  remember (DIV_ROUND_UP (Z.of_nat (length (f_data f))) (chunksize v)) as csize eqn:Ecs.
  remember (shfs_alist_find_free (vol_al v) csize) as cchk eqn:Ecchk.
  destruct (libcall w) as [ok w1] eqn:E1.
  destruct ok; cbn [negb] in H; [|done].
  destruct (f_regular f) eqn:Ereg; cbn [negb] in H; [|done].
  destruct ((cchk =? 0) || (volsize v <=? cchk)) eqn:Eno; [done|].
  apply orb_false_iff in Eno as [Hc0 Hcv].
  apply Z.eqb_neq in Hc0. apply Z.leb_gt in Hcv.
  assert (Hcpos : 0 < csize).
  { assert (0 <= csize) by (subst csize; by apply DIV_ROUND_UP_nonneg).
    destruct (Z.eq_dec csize 0) as [Hz|]; [|lia].
    rewrite Hz in Ecchk. by rewrite find_free_zero in Ecchk. }
  set (vr := set_al v (shfs_alist_register (vol_al v) cchk csize).2) in *.
  unfold malloc in H.
  destruct (libcall w1) as [ok2 w2] eqn:E2.
  destruct ok2; [|done].
  destruct (libcall w2) as [ok3 w3] eqn:E3.
  destruct ok3; cbn [negb] in H; [|done].
  unfold lseek0 at 1 in H.
  destruct (libcall w3) as [ok4 w4] eqn:E4.
  destruct ok4; cbn [negb] in H; [|done].
  cbn [fd_file] in H.
  destruct (addfile_hash_loop _ _ _ _ _ _ _ _ _) as [[[r5 w5] fd5] tmp5] eqn:E5.
  destruct r5 as [ret5|td].
  { apply addfile_hash_loop_stderr in E5. inversion H; subst.
    destruct E5 as [[? _]|[? _]]; lia. }
  destruct (shfs_btable_lookup (vol_bt vr) _) as [b0|] eqn:El; [done|].
  destruct (shfs_btable_addentry (vol_bt vr) _) as [[t b]|] eqn:Ea; [|done].
  unfold lseek0 in H.
  destruct (libcall w5) as [ok6 w6] eqn:E6.
  destruct ok6; cbn [negb] in H; [|done].
  destruct (addfile_copy_loop _ _ _ _ _ _ _ _) as [[[r7 w7] v7]|] eqn:E7; [|done].
  pose proof (addfile_copy_loop_vol _ _ _ _ _ _ _ _ _ _ _ E7) as (_ & Hr7 & _).
  destruct (Z.ltb_spec r7 0); [inversion H; lia|].
  assert (r7 = 0) by lia. subst r7. inversion H; subst w7 v7; clear H.
  exists f, (replicate (Z.to_nat (chunksize vr)) (w_junk w2)), w4, td, w5, fd5,
    tmp5, t, b, w6, {| fd_file := fd_file fd5; fd_pos := 0 |}.
  cbv zeta. rewrite <- Ecs, <- Ecchk.
  repeat (split; [done|]).
  split; [by rewrite length_replicate|].
  split; [exact E5|]. split; [exact El|]. split; [exact Ea|].
  split; [by apply addfile_hash_loop_fd in E5|].
  split; [done|]. exact E7.
Qed.

(** What [actn_addfile] does to the storage: nothing, or what its copy
    loop does, started on the storage as it was. *)
Lemma addfile_storage w v j ret w' v' :
  alist_wf (vol_al v) = true -> 0 < chunksize v ->
  actn_addfile w v j = Some (ret, w', v') ->
  vol_s v' = vol_s v \/
  exists f w6 fd6 tmp5 vc r7 w7 v7,
    w_files w !! path j = Some f /\
    let fsize := Z.of_nat (length (f_data f)) in
    let csize := DIV_ROUND_UP fsize (chunksize v) in
    let cchk := shfs_alist_find_free (vol_al v) csize in
    0 < csize /\ cchk <> 0 /\ cchk < volsize v /\
    vol_s vc = vol_s v /\ chunksize vc = chunksize v /\ volsize vc = volsize v /\
    addfile_copy_loop (S (Z.to_nat fsize)) fsize 0 cchk w6 vc fd6 tmp5
    = Some (r7, w7, v7) /\
    vol_s v' = vol_s v7.
Proof.
  intros Hwf Hcs H.
  destruct (addfile_outcomes _ _ _ _ _ _ Hwf Hcs H)
    as [[_ ->]|(f0 & h0 & t0 & b0 & e0 & st0 & Hf0 & Hcp & Hc0 & _)]; [by left|].
  unfold actn_addfile in H. rewrite Hf0 in H.
  set (csize := DIV_ROUND_UP (Z.of_nat (length (f_data f0))) (chunksize v)) in *.
  set (cchk := shfs_alist_find_free (vol_al v) csize) in *.
  destruct (libcall w) as [ok w1] eqn:E1.
  destruct ok; cbn [negb] in H; [|inversion H; by left].
  destruct (f_regular f0); cbn [negb] in H; [|inversion H; by left].
  destruct ((cchk =? 0) || (volsize v <=? cchk)) eqn:Eno; [inversion H; by left|].
  apply orb_false_iff in Eno as [_ Hcv]. apply Z.leb_gt in Hcv.
  set (vr := set_al v (shfs_alist_register (vol_al v) cchk csize).2) in *.
  destruct (malloc w1 (chunksize vr)) as [[tmp|] w2] eqn:E2; [|inversion H; by left].
  destruct (libcall w2) as [ok3 w3] eqn:E3.
  destruct ok3; cbn [negb] in H; [|inversion H; by left].
  destruct (lseek0 w3 _) as [[ok4 w4] fd4] eqn:E4.
  destruct ok4; cbn [negb] in H; [|inversion H; by left].
  destruct (addfile_hash_loop _ _ _ _ _ _ _ _ _) as [[[r5 w5] fd5] tmp5] eqn:E5.
  destruct r5 as [ret5|td]; [inversion H; by left|].
  destruct (shfs_btable_lookup (vol_bt vr) _) as [b1|] eqn:El; [inversion H; by left|].
  destruct (shfs_btable_addentry (vol_bt vr) _) as [[t b]|] eqn:Ea;
    [|inversion H; by left].
  destruct (lseek0 w5 fd5) as [[ok6 w6] fd6] eqn:E6.
  destruct ok6; cbn [negb] in H; [|inversion H; by left].
  destruct (addfile_copy_loop _ _ _ _ _ _ _ _) as [[[r7 w7] v7]|] eqn:E7; [|done].
  right. eexists f0, w6, fd6, tmp5, _, r7, w7, v7. cbv zeta.
  split; [done|]. split; [exact Hcp|]. split; [exact Hc0|]. split; [exact Hcv|].
  split; [|split; [|split; [|split; [exact E7|]]]]; try done.
  destruct (r7 <? 0); by inversion H.
Qed.

Lemma commit_entry_wf v a h t b e st :
  vol_wf v = true -> alist_wf a = true ->
  t = set_slots (vol_bt v) (alter (set_be_hash h) b (bt_slots (vol_bt v))) ->
  vol_wf (set_s (commit_entry (set_al v a) t b e) st) = true.
Proof.
  intros Hwf Ha ->. apply (vol_wf_update v); try done.
  - apply places_alter_hash.
  - intros be. unfold commit_entry.
    change (place_valid (set_s (mark_modified ?x ?c) st) be) with (place_valid x be).
    by rewrite place_valid_set_hentry.
Qed.

Lemma flags_update_wf v be e :
  vol_wf v = true -> vol_wf (mark_modified (set_hentry v be e) (hentry_htchunk be)) = true.
Proof.
  intros Hwf. apply (vol_wf_update v); try done.
  - by destruct (vol_wf_facts v Hwf) as (_ & _ & ? & _).
  - intros be'.
    change (place_valid (mark_modified ?x ?c) be') with (place_valid x be').
    by rewrite place_valid_set_hentry.
Qed.

Lemma set_def_bentry_wf v d : vol_wf (set_def_bentry v d) = vol_wf v.
Proof. done. Qed.

Lemma actn_addfile_wf w v j ret w' v' :
  vol_wf v = true -> actn_addfile w v j = Some (ret, w', v') -> vol_wf v' = true.
Proof.
  intros Hwf H.
  destruct (vol_wf_facts v Hwf) as (Hcs & Hvs & Hal & Hnb & Hlen & Hpl).
  destruct (addfile_outcomes _ _ _ _ _ _ Hal ltac:(lia) H)
    as [[_ ->]|(f & h & t & b & e & st & Hf & Hcp & Hc0 & Hl & Ha & _ & _ & _ & _
                & Hcase)]; [done|].
  destruct (lookup_after_addentry _ _ _ _ Hnb Hlen Hl Ha) as (_ & _ & Ht).
  destruct (find_free_free (vol_al v) _ _ Hal Hcp eq_refl Hc0) as (Hc2 & _ & _).
  destruct Hcase as [[_ ->]|[_ ->]].
  - eapply commit_entry_wf; [done| |exact Ht].
    apply register_wf; [done|lia|lia].
  - rewrite <- (set_al_back v (vol_al v)) at 1.
    change (set_al (set_al v (vol_al v)) (vol_al v)) with (set_al v (vol_al v)).
    eapply commit_entry_wf; [done|done|exact Ht].
Qed.

Lemma actn_rmfile_wf w v t ret w' v' :
  vol_wf v = true -> actn_rmfile w v t = (ret, w', v') -> vol_wf v' = true.
Proof.
  intros Hwf H.
  destruct (vol_wf_facts v Hwf) as (Hcs & Hvs & Hal & Hnb & Hlen & Hpl).
  unfold actn_rmfile in H.
  destruct (hash_parse (path t) (hlen v)) as [h|]; [|by inversion H; subst].
  destruct (shfs_btable_lookup (vol_bt v) h) as [b|] eqn:El; [|by inversion H; subst].
  destruct (shfs_alist_unregister _ _ _) as [r a] eqn:Eu.
  destruct (r <? 0); [by inversion H; subst|].
  inversion H; subst; clear H.
  apply (vol_wf_update v); try done.
  - change (alist_wf a = true).
    replace a with (shfs_alist_unregister (vol_al v)
                      (he_chunk (hentry_of v (bentry_of v b)))
                      (DIV_ROUND_UP
                         (u64 (he_len (hentry_of v (bentry_of v b))
                               + he_offset (hentry_of v (bentry_of v b))))
                         (chunksize v))).2 by (by rewrite Eu).
    apply unregister_wf; [done|]. apply DIV_ROUND_UP_nonneg. lia.
  - cbn. unfold shfs_btable_rmentry. rewrite El. done.
  - cbn. unfold shfs_btable_rmentry. rewrite El. done.
  - cbn. unfold shfs_btable_rmentry. rewrite El. cbn. apply places_alter_hash.
  - intros be'.
    change (place_valid (mark_modified ?x ?c) be') with (place_valid x be').
    by rewrite place_valid_set_hentry.
Qed.

Lemma actn_cleardefault_wf v :
  vol_wf v = true -> vol_wf (actn_cleardefault v).2 = true.
Proof.
  intros Hwf. unfold actn_cleardefault.
  destruct (def_bentry v) as [b|]; [|done].
  cbn [snd]. rewrite set_def_bentry_wf. by apply flags_update_wf.
Qed.

Lemma actn_setdefault_wf w v t ret w' v' :
  vol_wf v = true -> actn_setdefault w v t = (ret, w', v') -> vol_wf v' = true.
Proof.
  intros Hwf H. unfold actn_setdefault in H.
  destruct (hash_parse (path t) (hlen v)) as [h|]; [|by inversion H; subst].
  destruct (shfs_btable_lookup (vol_bt v) h) as [b|]; [|by inversion H; subst].
  inversion H; subst; clear H.
  rewrite set_def_bentry_wf. apply flags_update_wf.
  by apply actn_cleardefault_wf.
Qed.

Lemma actn_catfile_vol w v t ret w' v' :
  actn_catfile w v t = Some (ret, w', v') -> v' = v.
Proof.
  unfold actn_catfile. intros H.
  destruct (malloc w (chunksize v)) as [[buf|] w1]; [|by inversion H].
  destruct (hash_parse (path t) (hlen v)) as [h|]; [|by inversion H].
  destruct (shfs_btable_lookup (vol_bt v) h) as [b|]; [|by inversion H].
  destruct (catfile_loop _ _ _ _ _ _) as [[r w2]|]; [|done]. by inversion H.
Qed.

Lemma actn_info_vol w v ret w' v' : actn_info w v = (ret, w', v') -> v' = v.
Proof.
  unfold actn_info. intros H.
  repeat match type of H with
  | context [malloc ?a ?b] => destruct (malloc a b) as [? ?]
  | context [libcall ?a] => destruct (libcall a) as [[] ?]; cbn [negb] in H
  | context [sync_read_chunk ?a ?b ?c] => destruct (sync_read_chunk a b c) as [[? ?] ?]
  | context [?r <? 0] => destruct (r <? 0)
  end; by inversion H.
Qed.

(** Whatever a token does and however it ends, it leaves the volume well
    formed. *)
Lemma run_token_wf w v t ret w' v' :
  vol_wf v = true -> run_token w v t = Some (ret, w', v') -> vol_wf v' = true.
Proof.
  intros Hwf H. unfold run_token in H. destruct (action t).
  - by inversion H; subst.
  - by eapply actn_addfile_wf.
  - inversion H as [H1]. by eapply actn_rmfile_wf.
  - apply actn_catfile_vol in H. by subst.
  - inversion H as [H1]. by eapply actn_setdefault_wf.
  - destruct (actn_cleardefault v) as [r v1] eqn:Ec. inversion H; subst.
    pose proof (actn_cleardefault_wf v Hwf) as Hc. by rewrite Ec in Hc.
  - unfold actn_ls in H. by inversion H; subst.
  - inversion H as [H1]. apply actn_info_vol in H1. by subst.
Qed.

Lemma run_tokens_wf tokens : forall w v f rets w' v' f' rets',
  vol_wf v = true ->
  run_tokens tokens w v f rets = Some (w', v', f', rets') -> vol_wf v' = true.
Proof.
  induction tokens as [|t rest IH]; intros w v f rets w' v' f' rets' Hwf H.
  - by inversion H; subst.
  - cbn [run_tokens] in H. destruct (read_cancel w) as [cn w0].
    destruct cn; [by inversion H; subst|].
    destruct (run_token w0 v t) as [[[r w1] v1]|] eqn:Et; [|done].
    eapply IH; [|exact H]. by eapply run_token_wf.
Qed.

(** ** What add writes *)

Lemma sync_write_chunk_on_volume w v c d r w' v' :
  sync_write_chunk w v c d = (r, w', v') -> (r <? 0) = false -> c <= volsize v.
Proof.
  unfold sync_write_chunk. destruct (Z.ltb_spec (volsize v + 1) (c + 1)).
  - inversion 1; subst. done.
  - lia.
Qed.

Lemma sync_write_chunk_fail w v c d r w' v' :
  sync_write_chunk w v c d = (r, w', v') -> (r <? 0) = true -> v' = v.
Proof.
  unfold sync_write_chunk. destruct (volsize v + 1 <? c + 1); [by inversion 1|].
  destruct (libcall w) as [ok w0]. destruct ok; inversion 1; subst; [done|done].
Qed.

(** The copy loop writes consecutive chunks from [cchk + c] on, at most as
    many as the bytes left need, and touches no other chunk. *)
Lemma addfile_copy_loop_journal cchk fuel : forall left_ c w v fd tmp r w' v',
  0 < chunksize v -> 0 <= left_ -> 0 <= c -> 0 <= cchk ->
  cchk + c + left_ < 2 ^ 64 ->
  addfile_copy_loop fuel left_ c cchk w v fd tmp = Some (r, w', v') ->
  exists n : nat,
    Z.of_nat n * chunksize v < left_ + chunksize v /\
    cchk + c + Z.of_nat n <= Z.max (cchk + c) (volsize v + 1) /\
    s_written (vol_s v')
    = s_written (vol_s v) ++ map (fun k => cchk + c + Z.of_nat k) (seq 0 n) /\
    (forall a, a < cchk + c \/ cchk + c + Z.of_nat n <= a ->
               s_chunks (vol_s v') !! a = s_chunks (vol_s v) !! a).
Proof.
  induction fuel as [|fuel IH]; intros left_ c w v fd tmp r w' v' Hcs Hl Hc Hk Hb H;
    [done|].
  cbn [addfile_copy_loop] in H.
  destruct (Z.eqb_spec left_ 0) as [->|Hne].
  { inversion H; subst. exists 0%nat. simpl. rewrite app_nil_r.
    split; [lia|]. split; [lia|]. done. }
  set (nxt := if chunksize v <? left_
              then (chunksize v, left_ - chunksize v, tmp)
              else (left_, 0, replicate (Z.to_nat (chunksize v)) x00)) in H.
  assert (Hnxt : 0 <= nxt.1.2 /\ nxt.1.2 + chunksize v <= left_ + chunksize v
                 /\ (nxt.1.2 = 0 \/ nxt.1.2 = left_ - chunksize v)
                 /\ nxt.1.2 < left_).
  { unfold nxt. destruct (Z.ltb_spec (chunksize v) left_); simpl; lia. }
  destruct nxt as [[rlen left1] tmp1]. cbn [fst snd] in Hnxt.
  destruct (read w fd tmp1 rlen) as [[[ret w1] fd1] tmp2] eqn:Er.
  destruct (ret <? 0).
  { inversion H; subst. exists 0%nat. simpl. rewrite app_nil_r.
    split; [lia|]. split; [lia|]. done. }
  destruct (sync_write_chunk w1 v (u64 (cchk + c)) (ChkBytes tmp2))
    as [[ret2 w2] v2] eqn:Ew.
  assert (Hu : u64 (cchk + c) = cchk + c).
  { unfold u64. apply Z.mod_small. lia. }
  rewrite Hu in Ew.
  destruct (ret2 <? 0) eqn:Eneg.
  { apply sync_write_chunk_fail in Ew; [|done]. inversion H; subst.
    exists 0%nat. simpl. rewrite app_nil_r. split; [lia|]. split; [lia|]. done. }
  pose proof (sync_write_chunk_on_volume _ _ _ _ _ _ _ Ew Eneg) as Hon.
  apply sync_write_chunk_ok in Ew; [|done].
  assert (Hone : Z.of_nat 1 * chunksize v < left_ + chunksize v) by lia.
  destruct (read_cancel w2) as [cn w3].
  destruct cn.
  { inversion H; subst. exists 1%nat. split; [done|].
    split; [cbn [volsize set_s]; lia|].
    cbn [vol_s set_s s_written s_chunks].
    split; [simpl; do 2 f_equal; lia|].
    intros a Ha. rewrite lookup_insert_ne; [done|lia]. }
  apply IH in H; [|by subst v2|lia|lia|lia|lia].
  destruct H as (n & Hn & Hv & Hj & Hfr).
  subst v2. cbn [vol_s set_s s_written s_chunks chunksize volsize] in *.
  exists (S n). rewrite Nat2Z.inj_succ, Z.mul_succ_l.
  split.
  { destruct Hnxt as (? & ? & [?|?] & ?); [|lia].
    assert (Z.of_nat n * chunksize v = 0 \/ chunksize v <= Z.of_nat n * chunksize v).
    { destruct n as [|n']; [left; lia|right].
      rewrite Nat2Z.inj_succ, Z.mul_succ_l.
      assert (0 <= Z.of_nat n' * chunksize v) by (apply Z.mul_nonneg_nonneg; lia).
      lia. }
    lia. }
  split; [lia|]. split.
  - rewrite Hj, <- app_assoc. f_equal. cbn [seq map app]. f_equal; [lia|].
    rewrite <- seq_shift, map_map. apply map_ext. intros k. lia.
  - intros a Ha. rewrite Hfr by lia. rewrite lookup_insert_ne; [done|lia].
Qed.

Lemma free_chunk_not_registered rs s l c :
  range_free rs s l -> s <= c < s + l -> range_registered rs c 1 = false.
Proof.
  intros Hfree Hc. unfold range_registered. simpl.
  induction Hfree as [|r rs Hr _ IH]; [done|].
  simpl. rewrite IH, orb_false_r.
  apply andb_false_iff.
  destruct (Z.leb_spec r.1 c); [|by left]. right. apply Z.leb_gt. lia.
Qed.

Lemma range_registered_sub rs s l c :
  range_registered rs s l = true -> s <= c < s + l ->
  range_registered rs c 1 = true.
Proof.
  unfold range_registered. intros H Hc.
  destruct (Z.eqb_spec l 0); [lia|]. simpl in *.
  apply existsb_exists in H as (r & Hin & Hr). apply existsb_exists.
  exists r. split; [done|]. zbool.
  apply andb_true_iff. split; [apply Z.leb_le|apply Z.leb_le]; lia.
Qed.

(** X1. However [actn_addfile] ends, the chunks it has written lie on
    the volume behind the label and outside every range that was registered
    in the allocator when it was called, and no other chunk of the storage
    has changed.  So an add writes into no registered range: not into the
    container of an entry whose range is registered, and not into the hash
    table once mount has registered it.  A container whose range is not
    registered is not protected. *)
Theorem addfile_writes_free_chunks w v j ret w' v' :
  vol_wf v = true ->
  (forall f, w_files w !! path j = Some f ->
             Z.of_nat (length (f_data f)) < 2 ^ 63) ->
  actn_addfile w v j = Some (ret, w', v') ->
  exists ws,
    s_written (vol_s v') = s_written (vol_s v) ++ ws /\
    (forall c, In c ws ->
       2 <= c <= volsize v /\
       range_registered (al_ranges (vol_al v)) c 1 = false) /\
    (forall a, ~ In a ws ->
       s_chunks (vol_s v') !! a = s_chunks (vol_s v) !! a) /\
    (forall s l, range_registered (al_ranges (vol_al v)) s l = true ->
       forall c, In c ws -> ~ (s <= c < s + l)) /\
    (forall e, entry_registered v e = true ->
       forall c, In c ws ->
         ~ (he_chunk e <= c < he_chunk e + container_size v e)).
Proof.
  intros Hwf Hsize H.
  assert (Hreg : forall ws,
            (forall c, In c ws ->
               2 <= c <= volsize v /\
               range_registered (al_ranges (vol_al v)) c 1 = false) ->
            forall s l, range_registered (al_ranges (vol_al v)) s l = true ->
              forall c, In c ws -> ~ (s <= c < s + l)).
  { intros ws Hws s l Hsl c Hc Hin. destruct (Hws c Hc) as [_ Hfree].
    rewrite (range_registered_sub _ _ _ _ Hsl Hin) in Hfree. done. }
  destruct (vol_wf_facts v Hwf) as (Hcs & Hvs & Hal & _).
  destruct (addfile_storage _ _ _ _ _ _ Hal ltac:(lia) H)
    as [->|(f & w6 & fd6 & tmp5 & vc & r7 & w7 & v7 & Hf & Hcp & Hc0 & Hcv & Hs
            & Hcsz & Hvsz & Hloop & ->)].
  { exists []. rewrite app_nil_r. repeat split; done. }
  specialize (Hsize f Hf).
  set (fsize := Z.of_nat (length (f_data f))) in *.
  set (csize := DIV_ROUND_UP fsize (chunksize v)) in *.
  set (cchk := shfs_alist_find_free (vol_al v) csize) in *.
  destruct (find_free_free (vol_al v) csize cchk Hal Hcp eq_refl Hc0)
    as (Hc2 & Hcend & Hfree).
  assert (Hfs : 0 <= fsize) by (unfold fsize; lia).
  apply addfile_copy_loop_journal in Hloop; [|lia|lia|lia|lia|lia].
  destruct Hloop as (n & Hn & Hv & Hj & Hfr).
  rewrite Hcsz in Hn. rewrite Hvsz in Hv. rewrite Hs in Hj, Hfr.
  destruct (DIV_ROUND_UP_bounds fsize (chunksize v)) as [_ Hup]; [lia|lia|lia|].
  fold csize in Hup.
  assert (Hncs : Z.of_nat n <= csize) by nia.
  assert (Hws : forall c,
            In c (map (fun k => cchk + 0 + Z.of_nat k) (seq 0 n)) ->
            2 <= c <= volsize v /\
            range_registered (al_ranges (vol_al v)) c 1 = false).
  { intros c Hin. apply in_map_iff in Hin as (k & <- & Hk). apply in_seq in Hk.
    split; [lia|eapply free_chunk_not_registered; [exact Hfree|lia]]. }
  exists (map (fun k => cchk + 0 + Z.of_nat k) (seq 0 n)).
  split; [exact Hj|]. split; [exact Hws|]. split.
  - intros a Hna. apply Hfr.
    destruct (Z.lt_ge_cases a (cchk + 0)) as [|Hge]; [by left|right].
    destruct (Z.lt_ge_cases a (cchk + 0 + Z.of_nat n)) as [Hlt|]; [|done].
    exfalso. apply Hna. apply in_map_iff. exists (Z.to_nat (a - cchk)).
    split; [lia|]. apply in_seq. lia.
  - split; [by apply Hreg|]. intros e He. by apply (Hreg _ Hws).
Qed.

(** ** Adding twice, adding and removing *)

(** When [actn_addfile] gets as far as the bucket table, the digest it
    looks up is the digest of the bytes its hashing loop was fed. *)
Lemma addfile_commit_digest w v j ret w' v' :
  alist_wf (vol_al v) = true -> 0 < chunksize v ->
  actn_addfile w v j = Some (ret, w', v') ->
  (ret < 0 /\ v' = v) \/
  exists f tmp w4 td w5 fd5 tmp5,
    w_files w !! path j = Some f /\
    let fsize := Z.of_nat (length (f_data f)) in
    let csize := DIV_ROUND_UP fsize (chunksize v) in
    let cchk := shfs_alist_find_free (vol_al v) csize in
    let vr := set_al v (shfs_alist_register (vol_al v) cchk csize).2 in
    0 < csize /\
    length tmp = Z.to_nat (chunksize v) /\
    addfile_hash_loop (Z.to_nat csize) 0 csize fsize w4 vr
      {| fd_file := f; fd_pos := 0 |} tmp [] = (inr td, w5, fd5, tmp5) /\
    shfs_btable_lookup (vol_bt v) (take (hlen v) (mhash_digest td)) = None.
Proof.
  intros Hwf Hcs H.
  destruct (addfile_outcomes _ _ _ _ _ _ Hwf Hcs H)
    as [Hl|(f0 & h0 & t0 & b0 & e0 & st0 & Hf0 & Hcp & Hc0 & _)]; [by left|].
  unfold actn_addfile in H. rewrite Hf0 in H.
  set (csize := DIV_ROUND_UP (Z.of_nat (length (f_data f0))) (chunksize v)) in *.
  set (cchk := shfs_alist_find_free (vol_al v) csize) in *.
  assert (Hrel : release_container
            (set_al v (shfs_alist_register (vol_al v) cchk csize).2) cchk csize = v).
  { apply release_reserved; [done|lia|done]. }
  destruct (libcall w) as [ok w1] eqn:E1.
  destruct ok; cbn [negb] in H; [|injection H as <- <- <-; left; split; [lia|first [done|exact Hrel]]].
  destruct (f_regular f0); cbn [negb] in H; [|injection H as <- <- <-; left; split; [lia|first [done|exact Hrel]]].
  destruct ((cchk =? 0) || (volsize v <=? cchk));
    [injection H as <- <- <-; left; split; [lia|first [done|exact Hrel]]|].
  set (vr := set_al v (shfs_alist_register (vol_al v) cchk csize).2) in *.
  unfold malloc in H.
  destruct (libcall w1) as [ok2 w2] eqn:E2.
  destruct ok2; [|injection H as <- <- <-; left; split; [lia|first [done|exact Hrel]]].
  destruct (libcall w2) as [ok3 w3] eqn:E3.
  destruct ok3; cbn [negb] in H; [|injection H as <- <- <-; left; split; [lia|first [done|exact Hrel]]].
  unfold lseek0 at 1 in H.
  destruct (libcall w3) as [ok4 w4] eqn:E4.
  destruct ok4; cbn [negb] in H; [|injection H as <- <- <-; left; split; [lia|first [done|exact Hrel]]].
  cbn [fd_file] in H.
  destruct (addfile_hash_loop _ _ _ _ _ _ _ _ _) as [[[r5 w5] fd5] tmp5] eqn:E5.
  destruct r5 as [ret5|td].
  { apply addfile_hash_loop_stderr in E5. injection H as <- <- <-. left.
    split; [destruct E5 as [[? _]|[? _]]; lia|exact Hrel]. }
  destruct (shfs_btable_lookup (vol_bt vr) _) as [b1|] eqn:El;
    [injection H as <- <- <-; left; split; [lia|first [done|exact Hrel]]|].
  right.
  exists f0, (replicate (Z.to_nat (chunksize vr)) (w_junk w2)), w4, td, w5, fd5, tmp5.
  cbv zeta. fold csize. fold cchk. fold vr.
  split; [done|]. split; [done|]. split; [by rewrite length_replicate|].
  split; [exact E5|]. exact El.
Qed.

(** The same with the slot: when [actn_addfile] changes the volume, the
    digest of the bytes fed to mhash was not in the bucket table and the
    table had a free slot for it. *)
Lemma addfile_commit_slot w v j ret w' v' :
  alist_wf (vol_al v) = true -> 0 < chunksize v ->
  actn_addfile w v j = Some (ret, w', v') ->
  (ret < 0 /\ v' = v) \/
  exists f tmp w4 td w5 fd5 tmp5,
    w_files w !! path j = Some f /\
    let fsize := Z.of_nat (length (f_data f)) in
    let csize := DIV_ROUND_UP fsize (chunksize v) in
    let cchk := shfs_alist_find_free (vol_al v) csize in
    let vr := set_al v (shfs_alist_register (vol_al v) cchk csize).2 in
    length tmp = Z.to_nat (chunksize v) /\
    addfile_hash_loop (Z.to_nat csize) 0 csize fsize w4 vr
      {| fd_file := f; fd_pos := 0 |} tmp [] = (inr td, w5, fd5, tmp5) /\
    shfs_btable_lookup (vol_bt v) (take (hlen v) (mhash_digest td)) = None /\
    is_Some (shfs_btable_addentry (vol_bt v) (take (hlen v) (mhash_digest td))).
Proof.
  intros Hwf Hcs H.
  destruct (addfile_outcomes _ _ _ _ _ _ Hwf Hcs H)
    as [Hl|(f0 & h0 & t0 & b0 & e0 & st0 & Hf0 & Hcp & Hc0 & _)]; [by left|].
  unfold actn_addfile in H. rewrite Hf0 in H.
  set (csize := DIV_ROUND_UP (Z.of_nat (length (f_data f0))) (chunksize v)) in *.
  set (cchk := shfs_alist_find_free (vol_al v) csize) in *.
  assert (Hrel : release_container
            (set_al v (shfs_alist_register (vol_al v) cchk csize).2) cchk csize = v).
  { apply release_reserved; [done|lia|done]. }
  destruct (libcall w) as [ok w1] eqn:E1.
  destruct ok; cbn [negb] in H; [|injection H as <- <- <-; left; split; [lia|first [done|exact Hrel]]].
  destruct (f_regular f0); cbn [negb] in H; [|injection H as <- <- <-; left; split; [lia|first [done|exact Hrel]]].
  destruct ((cchk =? 0) || (volsize v <=? cchk));
    [injection H as <- <- <-; left; split; [lia|first [done|exact Hrel]]|].
  set (vr := set_al v (shfs_alist_register (vol_al v) cchk csize).2) in *.
  unfold malloc in H.
  destruct (libcall w1) as [ok2 w2] eqn:E2.
  destruct ok2; [|injection H as <- <- <-; left; split; [lia|first [done|exact Hrel]]].
  destruct (libcall w2) as [ok3 w3] eqn:E3.
  destruct ok3; cbn [negb] in H; [|injection H as <- <- <-; left; split; [lia|first [done|exact Hrel]]].
  unfold lseek0 at 1 in H.
  destruct (libcall w3) as [ok4 w4] eqn:E4.
  destruct ok4; cbn [negb] in H; [|injection H as <- <- <-; left; split; [lia|first [done|exact Hrel]]].
  cbn [fd_file] in H.
  destruct (addfile_hash_loop _ _ _ _ _ _ _ _ _) as [[[r5 w5] fd5] tmp5] eqn:E5.
  destruct r5 as [ret5|td].
  { apply addfile_hash_loop_stderr in E5. injection H as <- <- <-. left.
    split; [destruct E5 as [[? _]|[? _]]; lia|exact Hrel]. }
  destruct (shfs_btable_lookup (vol_bt vr) _) as [b1|] eqn:El;
    [injection H as <- <- <-; left; split; [lia|first [done|exact Hrel]]|].
  destruct (shfs_btable_addentry (vol_bt vr) _) as [[t1 b1]|] eqn:Ea;
    [|injection H as <- <- <-; left; split; [lia|first [done|exact Hrel]]].
  right.
  exists f0, (replicate (Z.to_nat (chunksize vr)) (w_junk w2)), w4, td, w5, fd5, tmp5.
  cbv zeta. fold csize. fold cchk. fold vr.
  split; [done|]. split; [by rewrite length_replicate|].
  split; [exact E5|]. split; [exact El|]. exists (t1, b1). exact Ea.
Qed.

(** Without a failing call and without a signal the hashing loop runs to
    its end and leaves the world as it is. *)
Lemma addfile_hash_loop_nofault n : forall c csize fsize w v fd tmp td,
  w_faults w = [] -> w_cancel_in w = None -> 0 < chunksize v < 2 ^ 31 ->
  exists td' fd' tmp',
    addfile_hash_loop n c csize fsize w v fd tmp td = (inr td', w, fd', tmp').
Proof.
  induction n as [|n IH]; intros c csize fsize w v fd tmp td Hnf Hnc Hcs.
  - by eexists _, _, _.
  - cbn [addfile_hash_loop].
    set (rlen := if c =? u64 (csize - 1) then fsize mod chunksize v
                 else chunksize v).
    assert (Hrlen : 0 <= rlen <= chunksize v).
    { unfold rlen. pose proof (Z.mod_pos_bound fsize (chunksize v)).
      destruct (c =? u64 (csize - 1)); lia. }
    unfold read. rewrite (libcall_nofault _ Hnf).
    set (got := take (Z.to_nat rlen) (drop (fd_pos fd) (f_data (fd_file fd)))).
    assert (Hgot : 0 <= Z.of_nat (length got) < 2 ^ 31).
    { unfold got. rewrite length_take. lia. }
    rewrite (int32_small _ Hgot).
    destruct (Z.ltb_spec (Z.of_nat (length got)) 0) as [|_]; [lia|].
    unfold read_cancel. rewrite Hnc. by apply IH.
Qed.

(** C6. When [actn_addfile] fails, the allocator is what it was before the
    call: on every error path taken after the container was reserved the
    reservation is released again.  When the digest that add computes for
    the file is already in the bucket table, or the bucket of the digest has
    no free slot, add does fail, whatever else happens during the call, and
    the whole volume state, allocator included, is the one before the call;
    for a regular file that finds room on the volume, with no failing call
    and no signal, it returns -1 with the diagnostic of the duplicate or of
    the full bucket. *)
Theorem addfile_failure_releases_container w v j ret w' v' :
  alist_wf (vol_al v) = true -> 0 < chunksize v ->
  actn_addfile w v j = Some (ret, w', v') ->
  (ret < 0 ->
   vol_al v' = vol_al v /\
   (w_stderr w' = w_stderr w ++ [msg_duplicate]
    \/ w_stderr w' = w_stderr w ++ [msg_bucketfull] ->
    ret = -1 /\ v' = v)) /\
  (forall f,
     w_files w !! path j = Some f ->
     chunksize v < 2 ^ 31 -> 0 < Z.of_nat (length (f_data f)) < 2 ^ 63 ->
     let fsize := Z.of_nat (length (f_data f)) in
     let csize := DIV_ROUND_UP fsize (chunksize v) in
     let cchk := shfs_alist_find_free (vol_al v) csize in
     let h := take (hlen v)
                (mhash_digest
                   (take (Z.to_nat (fsize - (if fsize mod chunksize v =? 0
                                             then chunksize v else 0)))
                      (f_data f))) in
     is_Some (shfs_btable_lookup (vol_bt v) h)
     \/ shfs_btable_addentry (vol_bt v) h = None ->
     ret < 0 /\ v' = v /\
     (f_regular f = true -> cchk <> 0 -> cchk < volsize v ->
      w_faults w = [] -> w_cancel_in w = None ->
      ret = -1 /\
      w' = eprintf (match shfs_btable_lookup (vol_bt v) h with
                    | Some _ => msg_duplicate
                    | None => msg_bucketfull
                    end) w)).
Proof.
  intros Hwf Hcs H.
  split; [intros Hret; by apply (addfile_failure_allocator w v j ret w' v')|].
  intros f Hf Hcs31 Hfs fsize csize cchk h Hfull.
  assert (Hfail : ret < 0 /\ v' = v).
  { destruct (addfile_commit_slot _ _ _ _ _ _ Hwf Hcs H)
      as [Hdone|(f2 & tmp2 & w42 & td2 & w52 & fd52 & tmp52 & Hf2 & Htmp2
                 & Hhash2 & Hl2 & Ha2)]; [done|].
    exfalso. rewrite Hf in Hf2. inversion Hf2; subst f2; clear Hf2.
    assert (Htd2 : td2 = take (Z.to_nat (fsize - (if fsize mod chunksize v =? 0
                                                  then chunksize v else 0)))
                           (f_data f)).
    { match type of Hhash2 with
      | addfile_hash_loop _ _ _ _ _ ?vr _ _ _ = _ =>
          exact (addfile_hashed_bytes w42 vr f tmp2 td2 w52 fd52 tmp52
                   (conj Hcs Hcs31) Htmp2 Hfs Hhash2)
      end. }
    subst td2. fold h in Hl2, Ha2.
    destruct Hfull as [[b Hb]|Hn]; [congruence|].
    rewrite Hn in Ha2. by destruct Ha2. }
  split; [tauto|]. split; [tauto|].
  intros Hreg Hc0 Hcv Hnf Hnc.
  assert (Hno : (cchk =? 0) || (volsize v <=? cchk) = false).
  { apply orb_false_iff. split; [by apply Z.eqb_neq|apply Z.leb_gt; lia]. }
  assert (Hrel : release_container
            (set_al v (shfs_alist_register (vol_al v) cchk csize).2) cchk csize = v).
  { apply release_reserved; [done| |done]. by apply DIV_ROUND_UP_nonneg. }
  pose proof H as H'. unfold actn_addfile in H'. rewrite Hf in H'.
  rewrite (libcall_nofault _ Hnf) in H'. cbn [negb] in H'.
  rewrite Hreg in H'. cbn [negb] in H'.
  change (Z.of_nat (length (f_data f))) with fsize in H'.
  change (DIV_ROUND_UP fsize (chunksize v)) with csize in H'.
  change (shfs_alist_find_free (vol_al v) csize) with cchk in H'.
  rewrite Hno in H'.
  set (vr := set_al v (shfs_alist_register (vol_al v) cchk csize).2) in *.
  unfold malloc, lseek0 in H'.
  repeat (rewrite (libcall_nofault w Hnf) in H'; cbv beta iota in H').
  cbn [negb fd_file] in H'.
  destruct (addfile_hash_loop_nofault (Z.to_nat csize) 0 csize fsize w vr
              {| fd_file := f; fd_pos := 0 |}
              (replicate (Z.to_nat (chunksize vr)) (w_junk w)) [] Hnf Hnc
              (conj Hcs Hcs31)) as (td & fd' & tmp' & Eh).
  rewrite Eh in H'.
  assert (Htd : td = take (Z.to_nat (fsize - (if fsize mod chunksize v =? 0
                                              then chunksize v else 0)))
                       (f_data f)).
  { apply (addfile_hashed_bytes w vr f
             (replicate (Z.to_nat (chunksize vr)) (w_junk w)) td w fd' tmp'
             (conj Hcs Hcs31)); [by rewrite length_replicate|done|exact Eh]. }
  subst td.
  change (take (hlen vr) (mhash_digest _)) with h in H'.
  change (vol_bt vr) with (vol_bt v) in H'.
  destruct (shfs_btable_lookup (vol_bt v) h) as [b|] eqn:El.
  - by injection H' as <- <- _.
  - destruct Hfull as [[b Hb]|Hn]; [done|]. rewrite Hn in H'.
    by injection H' as <- <- _.
Qed.



(** X2. Once a file has been added, adding the same file again never
    succeeds and never changes the volume, whatever else happens during the
    second call: its digest is found in the bucket table, or the call has
    failed before it got there. *)
Theorem addfile_same_file_again w v j f w1 v1 w2 ret w3 v3 :
  vol_wf v = true ->
  w_files w !! path j = Some f ->
  Z.of_nat (length (f_data f)) < 2 ^ 63 ->
  actn_addfile w v j = Some (0, w1, v1) ->
  w_files w2 !! path j = Some f ->
  actn_addfile w2 v1 j = Some (ret, w3, v3) ->
  ret < 0 /\ v3 = v1.
Proof.
  intros Hwf Hf Hsize H1 Hf2 H2.
  pose proof (actn_addfile_wf _ _ _ _ _ _ Hwf H1) as Hwf1.
  destruct (vol_wf_facts v Hwf) as (Hcs & Hvs & Hal & Hnb & Hlen & Hpl).
  destruct (vol_wf_facts v1 Hwf1) as (Hcs1 & _ & Hal1 & _).
  destruct (addfile_success_trace _ _ _ _ _ Hal ltac:(lia) H1)
    as (f' & tmp & w4 & td & w5 & fd5 & tmp5 & t & b & w6 & fd6 & Hf' & _ & Hcp
        & _ & _ & Htmp & Hhash & Hl & Ha & _ & _ & Hcopy).
  rewrite Hf in Hf'. inversion Hf'; subst f'; clear Hf'.
  destruct (lookup_after_addentry _ _ _ _ Hnb Hlen Hl Ha) as (Hfound & _ & _).
  apply addfile_copy_loop_vol in Hcopy as ([st Hv1] & _).
  assert (Hfs : 0 < Z.of_nat (length (f_data f))).
  { destruct (length (f_data f)) eqn:E0; [|lia].
    rewrite DIV_ROUND_UP_zero in Hcp; lia. }
  assert (Htd : td = take (Z.to_nat (Z.of_nat (length (f_data f))
                     - (if Z.of_nat (length (f_data f)) mod chunksize v =? 0
                        then chunksize v else 0))) (f_data f)).
  { match type of Hhash with
    | addfile_hash_loop _ _ _ _ _ ?vr _ _ _ = _ =>
        exact (addfile_hashed_bytes w4 vr f tmp td w5 fd5 tmp5 Hcs Htmp
                 (conj Hfs Hsize) Hhash)
    end. }
  assert (Hgeo : chunksize v1 = chunksize v /\ hlen v1 = hlen v /\ vol_bt v1 = t).
  { by rewrite Hv1. }
  destruct Hgeo as (Hc1 & Hh1 & Hb1).
  destruct (addfile_commit_digest _ _ _ _ _ _ Hal1 ltac:(lia) H2)
    as [Hdone|(f2 & tmp2 & w42 & td2 & w52 & fd52 & tmp52 & Hf2' & _ & Htmp2
               & Hhash2 & Hl2)]; [done|].
  rewrite Hf2 in Hf2'. inversion Hf2'; subst f2; clear Hf2'.
  assert (Htd2 : td2 = take (Z.to_nat (Z.of_nat (length (f_data f))
                     - (if Z.of_nat (length (f_data f)) mod chunksize v1 =? 0
                        then chunksize v1 else 0))) (f_data f)).
  { match type of Hhash2 with
    | addfile_hash_loop _ _ _ _ _ ?vr _ _ _ = _ =>
        exact (addfile_hashed_bytes w42 vr f tmp2 td2 w52 fd52 tmp52 Hcs1 Htmp2
                 (conj Hfs Hsize) Hhash2)
    end. }
  rewrite Hc1 in Htd2. rewrite <- Htd in Htd2. subst td2.
  rewrite Hh1, Hb1 in Hl2. congruence.
Qed.

Lemma reserve_release_status al len :
  alist_wf al = true -> 0 < len ->
  let c := shfs_alist_find_free al len in
  c <> 0 ->
  shfs_alist_unregister (shfs_alist_register al c len).2 c len = (0, al).
Proof.
  intros Hwf Hpos c Hc.
  destruct (find_free_free al len c Hwf Hpos eq_refl Hc) as (_ & _ & Hfree).
  destruct (range_insert_remove _ _ _ _ Hwf Hpos Hfree) as (rs' & Hi & Hr).
  unfold shfs_alist_register, shfs_alist_unregister.
  destruct (Z.eqb_spec len 0); [lia|].
  rewrite Hi. simpl. rewrite Hr. f_equal. apply set_ranges_back.
Qed.

Lemma hash_is_zero_clear n : hash_is_zero (hash_clear n) = true.
Proof.
  unfold hash_is_zero, hash_clear. induction n as [|n IH]; [done|].
  simpl. exact IH.
Qed.

Lemma find_all_false {A} (P : A -> bool) (l : list A) :
  (forall x, In x l -> P x = false) -> List.find P l = None.
Proof.
  induction l as [|a l IH]; intros H; [done|].
  simpl. rewrite (H a) by (by left). apply IH. intros x Hx. apply H. by right.
Qed.

Lemma hentry_of_place v be be' :
  hentry_htchunk be' = hentry_htchunk be ->
  hentry_htoffset be' = hentry_htoffset be ->
  hentry_of v be' = hentry_of v be.
Proof. unfold hentry_of. by intros -> ->. Qed.

(** The bentry of slot [b] once its digest has been replaced. *)
Lemma bentry_of_alter v t h b :
  (b < length (bt_slots t))%nat ->
  vol_bt v = set_slots t (alter (set_be_hash h) b (bt_slots t)) ->
  bentry_of v b
  = set_be_hash h (default {| be_hash := []; hentry_htchunk := 0;
                              hentry_htoffset := 0 |} (bt_slots t !! b)).
Proof.
  intros Hb Hbt. unfold bentry_of. rewrite Hbt. cbn [bt_slots set_slots].
  rewrite list_lookup_alter_eq.
  destruct (lookup_lt_is_Some_2 (bt_slots t) b Hb) as [be0 ->]. done.
Qed.

Lemma slot_place_valid v b :
  forallb (place_valid v) (bt_slots (vol_bt v)) = true ->
  (b < length (bt_slots (vol_bt v)))%nat ->
  place_valid v (bentry_of v b) = true.
Proof.
  intros Hpl Hb. unfold bentry_of.
  destruct (lookup_lt_is_Some_2 (bt_slots (vol_bt v)) b Hb) as [be0 Hbe0].
  rewrite Hbe0. simpl. rewrite forallb_forall in Hpl. apply Hpl.
  apply list_elem_of_In. eapply list_elem_of_lookup_2. exact Hbe0.
Qed.

Lemma place_valid_place v be be' :
  hentry_htchunk be' = hentry_htchunk be ->
  hentry_htoffset be' = hentry_htoffset be ->
  place_valid v be' = place_valid v be.
Proof. unfold place_valid. by intros -> ->. Qed.

(** X3. Adding a file and then removing the object by its digest gives
    back the allocator as it was before the add: the remove succeeds,
    releases exactly the container that the add reserved, clears the digest
    of the entry, and the digest is no longer found. *)
Theorem add_then_remove w v j f w1 v1 :
  vol_wf v = true ->
  w_files w !! path j = Some f ->
  Z.of_nat (length (f_data f)) < 2 ^ 63 ->
  actn_addfile w v j = Some (0, w1, v1) ->
  exists h b,
    shfs_btable_lookup (vol_bt v) h = None /\
    shfs_btable_lookup (vol_bt v1) h = Some b /\
    forall w' t,
      hash_parse (path t) (hlen v1) = Some h ->
      exists v2,
        actn_rmfile w' v1 t = (0, w', v2) /\
        vol_al v2 = vol_al v /\
        hash_is_zero (he_hash (hentry_of v2 (bentry_of v2 b))) = true /\
        (hash_is_zero h = false -> shfs_btable_lookup (vol_bt v2) h = None).
Proof.
  intros Hwf Hf Hsize H.
  destruct (vol_wf_facts v Hwf) as (Hcs & Hvs & Hal & Hnb & Hslots & Hplaces).
  destruct (addfile_outcomes _ _ _ _ _ _ Hal ltac:(lia) H)
    as [[? _]|(f' & h & t & b & e & st & Hf' & Hcp & Hc0 & Hl & Ha & Hh & Hchk & Hoff
               & Hlen & Hcase)]; [lia|].
  rewrite Hf in Hf'. inversion Hf'; subst f'; clear Hf'.
  destruct Hcase as [[_ ->]|[[?|?] _]]; [|lia|lia].
  destruct (lookup_after_addentry _ _ _ _ Hnb Hslots Hl Ha) as (Hlook & Hb & Ht).
  subst t.
  set (t := set_slots (vol_bt v) (alter (set_be_hash h) b (bt_slots (vol_bt v)))) in *.
  set (csize := DIV_ROUND_UP (Z.of_nat (length (f_data f))) (chunksize v)) in *.
  set (cchk := shfs_alist_find_free (vol_al v) csize) in *.
  set (reg := (shfs_alist_register (vol_al v) cchk csize).2) in *.
  set (v1 := set_s (commit_entry (set_al v reg) t b e) st).
  set (be := bentry_of v1 b).
  assert (Hbt1 : vol_bt v1 = t) by done.
  assert (Hplace : hentry_htchunk be = hentry_htchunk (bentry_of v b)
                   /\ hentry_htoffset be = hentry_htoffset (bentry_of v b)).
  { unfold be. rewrite (bentry_of_alter v1 (vol_bt v) h b Hb) by (by rewrite Hbt1).
    done. }
  assert (Hpv : place_valid v be = true).
  { rewrite (place_valid_place v (bentry_of v b) be); [|apply Hplace|apply Hplace].
    by apply slot_place_valid. }
  assert (He : hentry_of v1 be = e).
  { change (hentry_of v1 be)
      with (hentry_of (set_hentry (set_bt (set_al v reg) t) be e) be).
    apply hentry_of_set_hentry. exact Hpv. }
  assert (Hpv1 : place_valid v1 be = true).
  { change (place_valid v1 be)
      with (place_valid (set_hentry (set_bt (set_al v reg) t) be e) be).
    rewrite place_valid_set_hentry. exact Hpv. }
  exists h, b. split; [done|]. split; [done|].
  intros w' t' Hparse. unfold actn_rmfile. rewrite Hparse.
  assert (Hlook1 : shfs_btable_lookup (vol_bt v1) h = Some b) by exact Hlook.
  rewrite Hlook1. cbv zeta. fold be. rewrite He, Hchk, Hoff, Hlen, Z.add_0_r.
  change (vol_al v1) with reg. change (chunksize v1) with (chunksize v).
  assert (Hu : u64 (Z.of_nat (length (f_data f))) = Z.of_nat (length (f_data f))).
  { unfold u64. apply Z.mod_small. lia. }
  rewrite Hu. fold csize. unfold reg, cchk.
  rewrite reserve_release_status by done.
  cbn [Z.ltb Z.compare].
  eexists. split; [reflexivity|]. split; [done|].
  change (vol_bt (set_al v1 (vol_al v))) with t.
  assert (Hrm : shfs_btable_rmentry t h
                = set_slots t (alter (set_be_hash (hash_clear (bt_hlen t))) b
                                 (bt_slots t))).
  { unfold shfs_btable_rmentry. by rewrite Hlook. }
  rewrite Hrm.
  set (v2 := mark_modified _ _).
  assert (Hb1 : (b < length (bt_slots t))%nat).
  { unfold t. cbn [bt_slots set_slots]. by rewrite length_alter. }
  split.
  - assert (Hbe2 : bentry_of v2 b = set_be_hash (hash_clear (bt_hlen t)) be).
    { rewrite (bentry_of_alter v2 t _ b Hb1) by done. done. }
    rewrite (hentry_of_place v2 be) by (by rewrite Hbe2).
    unfold v2.
    change (hentry_of (mark_modified ?x ?c) be) with (hentry_of x be).
    rewrite hentry_of_set_hentry; [apply hash_is_zero_clear|].
    exact Hpv1.
  - intros Hnz. change (vol_bt v2) with
      (set_slots t (alter (set_be_hash (hash_clear (bt_hlen t))) b (bt_slots t))).
    unfold shfs_btable_lookup.
    change (bucket_slots (set_slots t _) h) with (bucket_slots (vol_bt v) h).
    apply find_all_false. intros i Hi.
    unfold hash_equal. apply bool_decide_eq_false.
    unfold slot_hash. cbn [bt_slots set_slots].
    destruct (decide (i = b)) as [->|Hne].
    + rewrite list_lookup_alter_eq.
      destruct (bt_slots t !! b) as [be1|]; simpl.
      * intros <-. by rewrite hash_is_zero_clear in Hnz.
      * intros <-. done.
    + rewrite list_lookup_alter_ne by done.
      unfold t. cbn [bt_slots set_slots].
      rewrite list_lookup_alter_ne by done.
      unfold shfs_btable_lookup in Hl.
      eapply find_none in Hl; [|exact Hi].
      unfold hash_equal, slot_hash in Hl. by apply bool_decide_eq_false in Hl.
Qed.

(** X4. Every token keeps the mounted volume well formed, whatever its
    action and however the action ends: the geometry stays in range, the
    range list of the allocator stays sorted and free of overlaps, the
    bucket table keeps all its slots and every bentry still refers to an
    entry of the chunk cache. *)
Theorem tokens_keep_volume_well_formed tokens w v w' v' failed rets :
  vol_wf v = true ->
  run_tokens tokens w v 0 [] = Some (w', v', failed, rets) ->
  vol_wf v' = true.
Proof. intros Hwf H. exact (run_tokens_wf _ _ _ _ _ _ _ _ _ Hwf H). Qed.

(** ** The default object *)

Lemma isdefault_set e :
  SHFS_HENTRY_ISDEFAULT
    (set_he_flags (Z.lor (he_flags e) SHFS_EFLAG_DEFAULT) e) = true.
Proof.
  unfold SHFS_HENTRY_ISDEFAULT. cbn [he_flags set_he_flags].
  apply negb_true_iff, Z.eqb_neq. rewrite Z.land_lor_distr_l, Z.land_diag.
  intros H0. apply Z.lor_eq_0_iff in H0 as [_ H0]. discriminate.
Qed.

Lemma isdefault_clear e :
  SHFS_HENTRY_ISDEFAULT
    (set_he_flags (Z.land (he_flags e) (Z.lnot SHFS_EFLAG_DEFAULT)) e) = false.
Proof.
  unfold SHFS_HENTRY_ISDEFAULT. cbn [he_flags set_he_flags].
  apply negb_false_iff, Z.eqb_eq.
  rewrite <- Z.land_assoc, (Z.land_comm (Z.lnot _)), Z.land_lnot_diag.
  apply Z.land_0_r.
Qed.

Lemma hentry_of_set_hentry_ne v be be' e :
  (hentry_htchunk be', hentry_htoffset be') <> (hentry_htchunk be, hentry_htoffset be) ->
  hentry_of (set_hentry v be e) be' = hentry_of v be'.
Proof.
  intros Hne. unfold hentry_of, set_hentry. cbn [htable_chunk_cache set_cache].
  destruct (decide (hentry_htchunk be' = hentry_htchunk be)) as [Hc|Hc].
  - rewrite Hc, list_lookup_alter_eq.
    destruct (htable_chunk_cache v !! hentry_htchunk be) as [buf|]; [|done].
    simpl. rewrite list_lookup_insert_ne; [done|]. intros Ho. apply Hne.
    by rewrite Hc, Ho.
  - by rewrite list_lookup_alter_ne.
Qed.

Lemma slots_places_differ v b b' :
  places_distinct v = true ->
  (b < length (bt_slots (vol_bt v)))%nat ->
  (b' < length (bt_slots (vol_bt v)))%nat -> b' <> b ->
  (hentry_htchunk (bentry_of v b'), hentry_htoffset (bentry_of v b'))
  <> (hentry_htchunk (bentry_of v b), hentry_htoffset (bentry_of v b)).
Proof.
  intros Hd Hb Hb' Hne Heq. unfold places_distinct in Hd.
  apply bool_decide_eq_true in Hd. unfold bentry_of in Heq.
  destruct (lookup_lt_is_Some_2 _ b Hb) as [be Hbe].
  destruct (lookup_lt_is_Some_2 _ b' Hb') as [be' Hbe'].
  rewrite Hbe, Hbe' in Heq. simpl in Heq.
  apply Hne. eapply NoDup_lookup; [exact Hd| |].
  - rewrite list_lookup_fmap, Hbe'. simpl. reflexivity.
  - rewrite list_lookup_fmap, Hbe. simpl. by rewrite Heq.
Qed.

(** The DEFAULT flag of the slots after the entry of slot [b] has been
    rewritten. *)
Lemma isdefault_after_update v b e i :
  places_distinct v = true ->
  forallb (place_valid v) (bt_slots (vol_bt v)) = true ->
  (b < length (bt_slots (vol_bt v)))%nat ->
  (i < length (bt_slots (vol_bt v)))%nat ->
  let v' := mark_modified (set_hentry v (bentry_of v b) e)
              (hentry_htchunk (bentry_of v b)) in
  SHFS_HENTRY_ISDEFAULT (hentry_of v' (bentry_of v' i))
  = if decide (i = b) then SHFS_HENTRY_ISDEFAULT e
    else SHFS_HENTRY_ISDEFAULT (hentry_of v (bentry_of v i)).
Proof.
  intros Hd Hpl Hb Hi v'.
  change (bentry_of v' i) with (bentry_of v i).
  change (hentry_of v' (bentry_of v i))
    with (hentry_of (set_hentry v (bentry_of v b) e) (bentry_of v i)).
  destruct (decide (i = b)) as [->|Hne].
  - rewrite hentry_of_set_hentry; [done|]. by apply slot_place_valid.
  - rewrite hentry_of_set_hentry_ne; [done|]. by apply slots_places_differ.
Qed.

Lemma filter_seq_nil (P : nat -> bool) n :
  (forall i, (i < n)%nat -> P i = false) -> List.filter P (seq 0 n) = [].
Proof.
  intros H. destruct (List.filter P (seq 0 n)) as [|a l] eqn:E; [done|].
  assert (Hin : In a (List.filter P (seq 0 n))) by (rewrite E; by left).
  apply filter_In in Hin as [Hin Ha]. apply in_seq in Hin.
  rewrite H in Ha; [done|lia].
Qed.

Lemma filter_single (P : nat -> bool) (l : list nat) (b : nat) :
  List.NoDup l -> In b l -> P b = true ->
  (forall i, In i l -> i <> b -> P i = false) ->
  List.filter P l = [b].
Proof.
  induction l as [|a l IH]; intros Hnd Hin Hb Hothers; [done|].
  inversion Hnd as [|? ? Hna Hnd']; subst. simpl.
  destruct (decide (a = b)) as [->|Hne].
  - rewrite Hb. f_equal.
    destruct (List.filter P l) as [|c l'] eqn:E; [done|].
    assert (Hc : In c (List.filter P l)) by (rewrite E; by left).
    apply filter_In in Hc as [Hc Hpc].
    rewrite Hothers in Hpc; [done|by right|]. intros ->. done.
  - rewrite (Hothers a) by (by left || done).
    destruct Hin as [|Hin]; [done|].
    apply IH; [done|done|done|]. intros i Hi. apply Hothers. by right.
Qed.

Lemma filter_single_inv (P : nat -> bool) (n b : nat) :
  List.filter P (seq 0 n) = [b] ->
  (b < n)%nat /\ P b = true /\ forall i, (i < n)%nat -> i <> b -> P i = false.
Proof.
  intros E.
  assert (Hb : In b (List.filter P (seq 0 n))) by (rewrite E; by left).
  apply filter_In in Hb as [Hb Hpb]. apply in_seq in Hb.
  split; [lia|]. split; [done|]. intros i Hi Hne.
  destruct (P i) eqn:Ei; [|done].
  assert (Hin : In i (List.filter P (seq 0 n))).
  { apply filter_In. split; [apply in_seq; lia|done]. }
  rewrite E in Hin. destruct Hin as [|[]]. congruence.
Qed.

Lemma lookup_in_range t h b :
  (0 < bt_nb_buckets t)%nat ->
  length (bt_slots t) = (bt_nb_buckets t * bt_entries_per_bucket t)%nat ->
  shfs_btable_lookup t h = Some b -> (b < length (bt_slots t))%nat.
Proof.
  intros Hnb Hlen Hl. unfold shfs_btable_lookup in Hl.
  apply find_some in Hl as [Hin _].
  unfold bucket_slots, bucket_of in Hin. apply in_seq in Hin.
  pose proof (Nat.mod_upper_bound (hash_prefix h) (bt_nb_buckets t)).
  rewrite Hlen. nia.
Qed.

(** After [actn_cleardefault] no slot has the DEFAULT flag. *)
Lemma cleardefault_no_default v :
  vol_wf v = true -> places_distinct v = true -> default_consistent v = true ->
  let v0 := (actn_cleardefault v).2 in
  (forall i, (i < length (bt_slots (vol_bt v0)))%nat ->
             SHFS_HENTRY_ISDEFAULT (hentry_of v0 (bentry_of v0 i)) = false) /\
  def_bentry v0 = None /\ vol_bt v0 = vol_bt v /\
  places_distinct v0 = true /\
  forallb (place_valid v0) (bt_slots (vol_bt v0)) = true.
Proof.
  intros Hwf Hd Hc v0.
  destruct (vol_wf_facts v Hwf) as (_ & _ & _ & _ & _ & Hpl).
  unfold default_consistent in Hc. unfold v0, actn_cleardefault.
  destruct (default_slots v) as [|b0 [|b1 rest]] eqn:Eds; [| |done].
  - apply bool_decide_eq_true in Hc. rewrite Hc. cbn [snd].
    repeat split; try done.
    intros i Hi. unfold default_slots in Eds.
    destruct (SHFS_HENTRY_ISDEFAULT (hentry_of v (bentry_of v i))) eqn:Ei; [|done].
    assert (Hin : In i (List.filter
                          (fun b => SHFS_HENTRY_ISDEFAULT (hentry_of v (bentry_of v b)))
                          (seq 0 (length (bt_slots (vol_bt v)))))).
    { apply filter_In. split; [apply in_seq; lia|done]. }
    rewrite Eds in Hin. done.
  - apply bool_decide_eq_true in Hc. rewrite Hc. cbn [snd].
    unfold default_slots in Eds. apply filter_single_inv in Eds as (Hb0 & _ & Hoth).
    unfold bentry_clearflags.
    split; [|split; [done|split; [done|split; [done|]]]].
    + intros i Hi.
      change (set_def_bentry ?x None) with (set_def_bentry x None).
      match goal with
      | |- SHFS_HENTRY_ISDEFAULT (hentry_of (set_def_bentry ?x None) ?be) = false =>
          change (SHFS_HENTRY_ISDEFAULT (hentry_of x (bentry_of x i)) = false)
      end.
      rewrite (isdefault_after_update v b0 _ i Hd Hpl Hb0 Hi).
      destruct (decide (i = b0)); [apply isdefault_clear|by apply Hoth].
    + apply forallb_forall. intros be Hin.
      match goal with
      | |- place_valid (set_def_bentry (mark_modified (set_hentry v ?b ?e) ?c) None) be
           = true =>
          change (place_valid (set_hentry v b e) be = true)
      end.
      rewrite place_valid_set_hentry. rewrite forallb_forall in Hpl. by apply Hpl.
Qed.

(** X5. On a well-formed volume where the default invariant holds (at
    most one entry has the DEFAULT flag and [def_bentry] is that entry),
    [actn_cleardefault] leaves no entry with the flag and no default
    reference. *)
Theorem cleardefault_clears_every_flag v :
  vol_wf v = true -> places_distinct v = true -> default_consistent v = true ->
  let v0 := (actn_cleardefault v).2 in
  default_slots v0 = [] /\ def_bentry v0 = None /\ default_consistent v0 = true.
Proof.
  intros Hwf Hd Hc v0.
  destruct (cleardefault_no_default v Hwf Hd Hc) as (Hno & Hdef & _).
  fold v0 in Hno, Hdef.
  assert (Hds : default_slots v0 = []).
  { unfold default_slots. by apply filter_seq_nil. }
  split; [done|]. split; [done|].
  unfold default_consistent. rewrite Hds. by apply bool_decide_eq_true.
Qed.

(** X6. On such a volume [actn_setdefault] keeps the default invariant:
    when it succeeds the entry of the given digest is the only one with the
    DEFAULT flag and [def_bentry] refers to it; when the digest string does
    not parse or is not found it returns -1 and the volume, the previous
    default included, is unchanged. *)
Theorem setdefault_keeps_default_invariant w v t ret w' v' :
  vol_wf v = true -> places_distinct v = true -> default_consistent v = true ->
  actn_setdefault w v t = (ret, w', v') ->
  default_consistent v' = true /\
  (ret = 0 \/ ret = -1) /\
  (ret = -1 -> v' = v) /\
  (ret = 0 ->
   exists h b, hash_parse (path t) (hlen v) = Some h /\
     shfs_btable_lookup (vol_bt v) h = Some b /\
     def_bentry v' = Some b /\ default_slots v' = [b]).
Proof.
  intros Hwf Hd Hc H.
  destruct (vol_wf_facts v Hwf) as (_ & _ & _ & Hnb & Hlen & _).
  unfold actn_setdefault in H.
  destruct (hash_parse (path t) (hlen v)) as [h|] eqn:Ep.
  2:{ inversion H; subst. split; [done|]. split; [by right|]. split; [done|]. lia. }
  destruct (shfs_btable_lookup (vol_bt v) h) as [b|] eqn:El.
  2:{ inversion H; subst. split; [done|]. split; [by right|]. split; [done|]. lia. }
  inversion H; subst ret w' v'; clear H.
  destruct (cleardefault_no_default v Hwf Hd Hc) as (Hno & _ & Hbt & Hd0 & Hpl0).
  set (v0 := (actn_cleardefault v).2) in *.
  pose proof (lookup_in_range _ _ _ Hnb Hlen El) as Hb. rewrite <- Hbt in Hb.
  assert (Hds : default_slots
                  (set_def_bentry (bentry_setflags v0 (bentry_of v0 b) SHFS_EFLAG_DEFAULT)
                     (Some b)) = [b]).
  { unfold default_slots, bentry_setflags.
    match goal with
    | |- List.filter _ (seq 0 (length (bt_slots (vol_bt ?x)))) = _ =>
        change (length (bt_slots (vol_bt x))) with (length (bt_slots (vol_bt v0)))
    end.
    apply filter_single.
    - apply seq_NoDup.
    - apply in_seq. lia.
    - match goal with
      | |- SHFS_HENTRY_ISDEFAULT (hentry_of (set_def_bentry ?x _) _) = true =>
          change (SHFS_HENTRY_ISDEFAULT (hentry_of x (bentry_of x b)) = true)
      end.
      rewrite (isdefault_after_update v0 b _ b Hd0 Hpl0 Hb Hb).
      destruct (decide (b = b)); [apply isdefault_set|done].
    - intros i Hi Hne. apply in_seq in Hi.
      match goal with
      | |- SHFS_HENTRY_ISDEFAULT (hentry_of (set_def_bentry ?x _) _) = false =>
          change (SHFS_HENTRY_ISDEFAULT (hentry_of x (bentry_of x i)) = false)
      end.
      rewrite (isdefault_after_update v0 b _ i Hd0 Hpl0 Hb ltac:(lia)).
      destruct (decide (i = b)); [done|]. apply Hno. lia. }
  split.
  { unfold default_consistent. rewrite Hds. by apply bool_decide_eq_true. }
  split; [by left|]. split; [lia|]. intros _. by exists h, b.
Qed.

(** ** Mounting, and sessions that only read *)

(** The loop of [load_vol_htable] reads only: it leaves the storage alone,
    and the state word of every chunk it loads is reset to 0 and stays
    so. *)
Lemma load_vol_htable_loop_state idx : forall w v cur buf w' v',
  load_vol_htable_loop idx w v cur buf = Some (w', v') ->
  (forall i, In i idx ->
     (i / htable_nb_entries_per_chunk v < length (htable_chunk_cache_state v))%nat) ->
  (is_Some buf -> htable_chunk_cache_state v !! cur = Some 0) ->
  vol_s v' = vol_s v /\ htable_len v' = htable_len v /\
  htable_ref v' = htable_ref v /\ htable_bak_ref v' = htable_bak_ref v /\
  length (htable_chunk_cache_state v') = length (htable_chunk_cache_state v) /\
  (forall c, htable_chunk_cache_state v !! c = Some 0 ->
             htable_chunk_cache_state v' !! c = Some 0) /\
  (forall i, In i idx ->
     htable_chunk_cache_state v' !! (i / htable_nb_entries_per_chunk v)%nat = Some 0).
Proof.
  induction idx as [|i rest IH]; intros w v cur buf w' v' H Hin Hcur.
  - inversion H; subst. repeat split; try done.
  - cbn [load_vol_htable_loop] in H.
    unfold SHFS_HTABLE_CHUNK_NO in H.
    set (c := (i / htable_nb_entries_per_chunk v)%nat) in *.
    assert (Hc : (c < length (htable_chunk_cache_state v))%nat)
      by (apply Hin; by left).
    destruct (negb (cur =? c)%nat || negb (bool_decide (is_Some buf))) eqn:Eload.
    + unfold malloc in H. destruct (libcall w) as [ok w1]. destruct ok; [|done].
      destruct (sync_read_chunk w1 v _) as [[ret w2] d].
      destruct (ret <? 0); [done|].
      cbn [shfs_btable_feed] in H.
      match type of H with
      | load_vol_htable_loop rest w2 ?v1 c ?b1 = _ =>
          destruct (IH w2 v1 c b1 w' v' H) as (Hs & Hl & Hr & Hb & Hlen & Hkeep & Hall)
      end.
      { intros k Hk.
        destruct (SHFS_HENTRY_ISDEFAULT _); cbn; rewrite length_insert;
          apply Hin; by right. }
      { intros _. destruct (SHFS_HENTRY_ISDEFAULT _); cbn;
          by apply list_lookup_insert_eq. }
      destruct (SHFS_HENTRY_ISDEFAULT _) eqn:Edef; cbn in Hs, Hl, Hr, Hb, Hlen, Hkeep, Hall;
        rewrite length_insert in Hlen;
        (split; [done|]; split; [done|]; split; [done|]; split; [done|];
         split; [done|]; split;
         [ intros c0 Hc0; apply Hkeep;
           destruct (decide (c0 = c)) as [->|Hne];
           [by apply list_lookup_insert_eq|by rewrite list_lookup_insert_ne]
         | intros k [<-|Hk];
           [apply Hkeep; by apply list_lookup_insert_eq|by apply Hall] ]).
    + apply orb_false_iff in Eload as [E1 E2].
      apply negb_false_iff, Nat.eqb_eq in E1.
      apply negb_false_iff, bool_decide_eq_true in E2. subst cur.
      cbn [shfs_btable_feed] in H.
      match type of H with
      | load_vol_htable_loop rest w ?v1 c ?b1 = _ =>
          destruct (IH w v1 c b1 w' v' H) as (Hs & Hl & Hr & Hb & Hlen & Hkeep & Hall)
      end.
      { intros k Hk. destruct (SHFS_HENTRY_ISDEFAULT _); cbn; apply Hin; by right. }
      { intros _. destruct (SHFS_HENTRY_ISDEFAULT _); cbn; by apply Hcur. }
      destruct (SHFS_HENTRY_ISDEFAULT _) eqn:Edef; cbn in Hs, Hl, Hr, Hb, Hlen, Hkeep, Hall;
        (split; [done|]; split; [done|]; split; [done|]; split; [done|];
         split; [done|]; split;
         [ done
         | intros k [<-|Hk]; [apply Hkeep; by apply Hcur|by apply Hall] ]).
Qed.

Lemma load_vol_htable_clean w v w' v' :
  (0 < htable_nb_entries_per_chunk v)%nat ->
  (htable_nb_entries v <= htable_len v * htable_nb_entries_per_chunk v)%nat ->
  (htable_len v * htable_nb_entries_per_chunk v
   < htable_nb_entries v + htable_nb_entries_per_chunk v)%nat ->
  load_vol_htable w v = Some (w', v') ->
  vol_s v' = vol_s v /\ htable_len v' = htable_len v /\
  htable_ref v' = htable_ref v /\ htable_bak_ref v' = htable_bak_ref v /\
  forall c, (c < htable_len v)%nat -> htable_chunk_cache_state v' !! c = Some 0.
Proof.
  intros Hepc Hfit Hcover H. unfold load_vol_htable in H.
  destruct (libcall w) as [ok w1]. destruct ok; [|done]. cbn [negb] in H.
  destruct (libcall w1) as [ok2 w2]. destruct ok2; [|done]. cbn [negb] in H.
  apply load_vol_htable_loop_state in H.
  - cbn in H. destruct H as (Hs & Hl & Hr & Hb & Hlen & _ & Hall).
    repeat (split; [done|]). intros c Hc.
    specialize (Hall (c * htable_nb_entries_per_chunk v)%nat).
    rewrite Nat.div_mul in Hall by lia. apply Hall.
    apply in_seq. nia.
  - intros i Hi. cbn. rewrite length_replicate. apply in_seq in Hi.
    cbn [htable_nb_entries set_cache set_cache_state set_bt] in Hi.
    apply Nat.Div0.div_lt_upper_bound. lia.
  - intros [? ?]. done.
Qed.

Lemma load_vol_alist_vol w v w' v' :
  load_vol_alist w v = Some (w', v') -> exists a, v' = set_al v a.
Proof.
  unfold load_vol_alist. intros H.
  destruct (libcall w) as [ok w1]. destruct ok; [|done]. cbn [negb] in H.
  destruct (shfs_alist_register _ 0 2) as [r1 a1].
  destruct (r1 <? 0); [done|].
  destruct (shfs_alist_register a1 _ _) as [r2 a2].
  destruct (r2 <? 0); [done|].
  destruct (if htable_bak_ref v =? 0 then _ else _) as [r3 a3].
  destruct (r3 <? 0); [done|].
  inversion H; subst. by eexists.
Qed.

(** With no chunk of the table marked MODIFIED, [umount_shfs] makes no
    library call and writes nothing. *)
Lemma umount_shfs_loop_clean idx : forall w v,
  (forall i, In i idx -> chunk_modified v i = false) ->
  umount_shfs_loop idx w v = Some (w, v).
Proof.
  induction idx as [|i rest IH]; intros w v Hclean; [done|].
  cbn [umount_shfs_loop].
  pose proof (Hclean i ltac:(by left)) as Hi. unfold chunk_modified in Hi.
  rewrite Hi. apply IH. intros k Hk. apply Hclean. by right.
Qed.

Lemma run_tokens_read_only tokens : forall w v f rets w' v' f' rets',
  forallb read_only tokens = true ->
  run_tokens tokens w v f rets = Some (w', v', f', rets') -> v' = v.
Proof.
  induction tokens as [|t rest IH]; intros w v f rets w' v' f' rets' Hro H.
  - by inversion H.
  - cbn [forallb] in Hro. apply andb_true_iff in Hro as [Ht Hrest].
    cbn [run_tokens] in H. destruct (read_cancel w) as [cn w0].
    destruct cn; [by inversion H|].
    destruct (run_token w0 v t) as [[[r w1] v1]|] eqn:Et; [|done].
    assert (v1 = v).
    { unfold run_token in Et. unfold read_only in Ht.
      destruct (action t); try done.
      - by inversion Et.
      - by apply actn_catfile_vol in Et.
      - unfold actn_ls in Et. by inversion Et.
      - inversion Et as [E1]. by apply actn_info_vol in E1. }
    subst v1. by eapply IH.
Qed.

(** X7. A session that only reads writes nothing.  On a volume whose
    hash table fills its chunks (every chunk of the table holds at least
    one entry and every entry lies in a chunk of the table), mounting
    leaves the storage as it is, tokens that only export, list or show
    information leave the mounted volume as it is, and unmounting then makes
    no library call and writes no chunk: it cannot fail. *)
Theorem read_only_session_writes_nothing w v tokens w1 v1 w2 v2 failed rets :
  (0 < htable_nb_entries_per_chunk v)%nat ->
  (htable_nb_entries v <= htable_len v * htable_nb_entries_per_chunk v)%nat ->
  (htable_len v * htable_nb_entries_per_chunk v
   < htable_nb_entries v + htable_nb_entries_per_chunk v)%nat ->
  mount_shfs w v = Some (w1, v1) ->
  forallb read_only tokens = true ->
  run_tokens tokens w1 v1 0 [] = Some (w2, v2, failed, rets) ->
  vol_s v1 = vol_s v /\ v2 = v1 /\
  forall w3, umount_shfs w3 v2 = Some (w3, v2).
Proof.
  intros Hepc Hfit Hcover Hm Hro Hrun. unfold mount_shfs in Hm.
  destruct (load_vol_htable w v) as [[w0 v0]|] eqn:Eh; [|done].
  destruct (load_vol_htable_clean _ _ _ _ Hepc Hfit Hcover Eh)
    as (Hs & Hl & _ & _ & Hclean).
  apply load_vol_alist_vol in Hm as [a ->].
  apply run_tokens_read_only in Hrun; [|done]. subst v2.
  split; [done|]. split; [done|].
  intros w3. unfold umount_shfs. apply umount_shfs_loop_clean.
  intros i Hi. apply in_seq in Hi. unfold chunk_modified.
  cbn [htable_chunk_cache_state set_al htable_len] in *.
  rewrite Hclean by lia. done.
Qed.

(** ** What mounting registers *)

Lemma range_insert_registers rs : forall s l rs',
  Forall (fun r => 0 < r.2) rs -> 0 < l ->
  range_insert rs s l = Some rs' ->
  Forall (fun r => 0 < r.2) rs' /\
  (forall c, s <= c < s + l -> range_registered rs' c 1 = true) /\
  (forall c, range_registered rs c 1 = true -> range_registered rs' c 1 = true).
Proof.
  assert (Hone : forall (r : Z * Z) rs c,
            range_registered (r :: rs) c 1
            = ((r.1 <=? c) && (c + 1 <=? r.1 + r.2)) || range_registered rs c 1).
  { intros. unfold range_registered. done. }
  assert (Hin1 : forall (a b c : Z), a <= c < a + b ->
                   ((a <=? c) && (c + 1 <=? a + b)) = true).
  { intros. apply andb_true_iff. split; apply Z.leb_le; lia. }
  assert (Hin2 : forall (a b c : Z), ((a <=? c) && (c + 1 <=? a + b)) = true ->
                   a <= c < a + b).
  { intros a b c H. apply andb_true_iff in H as [H1 H2].
    apply Z.leb_le in H1, H2. lia. }
  induction rs as [|[s0 l0] rest IH]; intros s l rs' Hpos Hl Hi.
  - inversion Hi; subst. split; [by repeat constructor|]. split.
    + intros c Hc. rewrite Hone. cbn [fst snd]. by rewrite Hin1.
    + done.
  - inversion Hpos as [|? ? Hl0 Hrest]; subst. cbn [snd] in Hl0.
    cbn [range_insert] in Hi.
    destruct (Z.ltb_spec (s + l) s0).
    { inversion Hi; subst. split; [by repeat constructor|]. split.
      - intros c Hc. rewrite Hone. cbn [fst snd]. by rewrite Hin1.
      - intros c Hc. rewrite Hone. by rewrite Hc, orb_true_r. }
    destruct (Z.eqb_spec (s + l) s0).
    { inversion Hi; subst. split; [constructor; [cbn; lia|done]|]. split.
      - intros c Hc. rewrite Hone. cbn [fst snd]. rewrite Hin1; [done|lia].
      - intros c Hc. rewrite Hone in Hc. rewrite Hone. cbn [fst snd] in *.
        apply orb_true_iff in Hc as [Hc|Hc]; [|by rewrite Hc, orb_true_r].
        apply Hin2 in Hc. rewrite Hin1; [done|lia]. }
    destruct (Z.ltb_spec (s0 + l0) s).
    { destruct (range_insert rest s l) as [rs1|] eqn:E1; [|done].
      inversion Hi; subst.
      destruct (IH s l rs1 Hrest Hl E1) as (Hp1 & Hnew & Hold).
      split; [by constructor|]. split.
      - intros c Hc. rewrite Hone. by rewrite Hnew, orb_true_r.
      - intros c Hc. rewrite Hone in Hc. rewrite Hone.
        apply orb_true_iff in Hc as [Hc|Hc]; [by rewrite Hc|].
        by rewrite Hold, orb_true_r. }
    destruct (Z.eqb_spec (s0 + l0) s); [|done].
    destruct rest as [|[s1 l1] rest'].
    { inversion Hi; subst. split; [constructor; [cbn; lia|done]|]. split.
      - intros c Hc. rewrite Hone. cbn [fst snd]. rewrite Hin1; [done|lia].
      - intros c Hc. rewrite Hone in Hc. rewrite Hone. cbn [fst snd] in *.
        apply orb_true_iff in Hc as [Hc|Hc]; [|done].
        apply Hin2 in Hc. rewrite Hin1; [done|lia]. }
    inversion Hrest as [|? ? Hl1 Hrest']; subst. cbn [snd] in Hl1.
    destruct (Z.ltb_spec (s0 + l0 + l) s1).
    { inversion Hi; subst. split; [constructor; [cbn; lia|done]|]. split.
      - intros c Hc. rewrite Hone. cbn [fst snd]. rewrite Hin1; [done|lia].
      - intros c Hc. rewrite Hone in Hc. rewrite Hone. cbn [fst snd] in *.
        apply orb_true_iff in Hc as [Hc|Hc]; [|by rewrite Hc, orb_true_r].
        apply Hin2 in Hc. rewrite Hin1; [done|lia]. }
    destruct (Z.eqb_spec (s0 + l0 + l) s1); [|done].
    inversion Hi; subst. split; [constructor; [cbn; lia|done]|]. split.
    + intros c Hc. rewrite Hone. cbn [fst snd]. rewrite Hin1; [done|lia].
    + intros c Hc. rewrite Hone in Hc. rewrite Hone. cbn [fst snd] in *.
      apply orb_true_iff in Hc as [Hc|Hc].
      { apply Hin2 in Hc. rewrite Hin1; [done|lia]. }
      rewrite Hone in Hc. cbn [fst snd] in Hc.
      apply orb_true_iff in Hc as [Hc|Hc]; [|by rewrite Hc, orb_true_r].
      apply Hin2 in Hc. rewrite Hin1; [done|lia].
Qed.

(** A call of [shfs_alist_register] keeps registered what was, whether it
    succeeds or not; when it succeeds its own range is registered. *)
Lemma register_keeps al s l :
  Forall (fun r => 0 < r.2) (al_ranges al) -> 0 <= l ->
  let r := shfs_alist_register al s l in
  Forall (fun r => 0 < r.2) (al_ranges r.2) /\
  (forall c, range_registered (al_ranges al) c 1 = true ->
             range_registered (al_ranges r.2) c 1 = true) /\
  (0 <= r.1 -> forall c, s <= c < s + l ->
                         range_registered (al_ranges r.2) c 1 = true).
Proof.
  intros Hpos Hl r. unfold r, shfs_alist_register.
  destruct (Z.eqb_spec l 0) as [->|Hne].
  { cbn [fst snd]. split; [done|]. split; [done|]. intros _ c Hc. lia. }
  destruct (range_insert (al_ranges al) s l) as [rs|] eqn:Ei.
  - assert (Hl0 : 0 < l) by lia.
    destruct (range_insert_registers _ _ _ _ Hpos Hl0 Ei) as (Hp & Hnew & Hold).
    cbn [fst snd al_ranges set_ranges]. split; [done|]. split; [done|].
    intros _. done.
  - cbn [fst snd]. split; [done|]. split; [done|]. intros Hneg. lia.
Qed.

(** X8. After [load_vol_alist] every chunk of the label (chunks 0 and
    1), of the hash table and, when there is one, of its backup is
    registered in the allocator, whatever containers the entries of the
    table name: the registration of a container can fail, it cannot
    unregister what is registered. *)
Theorem mount_registers_metadata w v w' v' :
  0 < chunksize v ->
  load_vol_alist w v = Some (w', v') ->
  forall c,
    0 <= c < 2
    \/ htable_ref v <= c < htable_ref v + Z.of_nat (htable_len v)
    \/ (htable_bak_ref v <> 0 /\
        htable_bak_ref v <= c < htable_bak_ref v + Z.of_nat (htable_len v)) ->
    range_registered (al_ranges (vol_al v')) c 1 = true.
Proof.
  intros Hcs H. unfold load_vol_alist in H.
  destruct (libcall w) as [ok w1]. destruct ok; [|done]. cbn [negb] in H.
  set (a0 := shfs_alloc_alist (volsize v) (allocator v)) in *.
  assert (Hp0 : Forall (fun r => 0 < r.2) (al_ranges a0)) by constructor.
  destruct (register_keeps a0 0 2 Hp0 ltac:(lia)) as (Hp1 & _ & Hn1).
  destruct (shfs_alist_register a0 0 2) as [r1 a1]. cbn [fst snd] in *.
  destruct (Z.ltb_spec r1 0); [done|].
  destruct (register_keeps a1 (htable_ref v) (Z.of_nat (htable_len v)) Hp1 ltac:(lia))
    as (Hp2 & Hk2 & Hn2).
  destruct (shfs_alist_register a1 _ _) as [r2 a2]. cbn [fst snd] in *.
  destruct (Z.ltb_spec r2 0); [done|].
  destruct (register_keeps a2 (htable_bak_ref v) (Z.of_nat (htable_len v)) Hp2
              ltac:(lia)) as (Hp3 & Hk3 & Hn3).
  assert (Hfold : forall bes a,
            Forall (fun r => 0 < r.2) (al_ranges a) ->
            forall c, range_registered (al_ranges a) c 1 = true ->
            range_registered
              (al_ranges
                 (fold_left
                    (fun a be =>
                       let e := hentry_of v be in
                       (shfs_alist_register a (he_chunk e) (container_size v e)).2)
                    bes a)) c 1 = true).
  { induction bes as [|be bes IHb]; intros a Hpa c Hc; [done|].
    cbn [fold_left].
    destruct (register_keeps a (he_chunk (hentry_of v be))
                (container_size v (hentry_of v be)) Hpa) as (Hp' & Hk' & _).
    { unfold container_size. by apply DIV_ROUND_UP_nonneg. }
    apply IHb; [done|]. by apply Hk'. }
  destruct (Z.eqb_spec (htable_bak_ref v) 0) as [Hz|Hnz].
  - destruct (Z.ltb_spec 0 0); [lia|]. inversion H; subst; clear H.
    intros c Hc. cbn [vol_al set_al]. apply Hfold; [done|].
    destruct Hc as [Hc|[Hc|[Hc _]]]; [|by apply Hn2|done].
    apply Hk2. by apply Hn1.
  - destruct (shfs_alist_register a2 _ _) as [r3 a3]. cbn [fst snd] in *.
    destruct (Z.ltb_spec r3 0); [done|]. inversion H; subst; clear H.
    intros c Hc. cbn [vol_al set_al]. apply Hfold; [done|].
    destruct Hc as [Hc|[Hc|[_ Hc]]].
    + apply Hk3, Hk2. by apply Hn1.
    + apply Hk3. by apply Hn2.
    + by apply Hn3.
Qed.

End Admin.

(* ------------------------------------------------------------------ *)
(** * The statements on the sample volume *)

Example mount_sample :
  mount_shfs sample_world sample_vol = Some (sample_world, mounted_vol).
Proof. vm_compute. reflexivity. Qed.

(** C6 on the sample volume.  Adding hello.txt twice: the digest is in
    the table when the second call starts, and the second call returns -1
    with the diagnostic of the duplicate and the volume, allocator included,
    as the first left it. *)
Lemma addfile_failure_releases_container_witness :
  let r1 := actn_addfile sample_digest sample_prefix 32 64 sample_world
              mounted_vol (tok ADDOBJ "hello.txt") in
  let w1 := world_of sample_world r1 in
  let v1 := vol_of mounted_vol r1 in
  let r2 := actn_addfile sample_digest sample_prefix 32 64 w1 v1
              (tok ADDOBJ "hello.txt") in
  let w2 := world_of w1 r2 in
  let v2 := vol_of v1 r2 in
  ret_of r1 = 0 /\ ret_of r2 = -1 /\
  w2 = eprintf msg_duplicate w1 /\
  vol_al v2 = vol_al v1 /\ v2 = v1.
Proof.
  intros r1 w1 v1 r2 w2 v2.
  assert (E2 : actn_addfile sample_digest sample_prefix 32 64 w1 v1
                 (tok ADDOBJ "hello.txt") = Some (ret_of r2, w2, v2))
    by (vm_compute; reflexivity).
  assert (Hwf : alist_wf (vol_al v1) = true) by (vm_compute; reflexivity).
  assert (Hcs : 0 < chunksize v1) by (vm_compute; reflexivity).
  pose proof (addfile_failure_releases_container sample_digest sample_prefix
                32 64 w1 v1 _ (ret_of r2) w2 v2 Hwf Hcs E2) as [Hal Hdup].
  assert (Hf : w_files w1 !! path (tok ADDOBJ "hello.txt")
               = Some {| f_regular := true; f_data := hello_world |})
    by (vm_compute; reflexivity).
  destruct (Hdup _ Hf) as (Hret & Hv & Hdiag).
  { vm_compute; reflexivity. }
  { vm_compute; split; reflexivity. }
  { left. vm_compute. by eexists. }
  destruct Hdiag as [Hm1 Hw]; try (vm_compute; reflexivity).
  { vm_compute; discriminate. }
  split; [vm_compute; reflexivity|].
  split; [exact Hm1|]. split; [rewrite Hw; vm_compute; reflexivity|].
  split; [by apply Hal|exact Hv].
Defined.

(** The full bucket on the sample volume: once b0 to b3 are added, the
    four entries of bucket 1 are taken; the digest of b4 is not in the table
    and falls into the same bucket, and add of b4 returns -1 with the
    diagnostic of the full bucket and the volume as it was. *)
Lemma addfile_bucket_full_sample :
  let r := default (sample_world_bucket, mounted_vol, 0, [])
             (run_tokens sample_digest sample_prefix 32 64
                [tok ADDOBJ "b0"; tok ADDOBJ "b1"; tok ADDOBJ "b2"; tok ADDOBJ "b3"]
                sample_world_bucket mounted_vol 0 []) in
  let w4 := r.1.1.1 in
  let v4 := r.1.1.2 in
  r.2 = [0; 0; 0; 0] /\
  shfs_btable_lookup sample_prefix (vol_bt v4) (sample_digest [x01; x01]) = None /\
  shfs_btable_addentry sample_prefix (vol_bt v4) (sample_digest [x01; x01]) = None /\
  actn_addfile sample_digest sample_prefix 32 64 w4 v4 (tok ADDOBJ "b4")
  = Some (-1, eprintf msg_bucketfull w4, v4).
Proof. vm_compute. repeat split; reflexivity. Qed.

(** C10 on the sample volume.  Removing with a digest string that is no
    hex string, on the volume holding hello.txt: status -1 and nothing
    changed. *)
Lemma rmfile_atomic_on_failure_witness :
  let r1 := actn_addfile sample_digest sample_prefix 32 64 sample_world
              mounted_vol (tok ADDOBJ "hello.txt") in
  let w1 := world_of sample_world r1 in
  let v1 := vol_of mounted_vol r1 in
  let r2 := actn_rmfile sample_prefix w1 v1 (tok RMOBJ "not-a-digest") in
  r2.1.1 = -1 /\ vol_bt r2.2 = vol_bt v1 /\
  htable_chunk_cache r2.2 = htable_chunk_cache v1 /\
  htable_chunk_cache_state r2.2 = htable_chunk_cache_state v1.
Proof.
  intros r1 w1 v1 r2.
  assert (E : actn_rmfile sample_prefix w1 v1 (tok RMOBJ "not-a-digest")
              = (r2.1.1, r2.1.2, r2.2)) by (vm_compute; reflexivity).
  destruct (rmfile_atomic_on_failure sample_prefix _ _ _ _ _ _ E)
    as (Hp & _ & _ & Hfail & _).
  assert (Hret : r2.1.1 = -1) by (apply Hp; vm_compute; reflexivity).
  split; [exact Hret|].
  destruct Hfail as (Hbt & Hc & Hs & _); [rewrite Hret; lia|].
  auto.
Defined.



(** C7 as stated fails.  After adding hello.txt and block.bin to the
    sample volume, chunks 10 and 15 of the table are MODIFIED.  Unmount writes chunk 10 to the
    primary region (chunk 12 of the volume) and to the backup region (chunk
    28) and only then chunk 15 to the primary region (chunk 17): the
    write-back of the primary region does not come first as a whole. *)
Lemma umount_interleaves_regions :
  let r1 := actn_addfile sample_digest sample_prefix 32 64 sample_world
              mounted_vol (tok ADDOBJ "hello.txt") in
  let r2 := actn_addfile sample_digest sample_prefix 32 64
              (world_of sample_world r1) (vol_of mounted_vol r1)
              (tok ADDOBJ "block.bin") in
  let w2 := world_of sample_world r2 in
  let v2 := vol_of mounted_vol r2 in
  let u := default (w2, v2) (umount_shfs w2 v2) in
  umount_shfs w2 v2 = Some u /\
  htable_bak_ref v2 <> 0 /\
  s_written (vol_s u.2) = [34; 35; 12; 28; 17; 33] /\
  ~ primary_before_backup v2 (s_written (vol_s u.2)).
Proof.
  intros r1 r2 w2 v2 u.
  split; [vm_compute; reflexivity|].
  split; [vm_compute; discriminate|].
  split; [vm_compute; reflexivity|].
  intros Hpb.
  assert (Hlt : (4 < 3)%nat).
  { apply (Hpb 15%nat 10%nat 4%nat 3%nat); vm_compute; reflexivity. }
  lia.
Qed.

(** C7 on the sample volume: in the same unmount the journal grows by the
    writes of [flush_writes], chunk by chunk. *)
Lemma umount_flush_order_witness :
  let r1 := actn_addfile sample_digest sample_prefix 32 64 sample_world
              mounted_vol (tok ADDOBJ "hello.txt") in
  let r2 := actn_addfile sample_digest sample_prefix 32 64
              (world_of sample_world r1) (vol_of mounted_vol r1)
              (tok ADDOBJ "block.bin") in
  let w2 := world_of sample_world r2 in
  let v2 := vol_of mounted_vol r2 in
  let u := default (w2, v2) (umount_shfs w2 v2) in
  flush_writes v2 = [12; 28; 17; 33] /\
  s_written (vol_s u.2) = s_written (vol_s v2) ++ flush_writes v2.
Proof.
  intros r1 r2 w2 v2 u.
  assert (Hum : umount_shfs w2 v2 = Some (u.1, u.2)) by (vm_compute; reflexivity).
  split; [vm_compute; reflexivity|].
  exact (proj1 (umount_flush_order _ _ _ _ Hum)).
Defined.

(** C1 at its failing input: on the mounted sample volume the invariant
    holds; adding hello.txt with a signal arriving during the copy loop
    (or with the write of the payload chunk failing) returns an error,
    releases the container and leaves the new entry in the hash table: the
    invariant no longer holds. *)
Theorem addfile_copy_failure_breaks_registration :
  let rc := actn_addfile sample_digest sample_prefix 32 64
              (sample_world_cancel 1) mounted_vol (tok ADDOBJ "hello.txt") in
  let rw := actn_addfile sample_digest sample_prefix 32 64
              (sample_world_faults
                 [false; false; false; false; false; false; false; true])
              mounted_vol (tok ADDOBJ "hello.txt") in
  containers_registered mounted_vol = true /\
  ret_of rc = -2 /\ containers_registered (vol_of mounted_vol rc) = false /\
  ret_of rw = -1 /\
  w_stderr (world_of sample_world rw) = [msg_volwrite] /\
  containers_registered (vol_of mounted_vol rw) = false.
Proof. vm_compute. repeat split; reflexivity. Qed.

(** C2 at its failing input.  On the mounted sample volume add of x.txt
    fails in the copy loop and leaves its entry behind, with chunk 34 free
    again (the defect of C1); add of a.txt succeeds and puts a.txt into
    chunk 34, and an export of its digest writes the bytes of a.txt.  Remove
    of the entry of x.txt then releases chunk 34, add of b.txt succeeds and
    writes b.txt over it, and the next export of the digest of a.txt returns
    0 and writes the bytes of b.txt.  All the while the volume is well
    formed. *)
Theorem export_after_stale_entry_writes_other_file :
  let r := run_tokens sample_digest sample_prefix 32 64
             [tok ADDOBJ "x.txt"; tok ADDOBJ "a.txt"; tok CATOBJ a_digest;
              tok RMOBJ x_digest; tok ADDOBJ "b.txt"; tok CATOBJ a_digest]
             sample_world_stale mounted_vol 0 [] in
  let w' := (default (sample_world_stale, mounted_vol, 0, []) r).1.1.1 in
  let v' := (default (sample_world_stale, mounted_vol, 0, []) r).1.1.2 in
  hash_parse a_digest 32 = Some (sample_digest [x41; x41; x41; x41]) /\
  is_Some r /\
  (default (sample_world_stale, mounted_vol, 0, []) r).2 = [-1; 0; 0; 0; 0; 0] /\
  w_stdout w' = [x41; x41; x41; x41] ++ [x42; x42; x42; x42] /\
  s_written (vol_s v') = [34; 34] /\
  vol_wf v' = true.
Proof. vm_compute. repeat split; try reflexivity. by eexists. Qed.

(** Export and the digest of a file of full chunks: block.bin is added
    with success, and an export of the digest of its 4096 bytes finds no
    entry: the entry carries the digest of no bytes. *)
Lemma export_by_own_digest_misses_full_chunk :
  let r := run_tokens sample_digest sample_prefix 32 64
             [tok ADDOBJ "block.bin"; tok CATOBJ block_digest]
             sample_world mounted_vol 0 [] in
  let w' := (default (sample_world, mounted_vol, 0, []) r).1.1.1 in
  hash_parse block_digest 32 = Some (sample_digest (replicate 4096 x61)) /\
  is_Some r /\
  (default (sample_world, mounted_vol, 0, []) r).2 = [0; -1] /\
  w_stdout w' = [] /\ w_stderr w' = [msg_noentry; msg_error].
Proof. vm_compute. repeat split; try reflexivity. by eexists. Qed.

(** C3 at its failing input: block.bin is 4096 bytes long, one full
    chunk.  The hashing loop runs once, with [rlen = fsize % chunksize = 0]:
    nothing is fed to mhash, and the digest stored by [actn_addfile] is the
    digest of no bytes, not the digest of the file. *)
Theorem addfile_hashes_no_byte_of_full_chunk :
  let data := replicate 4096 x61 in
  let fd := {| fd_file := {| f_regular := true; f_data := data |}; fd_pos := 0 |} in
  let r := actn_addfile sample_digest sample_prefix 32 64 sample_world
             mounted_vol (tok ADDOBJ "block.bin") in
  let e := hentry_of (vol_of mounted_vol r) (bentry_of (vol_of mounted_vol r) 252) in
  DIV_ROUND_UP 4096 (chunksize mounted_vol) = 1 /\
  (addfile_hash_loop 1 0 1 4096 sample_world mounted_vol fd
     (replicate 4096 xaa) []).1.1.1 = inr [] /\
  ret_of r = 0 /\ he_len e = 4096 /\
  he_hash e = take 32 (sample_digest []) /\
  he_hash e <> take 32 (sample_digest data).
Proof. vm_compute. repeat split; try reflexivity. discriminate. Qed.

(** C5 at its failing input.  A signal seen in the hashing loop makes
    [actn_addfile] return -2 with the volume unchanged; a signal seen in the
    copy loop makes it return -2 with the allocator as before, but with the
    new entry in the bucket table and in the chunk cache and with the
    MODIFIED bit of its chunk set. *)
Theorem addfile_cancel_in_copy_keeps_entry :
  let rh := actn_addfile sample_digest sample_prefix 32 64
              (sample_world_cancel 0) mounted_vol (tok ADDOBJ "hello.txt") in
  let rc := actn_addfile sample_digest sample_prefix 32 64
              (sample_world_cancel 1) mounted_vol (tok ADDOBJ "hello.txt") in
  let vc := vol_of mounted_vol rc in
  ret_of rh = -2 /\ vol_of mounted_vol rh = mounted_vol /\
  ret_of rc = -2 /\ vol_al vc = vol_al mounted_vol /\
  shfs_btable_lookup sample_prefix (vol_bt mounted_vol)
    (sample_digest hello_world) = None /\
  shfs_btable_lookup sample_prefix (vol_bt vc)
    (sample_digest hello_world) = Some 160%nat /\
  he_hash (hentry_of vc (bentry_of vc 160)) = sample_digest hello_world /\
  htable_chunk_cache_state mounted_vol !! 10%nat = Some 0 /\
  htable_chunk_cache_state vc !! 10%nat = Some CCS_MODIFIED.
Proof. vm_compute. repeat split; reflexivity. Qed.

(** C8 at its failing input: add hello.txt, make it the default, remove
    it, add it again.  The remove leaves [def_bentry] on the emptied slot
    (160) and the flag in its entry; the second add takes the same slot and
    writes flags 0.  Afterwards no entry has the DEFAULT flag and
    [def_bentry] is still set. *)
Theorem default_reference_outlives_entry :
  let toks3 := [tok ADDOBJ "hello.txt"; tok SETDEFOBJ hello_digest;
                tok RMOBJ hello_digest] in
  let toks4 := toks3 ++ [tok ADDOBJ "hello.txt"] in
  let fallback := (sample_world, mounted_vol, 0, []) in
  let r3 := default fallback
              (run_tokens sample_digest sample_prefix 32 64 toks3
                 sample_world mounted_vol 0 []) in
  let r4 := default fallback
              (run_tokens sample_digest sample_prefix 32 64 toks4
                 sample_world mounted_vol 0 []) in
  default_consistent mounted_vol = true /\
  r3.2 = [0; 0; 0] /\
  def_bentry r3.1.1.2 = Some 160%nat /\
  hash_is_zero (he_hash (hentry_of r3.1.1.2 (bentry_of r3.1.1.2 160))) = true /\
  r4.2 = [0; 0; 0; 0] /\
  default_slots r4.1.1.2 = [] /\
  def_bentry r4.1.1.2 = Some 160%nat /\
  default_consistent r4.1.1.2 = false.
Proof. vm_compute. repeat split; reflexivity. Qed.

(** C4 as stated fails.  Adding empty.bin to the sample volume: the add
    does not succeed and no entry is created. *)
Lemma addfile_empty_file_fails :
  let r := actn_addfile sample_digest sample_prefix 32 64 sample_world
             mounted_vol (tok ADDOBJ "empty.bin") in
  shfs_alist_find_free (vol_al mounted_vol) 0 = 0 /\
  r = Some (-1, eprintf msg_nospace sample_world, mounted_vol) /\
  ret_of r <> 0 /\
  foreach_htable_el (vol_bt (vol_of mounted_vol r)) = [].
Proof. vm_compute. repeat split; try reflexivity. discriminate. Qed.

(** C4 on the sample volume: the diagnostic of the rejected add. *)
Lemma addfile_empty_file_rejected_witness :
  actn_addfile sample_digest sample_prefix 32 64 sample_world mounted_vol
    (tok ADDOBJ "empty.bin")
  = Some (-1, eprintf msg_nospace sample_world, mounted_vol).
Proof.
  assert (Hcs : 0 < chunksize mounted_vol <= 2 ^ 64) by (vm_compute; split; [reflexivity|discriminate]).
  assert (Hf : w_files sample_world !! path (tok ADDOBJ "empty.bin")
               = Some {| f_regular := true; f_data := [] |})
    by (vm_compute; reflexivity).
  exact (proj2 (addfile_empty_file_rejected sample_digest sample_prefix 32 64
                  sample_world mounted_vol (tok ADDOBJ "empty.bin") _
                  Hcs Hf eq_refl) eq_refl eq_refl).
Defined.

(** Add and export on the sample volume.  Adding hello.txt and exporting
    its digest: the 11 bytes of the file come out. *)
Lemma add_then_export_witness :
  let r1 := actn_addfile sample_digest sample_prefix 32 64 sample_world
              mounted_vol (tok ADDOBJ "hello.txt") in
  let w1 := world_of sample_world r1 in
  let v1 := vol_of mounted_vol r1 in
  let r2 := actn_catfile sample_prefix w1 v1 (tok CATOBJ hello_digest) in
  ret_of r1 = 0 /\ ret_of r2 = 0 /\ w_stdout (world_of w1 r2) = hello_world.
Proof.
  intros r1 w1 v1 r2.
  assert (E1 : actn_addfile sample_digest sample_prefix 32 64 sample_world
                 mounted_vol (tok ADDOBJ "hello.txt") = Some (0, w1, v1))
    by (vm_compute; reflexivity).
  assert (Hwf : vol_wf mounted_vol = true) by (vm_compute; reflexivity).
  assert (Hf : w_files sample_world !! path (tok ADDOBJ "hello.txt")
               = Some {| f_regular := true; f_data := hello_world |})
    by (vm_compute; reflexivity).
  assert (Hsize : Z.of_nat (length (f_data {| f_regular := true;
                                            f_data := hello_world |})) < 2 ^ 63)
    by (vm_compute; reflexivity).
  destruct (add_then_export sample_digest sample_prefix 32 64 _ _ _ _ _ _
              Hwf Hf Hsize E1)
    as (h & Hold & Huniq & Hint & Hcat).
  assert (Hdig : sample_digest hello_world = h).
  { apply Huniq; [vm_compute; reflexivity|].
    exists 160%nat. vm_compute. reflexivity. }
  destruct (Hcat v1 w1 (tok CATOBJ hello_digest)) as (ret & w2 & Hrun & Hok & Hnf).
  { vm_compute. split; reflexivity. }
  { vm_compute. reflexivity. }
  { exact Hint. }
  { rewrite <- Hdig. vm_compute. reflexivity. }
  assert (Hret : ret = 0) by (apply Hnf; vm_compute; reflexivity).
  split; [vm_compute; reflexivity|].
  unfold r2. rewrite Hrun. cbn [ret_of world_of].
  split; [exact Hret|].
  rewrite (Hok Hret). cbn [f_data].
  assert (Hout1 : w_stdout w1 = []) by (vm_compute; reflexivity).
  rewrite Hout1. reflexivity.
Defined.

(* ------------------------------------------------------------------ *)
(** * The further properties on the sample volume *)

(** X1 on the sample volume: adding hello.txt. *)
Lemma addfile_writes_free_chunks_witness :
  let r := actn_addfile sample_digest sample_prefix 32 64 sample_world
             mounted_vol (tok ADDOBJ "hello.txt") in
  s_written (vol_s (vol_of mounted_vol r)) = [34] /\
  exists ws,
    s_written (vol_s (vol_of mounted_vol r)) = s_written (vol_s mounted_vol) ++ ws /\
    (forall c, In c ws ->
       2 <= c <= volsize mounted_vol /\
       range_registered (al_ranges (vol_al mounted_vol)) c 1 = false) /\
    (forall a, ~ In a ws ->
       s_chunks (vol_s (vol_of mounted_vol r)) !! a
       = s_chunks (vol_s mounted_vol) !! a) /\
    (forall s l, range_registered (al_ranges (vol_al mounted_vol)) s l = true ->
       forall c, In c ws -> ~ (s <= c < s + l)) /\
    (forall e, entry_registered mounted_vol e = true ->
       forall c, In c ws ->
         ~ (he_chunk e <= c < he_chunk e + container_size mounted_vol e)).
Proof.
  intros r. split; [vm_compute; reflexivity|].
  apply (addfile_writes_free_chunks sample_digest sample_prefix 32 64 sample_world
           mounted_vol (tok ADDOBJ "hello.txt") (ret_of r) (world_of sample_world r)).
  - vm_compute; reflexivity.
  - intros f Hf. vm_compute in Hf. injection Hf as <-. vm_compute; reflexivity.
  - vm_compute; reflexivity.
Defined.

(** X2 on the sample volume: hello.txt added twice. *)
Lemma addfile_same_file_again_witness :
  let r1 := actn_addfile sample_digest sample_prefix 32 64 sample_world
              mounted_vol (tok ADDOBJ "hello.txt") in
  let w1 := world_of sample_world r1 in
  let v1 := vol_of mounted_vol r1 in
  let r2 := actn_addfile sample_digest sample_prefix 32 64 w1 v1
              (tok ADDOBJ "hello.txt") in
  ret_of r2 < 0 /\ vol_of v1 r2 = v1.
Proof.
  intros r1 w1 v1 r2.
  apply (addfile_same_file_again sample_digest sample_prefix 32 64 sample_world
           mounted_vol (tok ADDOBJ "hello.txt")
           {| f_regular := true; f_data := hello_world |} w1 v1 w1
           (ret_of r2) (world_of w1 r2) (vol_of v1 r2)).
  - vm_compute; reflexivity.
  - vm_compute; reflexivity.
  - vm_compute; reflexivity.
  - vm_compute; reflexivity.
  - vm_compute; reflexivity.
  - vm_compute; reflexivity.
Defined.

(** X3 on the sample volume: hello.txt added and removed again. *)
Lemma add_then_remove_witness :
  let r1 := actn_addfile sample_digest sample_prefix 32 64 sample_world
              mounted_vol (tok ADDOBJ "hello.txt") in
  let w1 := world_of sample_world r1 in
  let v1 := vol_of mounted_vol r1 in
  exists h b,
    shfs_btable_lookup sample_prefix (vol_bt mounted_vol) h = None /\
    shfs_btable_lookup sample_prefix (vol_bt v1) h = Some b /\
    forall w' t,
      hash_parse (path t) (hlen v1) = Some h ->
      exists v2,
        actn_rmfile sample_prefix w' v1 t = (0, w', v2) /\
        vol_al v2 = vol_al mounted_vol /\
        hash_is_zero (he_hash (hentry_of v2 (bentry_of v2 b))) = true /\
        (hash_is_zero h = false ->
         shfs_btable_lookup sample_prefix (vol_bt v2) h = None).
Proof.
  intros r1 w1 v1.
  apply (add_then_remove sample_digest sample_prefix 32 64 sample_world
           mounted_vol (tok ADDOBJ "hello.txt")
           {| f_regular := true; f_data := hello_world |} w1 v1).
  - vm_compute; reflexivity.
  - vm_compute; reflexivity.
  - vm_compute; reflexivity.
  - vm_compute; reflexivity.
Defined.

(** X4 on the sample volume: add, set-default, remove. *)
Lemma tokens_keep_volume_well_formed_witness :
  let r := default (sample_world, mounted_vol, 0, [])
             (run_tokens sample_digest sample_prefix 32 64
                [tok ADDOBJ "hello.txt"; tok SETDEFOBJ hello_digest;
                 tok RMOBJ hello_digest]
                sample_world mounted_vol 0 []) in
  r.2 = [0; 0; 0] /\ vol_wf r.1.1.2 = true.
Proof.
  intros r. split; [vm_compute; reflexivity|].
  apply (tokens_keep_volume_well_formed sample_digest sample_prefix 32 64
           [tok ADDOBJ "hello.txt"; tok SETDEFOBJ hello_digest;
            tok RMOBJ hello_digest]
           sample_world mounted_vol r.1.1.1 r.1.1.2 r.1.2 r.2).
  - vm_compute; reflexivity.
  - vm_compute; reflexivity.
Defined.

(** X5 on the sample volume: hello.txt added and made the default, then
    the default cleared. *)
Lemma cleardefault_clears_every_flag_witness :
  let r := default (sample_world, mounted_vol, 0, [])
             (run_tokens sample_digest sample_prefix 32 64
                [tok ADDOBJ "hello.txt"; tok SETDEFOBJ hello_digest]
                sample_world mounted_vol 0 []) in
  let v := r.1.1.2 in
  let v0 := (actn_cleardefault v).2 in
  default_slots v = [160%nat] /\
  default_slots v0 = [] /\ def_bentry v0 = None /\ default_consistent v0 = true.
Proof.
  intros r v v0. split; [vm_compute; reflexivity|].
  apply (cleardefault_clears_every_flag v).
  - vm_compute; reflexivity.
  - vm_compute; reflexivity.
  - vm_compute; reflexivity.
Defined.

(** X6 on the sample volume: block.bin is the default, then hello.txt is
    made the default. *)
Lemma setdefault_keeps_default_invariant_witness :
  let r := default (sample_world, mounted_vol, 0, [])
             (run_tokens sample_digest sample_prefix 32 64
                [tok ADDOBJ "hello.txt"; tok ADDOBJ "block.bin";
                 tok SETDEFOBJ
                   "ffffffffffffffffffffffffffffffffffffffffffffffffffffffffffffffff"]
                sample_world mounted_vol 0 []) in
  let v := r.1.1.2 in
  let s := actn_setdefault sample_prefix sample_world v (tok SETDEFOBJ hello_digest) in
  default_slots v = [252%nat] /\
  default_consistent s.2 = true /\
  (s.1.1 = 0 \/ s.1.1 = -1) /\
  (s.1.1 = -1 -> s.2 = v) /\
  (s.1.1 = 0 ->
   exists h b, hash_parse (path (tok SETDEFOBJ hello_digest)) (hlen v) = Some h /\
     shfs_btable_lookup sample_prefix (vol_bt v) h = Some b /\
     def_bentry s.2 = Some b /\ default_slots s.2 = [b]).
Proof.
  intros r v s. split; [vm_compute; reflexivity|].
  apply (setdefault_keeps_default_invariant sample_prefix sample_world v
           (tok SETDEFOBJ hello_digest) s.1.1 s.1.2 s.2).
  - vm_compute; reflexivity.
  - vm_compute; reflexivity.
  - vm_compute; reflexivity.
  - vm_compute; reflexivity.
Defined.

(** X7 on the sample volume: mount, list, show information, try to
    export an object that is not there, unmount. *)
Lemma read_only_session_writes_nothing_witness :
  let toks := [tok LSOBJS ""; tok SHOWINFO ""; tok CATOBJ hello_digest] in
  let r := default (sample_world, mounted_vol, 0, [])
             (run_tokens sample_digest sample_prefix 32 64 toks
                sample_world mounted_vol 0 []) in
  r.2 = [0; 0; -1] /\
  vol_s mounted_vol = vol_s sample_vol /\ r.1.1.2 = mounted_vol /\
  forall w3, umount_shfs w3 r.1.1.2 = Some (w3, r.1.1.2).
Proof.
  intros toks r. split; [vm_compute; reflexivity|].
  apply (read_only_session_writes_nothing sample_digest sample_prefix 32 64
           sample_world sample_vol toks sample_world mounted_vol
           r.1.1.1 r.1.1.2 r.1.2 r.2).
  - vm_compute; lia.
  - vm_compute; lia.
  - vm_compute; lia.
  - vm_compute; reflexivity.
  - vm_compute; reflexivity.
  - vm_compute; reflexivity.
Defined.

(** X8 on the sample volume: after the hash table has been loaded,
    [load_vol_alist] registers chunk 20 of the backup table. *)
Lemma mount_registers_metadata_witness :
  let h := default (sample_world, sample_vol) (load_vol_htable sample_world sample_vol) in
  let a := default (sample_world, sample_vol) (load_vol_alist h.1 h.2) in
  range_registered (al_ranges (vol_al a.2)) 20 1 = true.
Proof.
  intros h a.
  apply (mount_registers_metadata h.1 h.2 a.1 a.2).
  - vm_compute; reflexivity.
  - vm_compute; reflexivity.
  - right. right. split; [vm_compute; discriminate|]. vm_compute.
    split; [discriminate|reflexivity].
Defined.

(* ------------------------------------------------------------------ *)
(** * Argument parsing *)


Lemma on_ctoken_last f st l x :
  ps_tokens st = l ++ [x] ->
  ps_tokens (on_ctoken f st) = l ++ [f x].
Proof.
  intros E. unfold on_ctoken. cbn [ps_tokens set_ps_tokens]. rewrite E.
  rewrite length_app. cbn [length]. rewrite Nat.add_1_r. cbn [pred].
  rewrite alter_app_r_alt by lia. by rewrite Nat.sub_diag.
Qed.

Lemma args_add_token_ok st st' :
  args_add_token st = inr st' ->
  ps_tokens st' = ps_tokens st ++ [zero_token] /\
  ps_verbosity st' = ps_verbosity st /\ ps_force st' = ps_force st.
Proof.
  unfold args_add_token. destruct (libcall (ps_w st)) as [ok w].
  destruct ok; [|done]. by inversion 1.
Qed.

Lemma add_token_arg_ok a optarg st st' :
  add_token_arg a optarg st = inr st' ->
  ps_tokens st' = ps_tokens st ++ [set_path optarg (set_action a zero_token)] /\
  ps_verbosity st' = ps_verbosity st /\ ps_force st' = ps_force st.
Proof.
  unfold add_token_arg.
  destruct (args_add_token st) as [r|st1] eqn:E1; [done|].
  apply args_add_token_ok in E1 as (Ht & Hv & Hf).
  unfold parse_args_setval_str.
  destruct (libcall _) as [ok w]. destruct ok; [|done].
  cbn [Z.ltb Z.compare default]. inversion 1; subst st'; clear H.
  split; [|done].
  erewrite on_ctoken_last; [reflexivity|].
  cbn [ps_tokens set_ps_w]. erewrite on_ctoken_last; [reflexivity|exact Ht].
Qed.

Lemma add_token_noarg_ok a st st' :
  add_token_noarg a st = inr st' ->
  ps_tokens st' = ps_tokens st ++ [set_action a zero_token] /\
  ps_verbosity st' = ps_verbosity st /\ ps_force st' = ps_force st.
Proof.
  unfold add_token_noarg.
  destruct (args_add_token st) as [r|st1] eqn:E1; [done|].
  apply args_add_token_ok in E1 as (Ht & Hv & Hf).
  inversion 1; subst st'; clear H. split; [|done].
  erewrite on_ctoken_last; [reflexivity|exact Ht].
Qed.

Lemma set_token_opt_ok msg setter optarg st st' :
  set_token_opt msg setter optarg st = inr st' ->
  exists l t, ps_tokens st = l ++ [t] /\ action t = ADDOBJ /\
    ps_tokens st' = l ++ [setter (Some optarg) t] /\
    ps_verbosity st' = ps_verbosity st /\ ps_force st' = ps_force st.
Proof.
  unfold set_token_opt, ctoken_not_addobj.
  destruct (last (ps_tokens st)) as [t|] eqn:El; [|done].
  destruct (is_addobj (action t)) eqn:Ea; [|done]. cbn [negb].
  unfold parse_args_setval_str.
  destruct (libcall _) as [ok w]. destruct ok; [|done].
  cbn [Z.ltb Z.compare]. inversion 1; subst st'; clear H.
  apply last_Some in El as [l El]. exists l, t.
  split; [done|]. split; [by destruct (action t)|]. split; [|done].
  erewrite on_ctoken_last; [reflexivity|]. exact El.
Qed.

(** What one round of the loop does when the loop goes on. *)
Lemma parse_opt_cases opt optarg st st' :
  parse_opt opt optarg st = inr st' ->
  (opt = "v"%char /\ opt_token (opt, optarg) = None /\
   ps_tokens st' = ps_tokens st /\ ps_force st' = ps_force st /\
   ps_verbosity st'
   = if ps_verbosity st <? D_MAX then u32 (ps_verbosity st + 1) else ps_verbosity st)
  \/ (opt = "f"%char /\ opt_token (opt, optarg) = None /\
      ps_tokens st' = ps_tokens st /\ ps_verbosity st' = ps_verbosity st)
  \/ (exists a p, opt_token (opt, optarg) = Some (a, p) /\
        opt <> "v"%char /\ opt <> "m"%char /\ opt <> "n"%char /\
        ps_tokens st' = ps_tokens st ++ [set_path p (set_action a zero_token)] /\
        ps_verbosity st' = ps_verbosity st)
  \/ (exists setter,
        ((opt = "m"%char /\ setter = set_optstr0)
         \/ (opt = "n"%char /\ setter = set_optstr1)) /\
        opt_token (opt, optarg) = None /\
        exists l t, ps_tokens st = l ++ [t] /\ action t = ADDOBJ /\
          ps_tokens st' = l ++ [setter (Some optarg) t] /\
          ps_verbosity st' = ps_verbosity st).
Proof.
  intros H.
  destruct opt as [[] [] [] [] [] [] [] []]; cbn in H; try discriminate H;
    first
    [ (* -v *)
      left; inversion H; subst st'; clear H;
      split; [reflexivity|]; split; [reflexivity|];
      by destruct (ps_verbosity st <? D_MAX)
    | (* -f *)
      right; left; inversion H; subst st'; clear H; done
    | (* a token with an argument *)
      right; right; left; apply add_token_arg_ok in H as (Ht & Hv & _);
      eexists _, _; split; [reflexivity|]; repeat (split; [discriminate|]); done
    | (* a token without *)
      right; right; left; apply add_token_noarg_ok in H as (Ht & Hv & _);
      eexists _, _; split; [reflexivity|]; repeat (split; [discriminate|]); done
    | (* -m, -n *)
      right; right; right; apply set_token_opt_ok in H as (l & t & H1 & H2 & H3 & H4 & _);
      eexists; split; [first [left; split; reflexivity|right; split; reflexivity]|];
      split; [reflexivity|]; by exists l, t ].
Qed.

Lemma count_v_app pre o :
  count_v (pre ++ [o])
  = count_v pre + (if Ascii.eqb o.1 "v"%char then 1 else 0).
Proof.
  unfold count_v. rewrite List.filter_app, length_app. cbn [List.filter].
  destruct (Ascii.eqb o.1 "v"%char); cbn [length]; lia.
Qed.

Lemma omap_snoc_none {A B} (f : A -> option B) pre o :
  f o = None -> omap f (pre ++ [o]) = omap f pre.
Proof. intros H. rewrite omap_app. simpl. rewrite H. by rewrite app_nil_r. Qed.

Lemma omap_snoc_some {A B} (f : A -> option B) pre o y :
  f o = Some y -> omap f (pre ++ [o]) = omap f pre ++ [y].
Proof. intros H. rewrite omap_app. simpl. by rewrite H. Qed.

Lemma split_last_option {A} (p q pre : list A) (o a : A) :
  pre ++ [o] = p ++ a :: q ->
  (q = [] /\ p = pre /\ a = o) \/ (exists q', q = q' ++ [o] /\ pre = p ++ a :: q').
Proof.
  intros E. destruct (decide (q = [])) as [->|Hq].
  - left. apply app_inj_tail in E as [-> ->]. done.
  - right. destruct (exists_last Hq) as (q' & o' & ->).
    rewrite app_comm_cons, app_assoc in E.
    apply app_inj_tail in E as [-> ->]. by exists q'.
Qed.

Lemma parse_opt_inv vb0 pre opt optarg st st' :
  0 <= vb0 <= D_MAX ->
  parse_inv vb0 pre st ->
  parse_opt opt optarg st = inr st' ->
  parse_inv vb0 (pre ++ [(opt, optarg)]) st'.
Proof.
  intros Hvb (Htok & Hplace & Hopt & Hverb) H.
  assert (Hcnt : 0 <= count_v pre) by (unfold count_v; lia).
  assert (Hplace_other :
            opt <> "m"%char -> opt <> "n"%char ->
            forall p c x q, pre ++ [(opt, optarg)] = p ++ (c, x) :: q ->
              c = "m"%char \/ c = "n"%char ->
              fst <$> last (omap opt_token p) = Some ADDOBJ).
  { intros Hm Hn p c x q E Hc.
    apply split_last_option in E as [(-> & -> & E)|(q' & -> & ->)].
    - inversion E; subst. destruct Hc; congruence.
    - by eapply Hplace. }
  apply parse_opt_cases in H
    as [(-> & Hnone & Ht & _ & Hv)
       |[(-> & Hnone & Ht & Hv)
        |[(a & p & Hsome & Hnv & Hnm & Hnn & Ht & Hv)
         |(setter & Hwhich & Hnone & l & t & Hl & Hact & Ht & Hv)]]].
  - split; [|split; [|split]].
    + by rewrite Ht, (omap_snoc_none _ _ _ Hnone).
    + by apply Hplace_other.
    + by rewrite Ht.
    + rewrite Hv, Hverb, count_v_app. cbn [fst]. rewrite Ascii.eqb_refl.
      unfold D_MAX, D_L1 in *.
      destruct (Z.ltb_spec (Z.min 2 (vb0 + count_v pre)) 2).
      * unfold u32. rewrite Z.mod_small by lia. lia.
      * lia.
  - split; [|split; [|split]].
    + by rewrite Ht, (omap_snoc_none _ _ _ Hnone).
    + by apply Hplace_other.
    + by rewrite Ht.
    + rewrite Hv, Hverb, count_v_app. cbn. lia.
  - split; [|split; [|split]].
    + rewrite Ht, map_app, (omap_snoc_some _ _ _ _ Hsome), Htok. done.
    + by apply Hplace_other.
    + rewrite Ht. apply Forall_app. split; [done|].
      constructor; [|constructor]. done.
    + rewrite Hv, Hverb, count_v_app. cbn [fst].
      destruct (Ascii.eqb_spec opt "v"%char); [done|]. lia.
  - assert (Hmn : opt = "m"%char \/ opt = "n"%char)
      by (destruct Hwhich as [[? _]|[? _]]; auto).
    assert (Hlast : fst <$> last (omap opt_token pre) = Some ADDOBJ).
    { rewrite <- Htok, Hl, map_app. cbn [map]. rewrite last_snoc. cbn. by rewrite Hact. }
    split; [|split; [|split]].
    + rewrite Ht, (omap_snoc_none _ _ _ Hnone), <- Htok, Hl.
      rewrite !map_app. cbn [map]. do 2 f_equal.
      destruct Hwhich as [[_ ->]|[_ ->]]; done.
    + intros p c x q E Hc.
      apply split_last_option in E as [(-> & -> & E)|(q' & -> & ->)]; [done|].
      by eapply Hplace.
    + rewrite Ht. rewrite Hl in Hopt. apply Forall_app in Hopt as [Hopt1 _].
      apply Forall_app. split; [done|]. constructor; [|constructor].
      intros Hna. exfalso. apply Hna.
      destruct Hwhich as [[_ ->]|[_ ->]]; exact Hact.
    + rewrite Hv, Hverb, count_v_app. cbn [fst].
      destruct Hmn as [-> | ->]; cbn; lia.
Qed.

Lemma parse_opts_inv vb0 opts : forall pre st st',
  0 <= vb0 <= D_MAX ->
  parse_inv vb0 pre st ->
  parse_opts opts st = inr st' ->
  parse_inv vb0 (pre ++ opts) st'.
Proof.
  induction opts as [|[opt optarg] rest IH]; intros pre st st' Hvb Hinv H.
  - inversion H; subst. by rewrite app_nil_r.
  - cbn [parse_opts] in H.
    destruct (parse_opt opt optarg st) as [r|st1] eqn:E1; [done|].
    replace (pre ++ (opt, optarg) :: rest) with ((pre ++ [(opt, optarg)]) ++ rest)
      by (by rewrite <- app_assoc).
    eapply IH; [done| |exact H]. by eapply parse_opt_inv.
Qed.

Lemma parse_inv_start vb0 w f :
  0 <= vb0 <= D_MAX ->
  parse_inv vb0 [] {| ps_w := w; ps_verbosity := vb0; ps_force := f;
                      ps_tokens := [] |}.
Proof.
  intros Hvb. split; [done|]. split; [|split; [constructor|]].
  - intros p c x q E. by destruct p.
  - cbn [ps_verbosity]. change (count_v []) with 0.
    unfold D_MAX, D_L1 in *. lia.
Qed.

Lemma parse_args_return0 argc argv opts optind w vb f w' vb' f' a :
  parse_args argc argv opts optind w vb f = ParseReturn 0 w' vb' f' a ->
  exists st,
    parse_opts opts {| ps_w := w; ps_verbosity := vb; ps_force := f;
                       ps_tokens := [] |} = inr st /\
    optind < argc /\ vb' = ps_verbosity st /\
    a = {| devpath := drop (Z.to_nat optind) argv; nb_devs := argc - optind;
           tokens := ps_tokens st |}.
Proof.
  unfold parse_args. intros H.
  destruct (parse_opts opts _) as [r|st] eqn:E.
  - exfalso. subst r. revert E. generalize
      {| ps_w := w; ps_verbosity := vb; ps_force := f; ps_tokens := [] |}.
    induction opts as [|[opt optarg] rest IH]; intros st0 E; [done|].
    cbn [parse_opts] in E.
    destruct (parse_opt opt optarg st0) as [r|st1] eqn:E1; [|by eapply IH].
    inversion E; subst r; clear E.
    destruct opt as [[] [] [] [] [] [] [] []]; cbn in E1; try discriminate E1;
      unfold add_token_arg, add_token_noarg, args_add_token, set_token_opt,
        parse_args_setval_str, parse_die, parse_return in E1;
      repeat match type of E1 with
      | context [libcall ?x] => destruct (libcall x) as [[] ?]
      | context [ctoken_not_addobj ?x] => destruct (ctoken_not_addobj x)
      end; cbn in E1; discriminate E1.
  - exists st. split; [done|].
    destruct (Z.leb_spec argc optind); [discriminate H|].
    inversion H; subst. done.
Qed.



(** X11. [parse_args] counts the -v options up to [D_MAX] and no
    further: the verbosity it leaves is the smaller of [D_MAX] and the
    verbosity it found plus the number of -v. *)
Theorem parse_args_verbosity argc argv opts optind w vb f w' vb' f' a :
  0 <= vb <= D_MAX ->
  parse_args argc argv opts optind w vb f = ParseReturn 0 w' vb' f' a ->
  vb' = Z.min D_MAX (vb + count_v opts).
Proof.
  intros Hvb H. apply parse_args_return0 in H as (st & Hst & _ & -> & _).
  by pose proof (parse_opts_inv vb opts [] _ st Hvb (parse_inv_start vb w f Hvb) Hst)
    as (_ & _ & _ & ->).
Qed.




(** X11 on the same command line with three -v in front: the verbosity
    stops at 2. *)
Lemma parse_args_verbosity_witness :
  2 = Z.min D_MAX (0 + count_v (("v"%char, EmptyString) :: ("v"%char, EmptyString)
                                :: ("v"%char, EmptyString) :: sample_opts)).
Proof.
  assert (Hvb : 0 <= 0 <= D_MAX) by (vm_compute; split; discriminate).
  exact (parse_args_verbosity 9 sample_argv_v
           (("v"%char, EmptyString) :: ("v"%char, EmptyString)
            :: ("v"%char, EmptyString) :: sample_opts) 8
           sample_world 0 0 sample_world 2 0 sample_args Hvb eq_refl).
Defined.

(** ** The MIME type and the name of an add-obj token *)

Lemma parse_opts_app p : forall q st st',
  parse_opts (p ++ q) st = inr st' ->
  exists st1, parse_opts p st = inr st1 /\ parse_opts q st1 = inr st'.
Proof.
  induction p as [|[opt optarg] p IH]; intros q st st' H.
  - by exists st.
  - cbn [app parse_opts] in H |- *.
    destruct (parse_opt opt optarg st) as [r|st1]; [done|]. by apply IH.
Qed.

Lemma omap_cons_none {A B} (f : A -> option B) o l :
  f o = None -> omap f (o :: l) = omap f l.
Proof. intros H. simpl. by rewrite H. Qed.

Lemma omap_cons_some {A B} (f : A -> option B) o l y :
  f o = Some y -> omap f (o :: l) = y :: omap f l.
Proof. intros H. simpl. by rewrite H. Qed.

Lemma parse_opts_length opts : forall st st',
  parse_opts opts st = inr st' ->
  length (ps_tokens st') = (length (ps_tokens st) + length (omap opt_token opts))%nat.
Proof.
  induction opts as [|[opt optarg] rest IH]; intros st st' H.
  - inversion H; subst. cbn. lia.
  - cbn [parse_opts] in H.
    destruct (parse_opt opt optarg st) as [r|st1] eqn:E1; [done|].
    rewrite (IH _ _ H).
    destruct (parse_opt_cases _ _ _ _ E1)
      as [(_ & Hn & -> & _)|[(_ & Hn & -> & _)
         |[(a & p & Hs & _ & _ & _ & -> & _)
          |(setter & _ & Hn & l & t & -> & _ & -> & _)]]].
    + by rewrite (omap_cons_none _ _ _ Hn).
    + by rewrite (omap_cons_none _ _ _ Hn).
    + rewrite (omap_cons_some _ _ _ _ Hs), length_app. cbn. lia.
    + by rewrite (omap_cons_none _ _ _ Hn), !length_app.
Qed.

(** The tokens before the last one are never touched again. *)
Lemma parse_opts_keeps opts : forall st st' i,
  parse_opts opts st = inr st' ->
  (S i < length (ps_tokens st))%nat ->
  ps_tokens st' !! i = ps_tokens st !! i.
Proof.
  induction opts as [|[opt optarg] rest IH]; intros st st' i H Hi.
  - by inversion H; subst.
  - cbn [parse_opts] in H.
    destruct (parse_opt opt optarg st) as [r|st1] eqn:E1; [done|].
    destruct (parse_opt_cases _ _ _ _ E1)
      as [(_ & _ & Ht & _)|[(_ & _ & Ht & _)
         |[(a & p & _ & _ & _ & _ & Ht & _)
          |(setter & _ & _ & l & t & Hst & _ & Ht & _)]]].
    + rewrite (IH _ _ i H) by (rewrite Ht; lia). by rewrite Ht.
    + rewrite (IH _ _ i H) by (rewrite Ht; lia). by rewrite Ht.
    + rewrite (IH _ _ i H) by (rewrite Ht, length_app; lia).
      rewrite Ht. apply lookup_app_l. lia.
    + rewrite (IH _ _ i H) by (rewrite Ht; rewrite Hst in Hi; by rewrite length_app in *).
      rewrite Ht, Hst. rewrite Hst, length_app in Hi. cbn in Hi.
      rewrite !lookup_app_l by lia. done.
Qed.

Lemma last_cons_default {A} (d : option A) (y : A) (l : list A) :
  from_option Some d (last (y :: l)) = from_option Some (Some y) (last l).
Proof.
  destruct l as [|z l]; [done|]. rewrite last_cons_cons.
  assert (Hne : z :: l <> []) by done.
  destruct (exists_last Hne) as (l' & b & ->). by rewrite last_snoc.
Qed.

(** The options -m and -n behind an add-obj option set the MIME type and
    the name of its token, a later one replaces an earlier one. *)
Lemma parse_opts_optstr q : forall st st' l t,
  parse_opts q st = inr st' ->
  Forall (fun o => opt_token o = None) q ->
  ps_tokens st = l ++ [t] -> action t = ADDOBJ ->
  ps_tokens st'
  = l ++ [{| action := ADDOBJ; path := path t;
             optstr0 := from_option Some (optstr0 t) (last_optarg "m" q);
             optstr1 := from_option Some (optstr1 t) (last_optarg "n" q) |}].
Proof.
  induction q as [|[opt optarg] rest IH]; intros st st' l t H Hq Hst Ha.
  - inversion H; subst. rewrite Hst. destruct t; cbn in *. by subst.
  - cbn [parse_opts] in H.
    destruct (parse_opt opt optarg st) as [r|st1] eqn:E1; [done|].
    apply Forall_cons in Hq as [Ho Hrest].
    destruct (parse_opt_cases _ _ _ _ E1)
      as [(-> & _ & Ht & _)|[(-> & _ & Ht & _)
         |[(a & p & Hsome & _)
          |(setter & Hset & _ & l' & t' & Hst' & _ & Ht & _)]]].
    + rewrite (IH _ _ l t H Hrest) by (by rewrite ?Ht). done.
    + rewrite (IH _ _ l t H Hrest) by (by rewrite ?Ht). done.
    + congruence.
    + rewrite Hst in Hst'. apply app_inj_tail in Hst' as [<- <-].
      destruct Hset as [[-> ->]|[-> ->]].
      * rewrite (IH _ _ l (set_optstr0 (Some optarg) t) H Hrest Ht Ha).
        cbn [path set_optstr0 optstr0 optstr1]. unfold last_optarg.
        cbn [omap fst snd Ascii.eqb]. cbn.
        by rewrite last_cons_default.
      * rewrite (IH _ _ l (set_optstr1 (Some optarg) t) H Hrest Ht Ha).
        cbn [path set_optstr1 optstr0 optstr1]. unfold last_optarg.
        cbn [omap fst snd Ascii.eqb]. cbn.
        by rewrite last_cons_default.
Qed.

(** X21. When [parse_args] returns 0, the token of an add-obj option
    carries as MIME type the argument of the last -m, and as name the
    argument of the last -n, among the options between it and the next
    option that stands for an action; it carries none where there is no -m,
    or no -n. *)
Theorem parse_args_mime_name_of_add argc argv opts optind w vb f w' vb' f' a p x q r :
  parse_args argc argv opts optind w vb f = ParseReturn 0 w' vb' f' a ->
  opts = p ++ ("a"%char, x) :: q ++ r ->
  Forall (fun o => opt_token o = None) q ->
  (forall o, head r = Some o -> is_Some (opt_token o)) ->
  tokens a !! length (omap opt_token p)
  = Some {| action := ADDOBJ; path := x;
            optstr0 := last_optarg "m" q; optstr1 := last_optarg "n" q |}.
Proof.
  intros H -> Hq Hr.
  apply parse_args_return0 in H as (st & Hopts & _ & _ & ->). cbn [tokens].
  apply parse_opts_app in Hopts as (st1 & Hp & Hrest).
  apply parse_opts_length in Hp. cbn [ps_tokens length Nat.add] in Hp.
  rewrite <- Hp. cbn [parse_opts] in Hrest.
  destruct (parse_opt "a" x st1) as [?|st2] eqn:Ea; [done|].
  cbn in Ea. apply add_token_arg_ok in Ea as (Ht2 & _).
  apply parse_opts_app in Hrest as (st3 & Hq3 & Hr3).
  pose proof (parse_opts_optstr q st2 st3 _ _ Hq3 Hq Ht2 eq_refl) as Ht3.
  cbn [path optstr0 optstr1 set_path set_action zero_token from_option] in Ht3.
  assert (E0 : forall o : option string, from_option Some None o = o)
    by (by intros []).
  rewrite !E0 in Ht3.
  destruct r as [|[opt optarg] r'].
  - inversion Hr3; subst. rewrite Ht3. by apply list_lookup_middle.
  - cbn [parse_opts] in Hr3.
    destruct (parse_opt opt optarg st3) as [?|st4] eqn:E4; [done|].
    destruct (Hr (opt, optarg) eq_refl) as [y Hy].
    destruct (parse_opt_cases _ _ _ _ E4)
      as [(_ & Hn & _)|[(_ & Hn & _)
         |[(a' & p' & _ & _ & _ & _ & Ht4 & _)
          |(setter & _ & Hn & _)]]]; try congruence.
    rewrite (parse_opts_keeps _ _ _ _ Hr3).
    + rewrite Ht4, Ht3. rewrite <- app_assoc. by apply list_lookup_middle.
    + rewrite Ht4, Ht3, !length_app. cbn. lia.
Qed.

Lemma parse_args_mime_name_of_add_witness :
  tokens sample_args !! length (omap opt_token ([] : list (ascii * string)))
  = Some {| action := ADDOBJ; path := "song.mp3";
            optstr0 := last_optarg "m" [("m"%char, "audio/mpeg3"%string)];
            optstr1 := last_optarg "n" [("m"%char, "audio/mpeg3"%string)] |}.
Proof.
  apply (parse_args_mime_name_of_add 6 sample_argv sample_opts 5
           sample_world 0 0 sample_world 0 0 sample_args
           [] "song.mp3" [("m"%char, "audio/mpeg3"%string)] []).
  - reflexivity.
  - reflexivity.
  - by repeat constructor.
  - intros o Ho. discriminate Ho.
Defined.

(** * The doubly linked list of dlist.h *)

Lemma dl_seg_frame m a e l : forall p q,
  a ∉ l -> dl_seg (<[a := e]> m) p l q <-> dl_seg m p l q.
Proof.
  induction l as [|b t IH]; intros p q Ha; [done|].
  apply not_elem_of_cons in Ha as [Hab Hat]. cbn [dl_seg].
  rewrite lookup_insert_ne by done. by rewrite IH.
Qed.

Lemma dl_seg_app m l1 l2 : forall p q,
  dl_seg m p (l1 ++ l2) q
  <-> dl_seg m p l1 (from_option Some q (head l2))
      /\ dl_seg m (from_option Some p (last l1)) l2 q.
Proof.
  induction l1 as [|a t IH]; intros p q.
  - cbn. tauto.
  - cbn [app dl_seg]. rewrite IH.
    assert (Hnext : match t ++ l2 with [] => q | b :: _ => Some b end
                    = match t with
                      | [] => from_option Some q (head l2)
                      | b :: _ => Some b
                      end).
    { destruct t; [by destruct l2|done]. }
    assert (Hlast : from_option Some (Some a) (last t)
                    = from_option Some p (last (a :: t))).
    { rewrite last_cons. by destruct (last t). }
    rewrite Hnext, Hlast. tauto.
Qed.

Lemma dl_seg_snoc m l x p q :
  dl_seg m p (l ++ [x]) q
  <-> dl_seg m p l (Some x)
      /\ m !! x = Some {| dl_next := q; dl_prev := from_option Some p (last l) |}.
Proof. rewrite dl_seg_app. cbn. tauto. Qed.

Lemma dl_seg_prev m l p p' q :
  l <> [] -> dl_seg m p l q -> dl_seg m p' l q -> p = p'.
Proof. destruct l; [done|]. cbn. intros _ [H1 _] [H2 _]. congruence. Qed.

Lemma dl_store_next_ok m p x e :
  m !! p = Some e ->
  dl_store_next m p x = DlOk (<[p := {| dl_next := x; dl_prev := dl_prev e |}]> m).
Proof. intros H. unfold dl_store_next, dl_load. by rewrite H. Qed.

Lemma dl_store_prev_ok m p x e :
  m !! p = Some e ->
  dl_store_prev m p x = DlOk (<[p := {| dl_next := dl_next e; dl_prev := x |}]> m).
Proof. intros H. unfold dl_store_prev, dl_load. by rewrite H. Qed.

Lemma dlist_init_el_ok m el e :
  m !! el = Some e ->
  dlist_init_el m el
  = DlOk (<[el := {| dl_next := None; dl_prev := None |}]> m).
Proof.
  intros H. unfold dlist_init_el. rewrite (dl_store_next_ok _ _ _ _ H). cbn.
  erewrite dl_store_prev_ok by apply lookup_insert_eq. cbn.
  by rewrite insert_insert_eq.
Qed.

Lemma head_app_ne {A} (l1 l2 : list A) : l1 <> [] -> head (l1 ++ l2) = head l1.
Proof. by destruct l1. Qed.

Lemma last_app_ne {A} (l1 l2 : list A) : l2 <> [] -> last (l1 ++ l2) = last l2.
Proof.
  intros H. destruct (exists_last H) as (l & x & ->).
  by rewrite app_assoc, !last_snoc.
Qed.

(** [dlist_append] on a list [l] held by head and memory, for an
    element that is in memory and not in the list: it ends normally, the
    list is then [l] with the element at its end, and the link fields of no
    element outside the list and other than the new one have changed. *)
Lemma dlist_append_rep m h l el :
  dlist_rep m h l -> el ∉ l -> is_Some (m !! el) ->
  exists m' h',
    dlist_append m h el = DlOk (m', h') /\
    dlist_rep m' h' (l ++ [el]) /\
    forall a, a ∉ l -> a <> el -> m' !! a = m !! a.
Proof.
  intros (Hnd & Hfirst & Hlast & Hseg) Hel [e0 He0].
  assert (Hnd' : NoDup (l ++ [el])).
  { apply NoDup_app. split; [done|]. split; [|apply NoDup_singleton].
    intros x Hx Hx'. apply list_elem_of_singleton in Hx'. by subst. }
  unfold dlist_append, dlist_is_empty.
  destruct (decide (l = [])) as [->|Hne].
  - cbn in Hfirst, Hlast. rewrite Hfirst.
    rewrite bool_decide_eq_true_2 by done.
    rewrite (dl_store_prev_ok _ _ _ _ He0). cbn.
    erewrite dl_store_next_ok by apply lookup_insert_eq. cbn.
    rewrite insert_insert_eq.
    eexists _, _. split; [reflexivity|]. split.
    + split; [done|]. split; [done|]. split; [done|]. cbn.
      by rewrite lookup_insert_eq.
    + intros a _ Ha. by rewrite lookup_insert_ne.
  - destruct (exists_last Hne) as (l1 & x & ->).
    rewrite last_snoc in Hlast.
    assert (Hf : dl_first h <> None) by (rewrite Hfirst; by destruct l1).
    rewrite bool_decide_eq_false_2 by done. rewrite Hlast.
    apply dl_seg_snoc in Hseg as [Hseg1 Hx].
    assert (Hxel : x <> el).
    { intros ->. apply Hel. apply elem_of_app. right. by apply list_elem_of_singleton. }
    rewrite (dl_store_next_ok _ _ _ _ Hx). cbn.
    erewrite dl_store_prev_ok by (rewrite lookup_insert_ne by done; exact He0). cbn.
    erewrite dl_store_next_ok by apply lookup_insert_eq. cbn.
    rewrite insert_insert_eq.
    eexists _, _. split; [reflexivity|]. split.
    + split; [done|]. cbn [dl_first dl_last].
      split; [by rewrite head_app_ne by done|].
      split; [by rewrite last_snoc|].
      apply dl_seg_snoc. split.
      * apply dl_seg_frame; [done|].
        apply dl_seg_snoc. split.
        -- apply dl_seg_frame; [|done].
           apply NoDup_app in Hnd as (_ & Hdis & _). intros Hin.
           apply (Hdis x Hin). by apply list_elem_of_singleton.
        -- by rewrite lookup_insert_eq.
      * rewrite lookup_insert_eq. by rewrite last_snoc.
    + intros a Ha Hael. rewrite lookup_insert_ne by done.
      rewrite lookup_insert_ne; [done|]. intros ->. apply Ha.
      apply elem_of_app. right. by apply list_elem_of_singleton.
Qed.

Lemma snoc_ne {A} (l : list A) (x : A) : l ++ [x] <> [].
Proof. by destruct l. Qed.

Lemma snoc_or_nil {A} (l : list A) : l = [] \/ exists l' x, l = l' ++ [x].
Proof.
  destruct l as [|a t]; [by left|right].
  assert (Hne : a :: t <> []) by done.
  destruct (exists_last Hne) as (l' & x & E). by exists l', x.
Qed.

Lemma dl_seg_cons_prev m x t p p' q e :
  x ∉ t -> m !! x = Some e -> dl_seg m p (x :: t) q ->
  dl_seg (<[x := {| dl_next := dl_next e; dl_prev := p' |}]> m) p' (x :: t) q.
Proof.
  intros Hx He [Hx1 Ht]. cbn [dl_seg]. rewrite lookup_insert_eq. split.
  - rewrite He in Hx1. inversion Hx1; subst. done.
  - by apply dl_seg_frame.
Qed.

(** [dlist_prepend] on a list [l], for an element that is in memory
    and not in the list: it ends normally and the list is then the element
    followed by [l]. *)
Lemma dlist_prepend_rep m h l el :
  dlist_rep m h l -> el ∉ l -> is_Some (m !! el) ->
  exists m' h',
    dlist_prepend m h el = DlOk (m', h') /\
    dlist_rep m' h' (el :: l) /\
    forall a, a ∉ l -> a <> el -> m' !! a = m !! a.
Proof.
  intros (Hnd & Hfirst & Hlast & Hseg) Hel [e0 He0].
  assert (Hnd' : NoDup (el :: l)) by (by apply NoDup_cons).
  unfold dlist_prepend, dlist_is_empty.
  destruct l as [|x t].
  - cbn in Hfirst, Hlast. rewrite Hfirst.
    rewrite bool_decide_eq_true_2 by done.
    rewrite (dl_store_next_ok _ _ _ _ He0). cbn.
    erewrite dl_store_prev_ok by apply lookup_insert_eq. cbn.
    rewrite insert_insert_eq.
    eexists _, _. split; [reflexivity|]. split.
    + split; [done|]. split; [done|]. split; [done|]. cbn.
      by rewrite lookup_insert_eq.
    + intros a _ Ha. by rewrite lookup_insert_ne.
  - cbn [head] in Hfirst. rewrite Hfirst.
    rewrite bool_decide_eq_false_2 by done.
    apply not_elem_of_cons in Hel as [Hxel Helt].
    apply NoDup_cons in Hnd as [Hxt Hndt].
    pose proof Hseg as [Hx _].
    rewrite (dl_store_prev_ok _ _ _ _ Hx). cbn.
    erewrite dl_store_next_ok by (rewrite lookup_insert_ne by done; exact He0). cbn.
    erewrite dl_store_prev_ok by apply lookup_insert_eq. cbn.
    rewrite insert_insert_eq.
    eexists _, _. split; [reflexivity|]. split.
    + split; [done|]. cbn [dl_first dl_last head].
      split; [done|]. split; [by rewrite Hlast, last_cons_cons|].
      split; [by rewrite lookup_insert_eq|].
      apply dl_seg_frame; [by apply not_elem_of_cons|].
      exact (dl_seg_cons_prev m x t None (Some el) None _ Hxt Hx Hseg).
    + intros a Ha Hael. rewrite lookup_insert_ne by done.
      rewrite lookup_insert_ne; [done|]. intros ->. apply Ha. by left.
Qed.

(** [dlist_unlink] on an element of the list: neither [BUG_ON]
    fires, the element is taken out and the others stay in their order, the
    link fields of the element are NULL again, and no element outside the
    list is touched. *)
Lemma dlist_unlink_rep m h l1 el l2 :
  dlist_rep m h (l1 ++ el :: l2) ->
  exists m' h',
    dlist_unlink m h el = DlOk (m', h') /\
    dlist_rep m' h' (l1 ++ l2) /\
    m' !! el = Some {| dl_next := None; dl_prev := None |} /\
    forall a, a ∉ l1 ++ el :: l2 -> m' !! a = m !! a.
Proof.
  intros (Hnd & Hfirst & Hlast & Hseg).
  apply NoDup_app in Hnd as (Hnd1 & Hdis & Hnd2).
  apply NoDup_cons in Hnd2 as [Hel2 Hnd2].
  assert (Hel1 : el ∉ l1) by (intros Hin; apply (Hdis el Hin); by left).
  assert (Hnd12 : NoDup (l1 ++ l2)).
  { apply NoDup_app. split; [done|]. split; [|done].
    intros x Hx Hx'. apply (Hdis x Hx). by right. }
  apply dl_seg_app in Hseg as [Hseg1 Hseg2]. cbn [head from_option] in Hseg1.
  pose proof Hseg2 as [Hel Hseg3].
  assert (Hinit : forall m0 e, m0 !! el = Some e ->
            dlist_init_el m0 el
            = DlOk (<[el := {| dl_next := None; dl_prev := None |}]> m0))
    by (intros; by eapply dlist_init_el_ok).
  unfold dlist_unlink, dl_load. rewrite Hel. cbn [mbind dl_res_bind dl_prev dl_next].
  destruct (snoc_or_nil l1) as [->|(l1' & p & ->)]; destruct l2 as [|n l2'].
  - (* the only element *)
    cbn [app head last] in *. rewrite Hfirst, Hlast.
    rewrite !(bool_decide_eq_true_2 (Some el = Some el)) by done.
    cbn [negb andb from_option mbind dl_res_bind].
    rewrite Hel. cbn [mbind dl_res_bind dl_next dl_prev].
    rewrite (Hinit _ _ Hel). cbn [mbind dl_res_bind].
    eexists _, _. split; [reflexivity|]. split; [|split].
    + split; [constructor|]. done.
    + by rewrite lookup_insert_eq.
    + intros a Ha. apply not_elem_of_cons in Ha as [Ha _].
      by rewrite lookup_insert_ne.
  - (* the first of several *)
    cbn [app head last from_option] in *. rewrite Hfirst.
    rewrite (bool_decide_eq_true_2 (Some el = Some el)) by done.
    rewrite (bool_decide_eq_false_2 (Some n = None)) by done.
    cbn [negb andb mbind dl_res_bind].
    rewrite Hel. cbn [mbind dl_res_bind dl_next dl_prev].
    pose proof Hseg3 as [Hn _].
    assert (Hnel : n <> el) by (intros ->; apply Hel2; by left).
    rewrite (dl_store_prev_ok _ _ _ _ Hn). cbn [mbind dl_res_bind dl_next].
    erewrite Hinit by (rewrite lookup_insert_ne by done; exact Hel).
    cbn [mbind dl_res_bind].
    eexists _, _. split; [reflexivity|]. split; [|split].
    + split; [done|]. cbn [dl_first dl_last head].
      split; [done|]. split; [exact Hlast|].
      apply dl_seg_frame; [done|].
      apply NoDup_cons in Hnd2 as [Hn2 _].
      exact (dl_seg_cons_prev m n l2' (Some el) None None _ Hn2 Hn Hseg3).
    + by rewrite lookup_insert_eq.
    + intros a Ha. apply not_elem_of_cons in Ha as [Ha Ha'].
      apply not_elem_of_cons in Ha' as [Ha' _].
      rewrite lookup_insert_ne by done. by rewrite lookup_insert_ne.
  - (* the last of several *)
    rewrite app_nil_r in *. rewrite last_snoc in *. cbn [from_option] in *.
    rewrite Hlast.
    rewrite (bool_decide_eq_false_2 (Some p = None)) by done.
    rewrite (bool_decide_eq_true_2 (Some el = Some el)) by done.
    cbn [negb andb mbind dl_res_bind]. rewrite andb_false_r.
    apply dl_seg_snoc in Hseg1 as [Hseg1 Hp].
    assert (Hpel : p <> el).
    { intros ->. apply Hel1. apply elem_of_app. right. by left. }
    rewrite (dl_store_next_ok _ _ _ _ Hp). cbn [mbind dl_res_bind dl_prev].
    rewrite lookup_insert_ne by done. rewrite Hel.
    cbn [mbind dl_res_bind dl_next dl_prev].
    erewrite Hinit by (rewrite lookup_insert_ne by done; exact Hel).
    cbn [mbind dl_res_bind].
    eexists _, _. split; [reflexivity|]. split; [|split].
    + split; [done|]. cbn [dl_first dl_last].
      split; [by rewrite Hfirst, head_app_ne by apply snoc_ne|].
      split; [by rewrite last_snoc|].
      apply dl_seg_frame; [done|].
      apply dl_seg_snoc. split.
      * apply dl_seg_frame; [|done].
        apply NoDup_app in Hnd1 as (_ & Hd & _). intros Hin.
        apply (Hd p Hin). by left.
      * by rewrite lookup_insert_eq.
    + by rewrite lookup_insert_eq.
    + intros a Ha. apply not_elem_of_app in Ha as [Ha Ha'].
      apply not_elem_of_app in Ha as [_ Ha]. apply not_elem_of_cons in Ha as [Ha _].
      apply not_elem_of_cons in Ha' as [Ha' _].
      rewrite lookup_insert_ne by done. by rewrite lookup_insert_ne.
  - (* one in the middle *)
    rewrite last_snoc in *. cbn [from_option] in *.
    rewrite (bool_decide_eq_false_2 (Some p = None)) by done.
    rewrite (bool_decide_eq_false_2 (Some n = None)) by done.
    cbn [negb andb mbind dl_res_bind].
    apply dl_seg_snoc in Hseg1 as [Hseg1 Hp].
    assert (Hpel : p <> el).
    { intros ->. apply Hel1. apply elem_of_app. right. by left. }
    assert (Hnel : n <> el) by (intros ->; apply Hel2; by left).
    assert (Hpn : p <> n).
    { intros ->. apply (Hdis n); [apply elem_of_app; right; by left|].
      right. by left. }
    pose proof Hseg3 as [Hn _].
    rewrite (dl_store_next_ok _ _ _ _ Hp). cbn [mbind dl_res_bind dl_prev].
    rewrite lookup_insert_ne by done. rewrite Hel.
    cbn [mbind dl_res_bind dl_next dl_prev].
    erewrite dl_store_prev_ok by (rewrite lookup_insert_ne by done; exact Hn).
    cbn [mbind dl_res_bind dl_next].
    erewrite Hinit by (rewrite !lookup_insert_ne by done; exact Hel).
    cbn [mbind dl_res_bind].
    eexists _, _. split; [reflexivity|]. split; [|split].
    + split; [done|].
      split.
      { cbn [dl_first]. rewrite Hfirst.
        rewrite (head_app_ne (l1' ++ [p]) (el :: n :: l2')) by apply snoc_ne.
        by rewrite (head_app_ne (l1' ++ [p]) (n :: l2')) by apply snoc_ne. }
      cbn [dl_last].
      split.
      { rewrite Hlast. rewrite !last_app_ne by done. by rewrite last_cons_cons. }
      apply dl_seg_frame; [by apply not_elem_of_app|].
      apply dl_seg_app. cbn [head from_option]. rewrite last_snoc. cbn [from_option].
      apply NoDup_cons in Hnd2 as [Hn2 Hnd2'].
      split.
      * apply dl_seg_frame.
        { intros Hin. apply (Hdis n Hin). right. by left. }
        apply dl_seg_snoc. split.
        -- apply dl_seg_frame; [|done].
           apply NoDup_app in Hnd1 as (_ & Hd & _). intros Hin.
           apply (Hd p Hin). by left.
        -- by rewrite lookup_insert_eq.
      * assert (Hseg3' : dl_seg (<[p := {| dl_next := Some n;
                                           dl_prev := from_option Some None (last l1') |}]> m)
                           (Some el) (n :: l2') None).
        { apply dl_seg_frame; [|done]. intros Hin.
          apply (Hdis p); [apply elem_of_app; right; by left|]. by right. }
        assert (Hn' : <[p := {| dl_next := Some n;
                                dl_prev := from_option Some None (last l1') |}]> m !! n
                      = Some {| dl_next := match l2' with
                                           | [] => None
                                           | b :: _ => Some b
                                           end; dl_prev := Some el |})
          by (rewrite lookup_insert_ne by done; exact Hn).
        exact (dl_seg_cons_prev _ n l2' (Some el) (Some p) None _ Hn2 Hn' Hseg3').
    + by rewrite lookup_insert_eq.
    + intros a Ha. apply not_elem_of_app in Ha as [Ha Ha'].
      apply not_elem_of_app in Ha as [_ Ha]. apply not_elem_of_cons in Ha as [Ha _].
      apply not_elem_of_cons in Ha' as [Ha' Ha''].
      apply not_elem_of_cons in Ha'' as [Ha'' _].
      rewrite !lookup_insert_ne by done. done.
Qed.


Lemma dl_walk_next m l : forall p fuel,
  dl_seg m p l None -> (length l <= fuel)%nat ->
  dl_walk fuel dl_next m (head l) = Some (DlOk l).
Proof.
  induction l as [|a t IH]; intros p fuel Hseg Hfuel.
  - by destruct fuel.
  - destruct fuel as [|fuel]; [cbn in Hfuel; lia|].
    destruct Hseg as [Ha Ht].
    assert (Hlen : (length t <= fuel)%nat) by (cbn in Hfuel; lia).
    pose proof (IH (Some a) fuel Ht Hlen) as Hwalk.
    cbn [head dl_walk]. rewrite Ha. cbn [dl_next].
    destruct t; unfold head in Hwalk; cbv iota in Hwalk |- *; by rewrite Hwalk.
Qed.

Lemma dl_walk_prev m l : forall q fuel,
  dl_seg m None l q -> (length l <= fuel)%nat ->
  dl_walk fuel dl_prev m (last l) = Some (DlOk (rev l)).
Proof.
  induction l as [|x l IH] using rev_ind; intros q fuel Hseg Hfuel.
  - by destruct fuel.
  - rewrite length_app in Hfuel. cbn in Hfuel.
    destruct fuel as [|fuel]; [lia|].
    apply dl_seg_snoc in Hseg as [Hl Hx].
    rewrite last_snoc, rev_unit. cbn [dl_walk]. rewrite Hx. cbn [dl_prev].
    assert (E : from_option Some None (last l) = last l)
      by (by destruct (last l)).
    rewrite E, (IH (Some x) fuel Hl); [done|]. lia.
Qed.

Lemma dlist_rep_elem m h l1 el l2 :
  dlist_rep m h (l1 ++ el :: l2) ->
  m !! el = Some {| dl_next := head l2; dl_prev := last l1 |}.
Proof.
  intros (_ & _ & _ & Hseg). apply dl_seg_app in Hseg as [_ [Hel _]].
  rewrite Hel. by destruct l2, (last l1).
Qed.

Lemma head_not_elem {A} (l : list A) (x : A) : x ∉ l -> head l <> Some x.
Proof. destruct l; [done|]. intros H E. apply H. injection E as ->. by left. Qed.

Lemma last_not_elem {A} (l : list A) (x : A) : x ∉ l -> last l <> Some x.
Proof.
  destruct (snoc_or_nil l) as [->|(l' & y & ->)]; [done|].
  rewrite last_snoc. intros H E. apply H. injection E as ->.
  apply elem_of_app. right. by left.
Qed.

(** X12. [dlist_append] on a list [l] held by head and memory, for an element
    that is in memory and not in the list (its link fields may hold
    anything): it ends normally, the list is then [l] followed by the
    element, and no element outside the list is touched. *)
Theorem dlist_append_at_end m h l el :
  dlist_rep m h l -> el ∉ l -> is_Some (m !! el) ->
  exists m' h',
    dlist_append m h el = DlOk (m', h') /\
    dlist_rep m' h' (l ++ [el]) /\
    forall a, a ∉ l -> a <> el -> m' !! a = m !! a.
Proof. apply dlist_append_rep. Qed.

(** X13. [dlist_prepend] on a list [l], for an element that is in memory and
    not in the list: it ends normally and the list is then the element
    followed by [l]. *)
Theorem dlist_prepend_at_front m h l el :
  dlist_rep m h l -> el ∉ l -> is_Some (m !! el) ->
  exists m' h',
    dlist_prepend m h el = DlOk (m', h') /\
    dlist_rep m' h' (el :: l) /\
    forall a, a ∉ l -> a <> el -> m' !! a = m !! a.
Proof. apply dlist_prepend_rep. Qed.

(** X14. [dlist_unlink] on an element of the list: neither [BUG_ON] fires,
    the element is taken out and the others stay in their order, the link
    fields of the element are NULL again, and no element outside the list
    is touched. *)
Theorem dlist_unlink_removes m h l1 el l2 :
  dlist_rep m h (l1 ++ el :: l2) ->
  exists m' h',
    dlist_unlink m h el = DlOk (m', h') /\
    dlist_rep m' h' (l1 ++ l2) /\
    m' !! el = Some {| dl_next := None; dl_prev := None |} /\
    forall a, a ∉ l1 ++ el :: l2 -> m' !! a = m !! a.
Proof. apply dlist_unlink_rep. Qed.

(** X15. [dlist_relink_tail] and [dlist_relink_head] on an element of the
    list move it to the end, or to the front, and keep the order of the
    others. *)
Theorem dlist_relink_moves m h l1 el l2 :
  dlist_rep m h (l1 ++ el :: l2) ->
  (exists m' h',
     dlist_relink_tail m h el = DlOk (m', h') /\
     dlist_rep m' h' (l1 ++ l2 ++ [el])) /\
  (exists m' h',
     dlist_relink_head m h el = DlOk (m', h') /\
     dlist_rep m' h' (el :: l1 ++ l2)).
Proof.
  intros Hrep.
  assert (Hel : el ∉ l1 ++ l2).
  { destruct Hrep as (Hnd & _). apply NoDup_app in Hnd as (_ & Hdis & Hnd2).
    apply NoDup_cons in Hnd2 as [Hel2 _]. intros Hin.
    apply elem_of_app in Hin as [Hin|Hin]; [|done].
    apply (Hdis el Hin). by left. }
  destruct (dlist_unlink_rep m h l1 el l2 Hrep) as (m1 & h1 & Hun & Hrep1 & Hm1 & _).
  assert (Hsome : is_Some (m1 !! el)) by (by rewrite Hm1).
  split.
  - destruct (dlist_append_rep m1 h1 (l1 ++ l2) el Hrep1 Hel Hsome)
      as (m2 & h2 & Hap & Hrep2 & _).
    exists m2, h2. unfold dlist_relink_tail. rewrite Hun. cbn.
    split; [done|]. by rewrite app_assoc.
  - destruct (dlist_prepend_rep m1 h1 (l1 ++ l2) el Hrep1 Hel Hsome)
      as (m2 & h2 & Hpre & Hrep2 & _).
    exists m2, h2. unfold dlist_relink_head. rewrite Hun. by cbn.
Qed.

(** X16. A [dlist_foreach] loop over a list visits its elements from the
    first to the last and ends; [dlist_foreach_reverse] visits them from the
    last to the first; [dlist_is_empty] tells whether there is none. *)
Theorem dlist_foreach_visits_in_order m h l fuel :
  dlist_rep m h l -> (length l <= fuel)%nat ->
  dlist_foreach fuel m h = Some (DlOk l) /\
  dlist_foreach_reverse fuel m h = Some (DlOk (rev l)) /\
  (dlist_is_empty h = true <-> l = []).
Proof.
  intros (_ & Hfirst & Hlast & Hseg) Hfuel.
  unfold dlist_foreach, dlist_foreach_reverse, dlist_is_empty.
  rewrite Hfirst, Hlast. split; [by apply (dl_walk_next m l None)|].
  split; [by apply (dl_walk_prev m l None)|].
  rewrite bool_decide_eq_true. by destruct l.
Qed.

(** X17. [dlist_is_linked] tells whether an element is in the list, as long
    as the elements that are in no list have been through
    [dlist_init_el]. *)
Theorem dlist_is_linked_iff_member m h l el e :
  dlist_rep m h l -> m !! el = Some e ->
  (el ∉ l -> e = {| dl_next := None; dl_prev := None |}) ->
  dlist_is_linked m h el = DlOk (bool_decide (el ∈ l)).
Proof.
  intros Hrep He Hinit. unfold dlist_is_linked, dl_load. rewrite He. cbn.
  f_equal. destruct (decide (el ∈ l)) as [Hin|Hnin].
  - rewrite (bool_decide_eq_true_2 _ Hin).
    apply list_elem_of_split in Hin as (l1 & l2 & ->).
    pose proof (dlist_rep_elem m h l1 el l2 Hrep) as He'.
    rewrite He in He'. injection He' as ->.
    destruct Hrep as (_ & Hfirst & _). cbn [dl_next dl_prev].
    destruct (snoc_or_nil l1) as [->|(l1' & p & ->)].
    + cbn in Hfirst. rewrite Hfirst.
      rewrite (bool_decide_eq_true_2 (Some el = Some el)) by done.
      by rewrite orb_true_r.
    + rewrite last_snoc.
      by rewrite (bool_decide_eq_false_2 (Some p = None)).
  - rewrite (bool_decide_eq_false_2 _ Hnin). rewrite (Hinit Hnin).
    destruct Hrep as (_ & Hfirst & Hlast & _). cbn [dl_next dl_prev].
    rewrite Hfirst, Hlast.
    pose proof (head_not_elem l el Hnin). pose proof (last_not_elem l el Hnin).
    repeat case_bool_decide; done.
Qed.

(** X18. [dlist_unlink] on an element that is not in the list (its link
    fields may belong to another list): the brief check of the two [BUG_ON]
    stops it exactly when one of the two link fields of the element is
    NULL. *)
Theorem dlist_unlink_foreign_element m h l el e :
  dlist_rep m h l -> el ∉ l -> m !! el = Some e ->
  (dlist_unlink m h el = DlBug <-> dl_prev e = None \/ dl_next e = None).
Proof.
  intros (_ & Hfirst & Hlast & _) Hel He.
  pose proof (head_not_elem l el Hel) as Hh.
  pose proof (last_not_elem l el Hel) as Hl.
  rewrite <- Hfirst in Hh. rewrite <- Hlast in Hl.
  unfold dlist_unlink, dl_load. rewrite He. cbn.
  rewrite (bool_decide_eq_false_2 _ Hh), (bool_decide_eq_false_2 _ Hl).
  cbn [negb]. rewrite !andb_true_r.
  destruct e as [[n|] [p|]]; cbn [dl_next dl_prev];
    repeat case_bool_decide; try done;
    try (split; [intros _; first [by left|by right]|done]).
  split; [|by intros [?|?]]. intros Hbug. exfalso. revert Hbug.
  unfold dlist_init_el, dl_store_next, dl_store_prev, dl_load. cbn.
  repeat (case_match; cbn; try done).
Qed.

Lemma sample_dl_rep : dlist_rep sample_dl_mem sample_dl_head [10; 20; 30]%nat.
Proof.
  split; [|by vm_compute].
  by apply (bool_decide_unpack _).
Qed.

Lemma sample_dl_fresh : 40%nat ∉ [10; 20; 30]%nat.
Proof. by apply (bool_decide_unpack _). Qed.

Lemma sample_dl_fresh_lookup : is_Some (sample_dl_mem !! 40%nat).
Proof. by eexists. Qed.

Lemma dlist_append_at_end_witness :
  exists m' h',
    dlist_append sample_dl_mem sample_dl_head 40 = DlOk (m', h') /\
    dlist_rep m' h' ([10; 20; 30] ++ [40])%nat /\
    forall a, a ∉ [10; 20; 30]%nat -> a <> 40%nat -> m' !! a = sample_dl_mem !! a.
Proof.
  apply (dlist_append_at_end sample_dl_mem sample_dl_head [10; 20; 30]%nat 40).
  - exact sample_dl_rep.
  - exact sample_dl_fresh.
  - exact sample_dl_fresh_lookup.
Defined.

Lemma dlist_prepend_at_front_witness :
  exists m' h',
    dlist_prepend sample_dl_mem sample_dl_head 40 = DlOk (m', h') /\
    dlist_rep m' h' [40; 10; 20; 30]%nat /\
    forall a, a ∉ [10; 20; 30]%nat -> a <> 40%nat -> m' !! a = sample_dl_mem !! a.
Proof.
  apply (dlist_prepend_at_front sample_dl_mem sample_dl_head [10; 20; 30]%nat 40).
  - exact sample_dl_rep.
  - exact sample_dl_fresh.
  - exact sample_dl_fresh_lookup.
Defined.

Lemma dlist_unlink_removes_witness :
  exists m' h',
    dlist_unlink sample_dl_mem sample_dl_head 20 = DlOk (m', h') /\
    dlist_rep m' h' [10; 30]%nat /\
    m' !! 20%nat = Some {| dl_next := None; dl_prev := None |} /\
    forall a, a ∉ [10; 20; 30]%nat -> m' !! a = sample_dl_mem !! a.
Proof.
  exact (dlist_unlink_removes sample_dl_mem sample_dl_head [10]%nat 20 [30]%nat
           sample_dl_rep).
Defined.

Lemma dlist_relink_moves_witness :
  (exists m' h',
     dlist_relink_tail sample_dl_mem sample_dl_head 20 = DlOk (m', h') /\
     dlist_rep m' h' [10; 30; 20]%nat) /\
  (exists m' h',
     dlist_relink_head sample_dl_mem sample_dl_head 20 = DlOk (m', h') /\
     dlist_rep m' h' [20; 10; 30]%nat).
Proof.
  exact (dlist_relink_moves sample_dl_mem sample_dl_head [10]%nat 20 [30]%nat
           sample_dl_rep).
Defined.

Lemma dlist_foreach_visits_in_order_witness :
  dlist_foreach 3 sample_dl_mem sample_dl_head = Some (DlOk [10; 20; 30]%nat) /\
  dlist_foreach_reverse 3 sample_dl_mem sample_dl_head
  = Some (DlOk (rev [10; 20; 30]%nat)) /\
  (dlist_is_empty sample_dl_head = true <-> [10; 20; 30]%nat = []).
Proof.
  apply (dlist_foreach_visits_in_order sample_dl_mem sample_dl_head
           [10; 20; 30]%nat 3).
  - exact sample_dl_rep.
  - cbn. lia.
Defined.

Lemma dlist_is_linked_iff_member_witness :
  dlist_is_linked sample_dl_mem sample_dl_head 40
  = DlOk (bool_decide (40%nat ∈ [10; 20; 30]%nat)).
Proof.
  apply (dlist_is_linked_iff_member sample_dl_mem sample_dl_head [10; 20; 30]%nat
           40 {| dl_next := None; dl_prev := None |}).
  - exact sample_dl_rep.
  - reflexivity.
  - reflexivity.
Defined.

Lemma dlist_unlink_foreign_element_witness :
  dlist_unlink sample_dl_mem sample_dl_head 40 = DlBug
  <-> dl_prev {| dl_next := None; dl_prev := None |} = None
      \/ dl_next {| dl_next := None; dl_prev := None |} = None.
Proof.
  apply (dlist_unlink_foreign_element sample_dl_mem sample_dl_head
           [10; 20; 30]%nat 40).
  - exact sample_dl_rep.
  - exact sample_dl_fresh.
  - reflexivity.
Defined.

(** * The member mapping of load_vol_cconf *)

Lemma member_added_false member u :
  member_added member u = false -> u ∉ vm_uuid <$> member.
Proof.
  unfold member_added. induction member as [|x t IH]; cbn.
  - intros _. apply not_elem_of_nil.
  - intros H. apply orb_false_iff in H as [Hx Ht].
    apply not_elem_of_cons. split; [|by apply IH].
    unfold uuid_equal in Hx. apply bool_decide_eq_false in Hx. congruence.
Qed.

Lemma member_added_snoc member dm :
  member_added (member ++ [dm]) (vm_uuid dm) = true.
Proof.
  unfold member_added. rewrite existsb_app. cbn.
  unfold uuid_equal. rewrite (bool_decide_eq_true_2 (vm_uuid dm = vm_uuid dm)) by done.
  by rewrite orb_true_r.
Qed.

(** One label entry adds no member or one; the one it adds is a detected
    device with the uuid of the entry, and no member had this uuid. *)
Lemma load_vol_cconf_scan_adds u detected : forall member ms,
  load_vol_cconf_scan u detected member = Some ms ->
  ms = member
  \/ exists dm, ms = member ++ [dm] /\ dm ∈ detected /\ vm_uuid dm = u
                /\ u ∉ vm_uuid <$> member.
Proof.
  induction detected as [|dm rest IH]; intros member ms H; cbn in H.
  - left. congruence.
  - destruct (uuid_equal u (vm_uuid dm)) eqn:Eu.
    + destruct (member_added member u) eqn:Ea; [done|].
      unfold uuid_equal in Eu. apply bool_decide_eq_true in Eu.
      destruct dm as [d uu]. cbn in *. subst uu.
      destruct (IH _ _ H) as [->|(dm' & -> & _ & Hu' & Hnin)].
      * right. exists {| vm_d := d; vm_uuid := u |}.
        split; [done|]. split; [by left|]. split; [done|].
        by apply member_added_false.
      * exfalso. apply Hnin. rewrite fmap_app. apply elem_of_app. right.
        cbn. by left.
    + destruct (IH _ _ H) as [->|(dm' & -> & Hin & Hu' & Hnin)]; [by left|].
      right. exists dm'. split; [done|]. split; [by right|]. done.
Qed.

Lemma load_vol_cconf_map_adds detected : forall label member ms,
  load_vol_cconf_map label detected member = Some ms ->
  NoDup (vm_uuid <$> member) ->
  exists add,
    ms = member ++ add /\
    NoDup (vm_uuid <$> ms) /\
    (forall x, x ∈ add -> x ∈ detected) /\
    (length add <= length label)%nat /\
    (length add = length label -> vm_uuid <$> add = label).
Proof.
  induction label as [|u rest IH]; intros member ms H Hnd; cbn in H.
  - injection H as <-. exists []. rewrite app_nil_r.
    split; [done|]. split; [done|]. split; [by intros x Hx; inversion Hx|].
    split; [done|]. done.
  - destruct (load_vol_cconf_scan u detected member) as [m1|] eqn:Es; [|done].
    destruct (load_vol_cconf_scan_adds _ _ _ _ Es)
      as [->|(dm & -> & Hin & Hu & Hnin)].
    + destruct (IH _ _ H Hnd) as (add & -> & Hnd' & Hdet & Hlen & Heq).
      exists add. split; [done|]. split; [done|]. split; [done|].
      cbn [length]. split; [lia|]. intros E. lia.
    + assert (Hnd1 : NoDup (vm_uuid <$> member ++ [dm])).
      { rewrite fmap_app. apply NoDup_app. split; [done|]. cbn.
        split; [|apply NoDup_singleton].
        intros x Hx Hx'. apply list_elem_of_singleton in Hx'. congruence. }
      destruct (IH _ _ H Hnd1) as (add & -> & Hnd' & Hdet & Hlen & Heq).
      exists (dm :: add). split; [by rewrite <- app_assoc|].
      split; [done|]. split.
      { intros x Hx. apply elem_of_cons in Hx as [->|Hx]; [done|by apply Hdet]. }
      cbn [length]. split; [lia|]. intros E.
      rewrite fmap_cons, Hu. f_equal. apply Heq. lia.
Qed.

(** X19. When [load_vol_cconf] has set up the members without ending the
    program, the members are the devices that were passed, each one once and
    in the order in which the label names their uuids, and no uuid is named
    twice. *)
Theorem load_vol_cconf_member_mapping label detected member :
  load_vol_cconf_members label detected = Some member ->
  vm_uuid <$> member = label /\ NoDup label /\ member ≡ₚ detected.
Proof.
  unfold load_vol_cconf_members.
  destruct (length detected =? 0)%nat; [done|].
  destruct (load_vol_cconf_map label detected []) as [ms|] eqn:Em; [|done].
  destruct (length ms =? length detected)%nat eqn:E1; [|done].
  destruct (length ms =? length label)%nat eqn:E2; [|done].
  cbn. intros H. injection H as <-.
  apply Nat.eqb_eq in E1, E2.
  destruct (load_vol_cconf_map_adds _ _ _ _ Em) as (add & -> & Hnd & Hdet & _ & Heq).
  { cbn. apply NoDup_nil_2. }
  cbn [app] in *. specialize (Heq E2).
  split; [done|]. split; [by rewrite <- Heq|].
  apply submseteq_length_Permutation; [|lia].
  apply NoDup_submseteq; [|done]. by apply (NoDup_fmap_1 vm_uuid).
Qed.

Lemma load_vol_cconf_member_mapping_witness :
  vm_uuid <$> [ {| vm_d := 1; vm_uuid := [x01; x02] |};
                {| vm_d := 0; vm_uuid := [x03; x04] |} ] = sample_label
  /\ NoDup sample_label
  /\ [ {| vm_d := 1; vm_uuid := [x01; x02] |};
       {| vm_d := 0; vm_uuid := [x03; x04] |} ] ≡ₚ sample_detected.
Proof.
  apply (load_vol_cconf_member_mapping sample_label sample_detected).
  vm_compute. reflexivity.
Defined.

(** * Printing a digest *)

Lemma hash_unparse_bytes_length h :
  String.length (hash_unparse_bytes h) = (2 * length h)%nat.
Proof. induction h as [|b h IH]; [done|]. cbn. rewrite IH. lia. Qed.

(** X20. [hash_unparse] writes two characters for each of the [hlen]
    bytes, and the strings of two digests are the same exactly when the
    digests agree on these bytes. *)
Theorem hash_unparse_faithful h h' hl :
  (0 < hl)%nat -> (hl <= length h)%nat ->
  String.length (hash_unparse h hl) = (2 * hl)%nat /\
  (hash_unparse h hl = hash_unparse h' hl <-> take hl h = take hl h').
Proof.
  intros _ Hlen. unfold hash_unparse. split.
  - rewrite hash_unparse_bytes_length, length_take. lia.
  - split; [|by intros ->]. intros E.
    apply (f_equal hex_bytes) in E. rewrite !hex_bytes_unparse in E.
    by injection E.
Qed.

Lemma hash_unparse_faithful_witness :
  String.length (hash_unparse [x0a; xff] 2) = (2 * 2)%nat /\
  (hash_unparse [x0a; xff] 2 = hash_unparse [x0a; xff; x00] 2
   <-> take 2 [x0a; xff] = take 2 [x0a; xff; x00]).
Proof.
  apply (hash_unparse_faithful [x0a; xff] [x0a; xff; x00] 2); cbn; lia.
Defined.
